(** * Cache-Simulator: LRU, FIFO and LFU replacement policies

    A shallow embedding of [cache_simulator.h] and [main.cpp].

    - [std::list<std::string>] is a list of nodes; every node carries the
      address it was allocated at, so that a [std::list] iterator (which
      stays valid while other nodes are inserted, erased or spliced) is the
      address of its node.  Each cache carries the allocation counter
      [heap] from which fresh node addresses are drawn.
    - [std::unordered_map] and [std::unordered_set] are [gmap] and [gset],
      [std::queue] is a list with its front at the head.
    - [size_t] values are [nat].  [int] values are [Z]: the counters and
      the LFU frequencies only ever grow by one per access, and
      [run_int_range] shows that they stay within the range of [int] on
      every run of at most [INT_MAX] accesses (beyond that the signed
      overflow of [hits++] is undefined in C++).
    - An operation whose behaviour C++ leaves undefined ([back()] or
      [front()] of an empty container, [erase] or [splice] through an
      iterator that does not point into the list) yields [None].
    - The text written to [std::cout] by [access] is kept as an [event]:
      the HIT / MISS line and the key named on the "Evicting" line.  The
      call of [print_cache_state] that ends [access] only reads the cache;
      what it prints is given by the functions [print_cache_state], and
      for LFU, where it is a loop, [print_cache_state_ok] shows that the
      loop ends on every state the cache can be in.
    - [double] is IEEE 754 binary64 as specified by [SpecFloat]. *)

From Stdlib Require Import ZArith List String QArith Qabs Qpower Lqa.
From Stdlib Require Import Floats.SpecFloat.
From stdpp Require Import gmap strings list fin_maps sorting.

Open Scope string_scope.
Open Scope list_scope.
Open Scope Z_scope.

(** ** The interface [ICachePolicy] *)

Inductive outcome := HIT | MISS.

Global Instance outcome_eq_dec : EqDecision outcome.
Proof. solve_decision. Defined.

Record event := Event { ev_outcome : outcome; ev_evicted : option string }.

Record ICachePolicy := Base { capacity : nat; hits : Z; misses : Z }.

(** [ICachePolicy(size_t cap)]: a capacity of zero is raised to one. *)
Definition ICachePolicy_new (cap : nat) : ICachePolicy :=
  Base (if decide (cap = 0%nat) then 1%nat else cap) 0 0.

(** [hits++] and [misses++]. *)
Definition count_hit (b : ICachePolicy) : ICachePolicy :=
  Base (capacity b) (hits b + 1) (misses b).

Definition count_miss (b : ICachePolicy) : ICachePolicy :=
  Base (capacity b) (hits b) (misses b + 1).

(** ** The hit rate of [print_stats]

    [double] is IEEE 754 binary64, as specified by [SpecFloat]: 53 bits of
    precision, infinities at exponent 1024, round to nearest even. *)

Definition prec : Z := 53.
Definition emax : Z := 1024.
Definition INT_MAX : Z := 2147483647.

(** The conversion of an [int] to [double]: [static_cast<double>(hits)],
    the conversion of the divisor [hits + misses], and the literals. *)
Definition double_of_int (n : Z) : spec_float :=
  binary_normalize prec emax n 0 false.

(** [(hits + misses > 0)
       ? (static_cast<double>(hits) / (hits + misses) * 100.0) : 0.0] *)
Definition hit_rate (b : ICachePolicy) : spec_float :=
  if 0 <? hits b + misses b then
    SFmul prec emax
      (SFdiv prec emax (double_of_int (hits b))
                       (double_of_int (hits b + misses b)))
      (double_of_int 100)
  else S754_zero false.

(** The rational number a finite double stands for. *)
Definition SF2Q (x : spec_float) : option Q :=
  match x with
  | S754_zero _ => Some 0%Q
  | S754_finite s m e =>
      Some (inject_Z (if s then Z.neg m else Z.pos m) * (2 ^ e))%Q
  | _ => None
  end.

(** [located a N mrs]: the record [mrs] tells where the quotient of [N] by
    [a] lies.  [shr_m] is its integer part, the round bit tells whether
    its fraction is at least one half, and the sticky bit whether its
    fraction is neither zero nor one half. *)
Definition located (a N : Z) (mrs : shr_record) : Prop :=
  shr_m mrs = N / a ∧
  (shr_r mrs = true ↔ a ≤ 2 * (N mod a)) ∧
  (shr_s mrs = true ↔ N mod a ≠ 0 ∧ 2 * (N mod a) ≠ a).

(** ** [std::list<std::string>] with stable iterators *)

Definition iterator := nat.

Abbreviation std_list := (list (iterator * string)).

Definition keys (l : std_list) : list string := l.*2.

Definition nodes (l : std_list) : list iterator := l.*1.

(** [l.begin()]; [None] stands for [l.end()]. *)
Definition begin (l : std_list) : option iterator := fst <$> head l.

(** [l.back()]. *)
Definition back (l : std_list) : option string := snd <$> last l.

(** [l.pop_back()], called on a non-empty list only. *)
Definition pop_back (l : std_list) : std_list := removelast l.

(** [l.push_front(key)], the new node being allocated at [it]. *)
Definition push_front (it : iterator) (key : string) (l : std_list) : std_list :=
  (it, key) :: l.

Definition unlink (it : iterator) (l : std_list) : std_list :=
  filter (λ n, n.1 ≠ it) l.

(** [l.erase(it)]. *)
Definition erase (it : iterator) (l : std_list) : option std_list :=
  if decide (it ∈ nodes l) then Some (unlink it l) else None.

(** [l.splice(l.begin(), l, it)]: the node at [it] is relinked in front. *)
Definition splice_front (it : iterator) (l : std_list) : option std_list :=
  '(_, n) ← list_find (λ n, n.1 = it) l;
  Some (n :: unlink it l).

(** ** LRU *)

Module LRUCache.

Record t := Make {
  base : ICachePolicy;
  lru_list : std_list;
  cache_map : gmap string iterator;
  heap : iterator
}.

Definition new (cap : nat) : t := Make (ICachePolicy_new cap) [] ∅ 0%nat.

Definition access (key : string) (c : t) : option (t * event) :=
  match cache_map c !! key with
  | Some it =>
      l ← splice_front it (lru_list c);
      b ← begin l;
      Some (Make (count_hit (base c)) l (<[key := b]> (cache_map c)) (heap c),
            Event HIT None)
  | None =>
      let base' := count_miss (base c) in
      '(l, m, evicted) ←
        (if decide (capacity base' ≤ length (lru_list c))%nat then
           lru_key ← back (lru_list c);
           Some (pop_back (lru_list c), delete lru_key (cache_map c), Some lru_key)
         else Some (lru_list c, cache_map c, None));
      let l' := push_front (heap c) key l in
      b ← begin l';
      Some (Make base' l' (<[key := b]> m) (S (heap c)), Event MISS evicted)
  end.

(** The keys printed by [print_cache_state], most recently used first. *)
Definition print_cache_state (c : t) : list string := keys (lru_list c).

End LRUCache.

(** ** FIFO *)

Module FIFOCache.

Record t := Make {
  base : ICachePolicy;
  fifo_queue : list string;
  cache_set : gset string
}.

Definition new (cap : nat) : t := Make (ICachePolicy_new cap) [] ∅.

Definition access (key : string) (c : t) : option (t * event) :=
  if decide (key ∈ cache_set c) then
    Some (Make (count_hit (base c)) (fifo_queue c) (cache_set c), Event HIT None)
  else
    let base' := count_miss (base c) in
    '(q, s, evicted) ←
      (if decide (capacity base' ≤ length (fifo_queue c))%nat then
         fifo_key ← head (fifo_queue c);
         Some (tail (fifo_queue c), cache_set c ∖ {[fifo_key]}, Some fifo_key)
       else Some (fifo_queue c, cache_set c, None));
    Some (Make base' (q ++ [key]) ({[key]} ∪ s), Event MISS evicted).

(** The keys printed by [print_cache_state], oldest first. *)
Definition print_cache_state (c : t) : list string := fifo_queue c.

End FIFOCache.

(** ** LFU *)

Module LFUCache.

Record t := Make {
  base : ICachePolicy;
  cache_map : gmap string (Z * iterator);
  freq_map : gmap Z std_list;
  min_frequency : Z;
  heap : iterator
}.

Definition new (cap : nat) : t := Make (ICachePolicy_new cap) ∅ ∅ 0 0%nat.

(** The list read by [freq_map[f]]; [operator[]] yields an empty list
    for a frequency that has no entry yet. *)
Definition bucket (fm : gmap Z std_list) (f : Z) : std_list :=
  default [] (fm !! f).

(** [update_frequency(key, entry)], where [entry] is the value stored
    under [key] in [cache_map]; the assignments to [entry] are written
    back under [key]. *)
Definition update_frequency (key : string) (entry : Z * iterator) (c : t) : option t :=
  let old_freq := entry.1 in
  let new_freq := old_freq + 1 in
  l_old ← erase entry.2 (bucket (freq_map c) old_freq);
  let fm1 := <[old_freq := l_old]> (freq_map c) in
  let fm2 := <[new_freq := push_front (heap c) key (bucket fm1 new_freq)]> fm1 in
  b ← begin (bucket fm2 new_freq);
  Some (Make (base c)
             (<[key := (new_freq, b)]> (cache_map c))
             fm2
             (if decide (bucket fm2 old_freq = [] ∧ old_freq = min_frequency c)
              then new_freq else min_frequency c)
             (S (heap c))).

Definition access (key : string) (c : t) : option (t * event) :=
  match cache_map c !! key with
  | Some entry =>
      c' ← update_frequency key entry
             (Make (count_hit (base c)) (cache_map c) (freq_map c)
                   (min_frequency c) (heap c));
      Some (c', Event HIT None)
  | None =>
      let base' := count_miss (base c) in
      '(fm, m, evicted) ←
        (if decide (capacity base' ≤ size (cache_map c))%nat then
           let lfu_list := bucket (freq_map c) (min_frequency c) in
           lfu_key ← back lfu_list;
           Some (<[min_frequency c := pop_back lfu_list]> (freq_map c),
                 delete lfu_key (cache_map c), Some lfu_key)
         else Some (freq_map c, cache_map c, None));
      let new_freq := 1 in
      let fm' := <[new_freq := push_front (heap c) key (bucket fm new_freq)]> fm in
      b ← begin (bucket fm' new_freq);
      Some (Make base' (<[key := (new_freq, b)]> m) fm' 1 (S (heap c)),
            Event MISS evicted)
  end.

(** The loop of [print_cache_state], which walks the frequencies upwards
    from [min_frequency] until it has printed as many keys as the
    directory holds.  Each printed line is a frequency with the keys of
    its list.  [fuel] bounds the number of iterations; [None] means the
    loop was still running when the fuel ran out. *)
Fixpoint print_loop (fuel : nat) (c : t) (current_freq : Z)
    (items_printed : nat) : option (list (Z * list string)) :=
  if decide (items_printed < size (cache_map c))%nat then
    match fuel with
    | O => None
    | S fuel' =>
        match freq_map c !! current_freq with
        | Some (n :: l) =>
            rest ← print_loop fuel' c (current_freq + 1)
                     (items_printed + length (n :: l));
            Some ((current_freq, keys (n :: l)) :: rest)
        | _ => print_loop fuel' c (current_freq + 1) items_printed
        end
    end
  else Some [].

Definition print_cache_state (fuel : nat) (c : t) : option (list (Z * list string)) :=
  if decide (cache_map c = ∅) then Some []
  else print_loop fuel c (min_frequency c) 0.

End LFUCache.

(** ** The simulator *)

Inductive policy :=
  | LRU (c : LRUCache.t)
  | FIFO (c : FIFOCache.t)
  | LFU (c : LFUCache.t).

Record CacheSimulator := Simulator {
  cache : policy;
  access_sequence : list string
}.

(** The constructor: an unknown policy name falls back to LRU. *)
Definition CacheSimulator_new (cap : nat) (sequence : list string)
    (policy_type : string) : CacheSimulator :=
  Simulator
    (if decide (policy_type = "LRU") then LRU (LRUCache.new cap)
     else if decide (policy_type = "FIFO") then FIFO (FIFOCache.new cap)
     else if decide (policy_type = "LFU") then LFU (LFUCache.new cap)
     else LRU (LRUCache.new cap))
    sequence.

(** [cache->access(key)], dispatched on the dynamic type. *)
Definition access (key : string) (p : policy) : option (policy * event) :=
  match p with
  | LRU c => prod_map LRU id <$> LRUCache.access key c
  | FIFO c => prod_map FIFO id <$> FIFOCache.access key c
  | LFU c => prod_map LFU id <$> LFUCache.access key c
  end.

(** The loop of [run]: every key of the sequence is accessed in order. *)
Fixpoint replay (p : policy) (ks : list string) : option (policy * list event) :=
  match ks with
  | [] => Some (p, [])
  | key :: ks' =>
      '(p', e) ← access key p;
      '(p'', es) ← replay p' ks';
      Some (p'', e :: es)
  end.

Definition run (sim : CacheSimulator) : option (policy * list event) :=
  replay (cache sim) (access_sequence sim).

(** ** Observations *)

Definition policy_base (p : policy) : ICachePolicy :=
  match p with
  | LRU c => LRUCache.base c
  | FIFO c => FIFOCache.base c
  | LFU c => LFUCache.base c
  end.

(** The resident keys: the keys [access] finds in the directory. *)
Definition resident (p : policy) : gset string :=
  match p with
  | LRU c => dom (LRUCache.cache_map c)
  | FIFO c => FIFOCache.cache_set c
  | LFU c => dom (LFUCache.cache_map c)
  end.

Definition main_capacity : nat := 4.

Definition main_accesses : list string :=
  ["A"; "B"; "C"; "D"; "A"; "E"; "A"; "B"; "A"; "C"; "D"; "E"; "D"; "C"].

Definition outcomes (r : option (policy * list event)) : option (list outcome) :=
  (λ pe : policy * list event, ev_outcome <$> pe.2) <$> r.

(** The keys named on the "Evicting" lines, access by access. *)
Definition evictions (r : option (policy * list event)) : option (list (option string)) :=
  (λ pe : policy * list event, ev_evicted <$> pe.2) <$> r.

(** How many of the events report the outcome [o]. *)
Definition count_outcome (o : outcome) (es : list event) : Z :=
  Z.of_nat (length (filter (λ e, ev_outcome e = o) es)).

Definition final_resident (r : option (policy * list event)) : option (gset string) :=
  (λ pe : policy * list event, resident pe.1) <$> r.

(** The run of [main]: one simulator per policy, same capacity and
    sequence. *)
Definition scenario (policy_type : string) : option (policy * list event) :=
  run (CacheSimulator_new main_capacity main_accesses policy_type).

(** ** What one access may do to the observable state

    [step_ok key b r b' r' e]: the effect of accessing [key] on the
    counters and on the set of resident keys, as told by the event. *)

Definition step_ok (key : string) (b : ICachePolicy) (r : gset string)
    (b' : ICachePolicy) (r' : gset string) (e : event) : Prop :=
  capacity b' = capacity b ∧
  match ev_outcome e with
  | HIT =>
      key ∈ r ∧ r' = r ∧ hits b' = hits b + 1 ∧ misses b' = misses b ∧
      ev_evicted e = None
  | MISS =>
      (key ∉ r) ∧ hits b' = hits b ∧ misses b' = misses b + 1 ∧
      match ev_evicted e with
      | Some v => v ∈ r ∧ size r = capacity b ∧ r' = {[key]} ∪ (r ∖ {[v]})
      | None => (size r < capacity b)%nat ∧ r' = {[key]} ∪ r
      end
  end.

(** ** Representation invariants *)

Record FIFO_inv (c : FIFOCache.t) : Prop := {
  fifo_cap : (1 ≤ capacity (FIFOCache.base c))%nat;
  fifo_nodup : NoDup (FIFOCache.fifo_queue c);
  fifo_set : list_to_set (FIFOCache.fifo_queue c) = FIFOCache.cache_set c;
  fifo_len : (length (FIFOCache.fifo_queue c) ≤ capacity (FIFOCache.base c))%nat
}.

Record LRU_inv (c : LRUCache.t) : Prop := {
  lru_cap : (1 ≤ capacity (LRUCache.base c))%nat;
  lru_nodes : NoDup (nodes (LRUCache.lru_list c));
  lru_keys : NoDup (keys (LRUCache.lru_list c));
  lru_map : ∀ k it,
    LRUCache.cache_map c !! k = Some it ↔ (it, k) ∈ LRUCache.lru_list c;
  lru_fresh : ∀ it, it ∈ nodes (LRUCache.lru_list c) → (it < LRUCache.heap c)%nat;
  lru_len : (length (LRUCache.lru_list c) ≤ capacity (LRUCache.base c))%nat
}.

(** The directory and the frequency lists of an LFU cache agree: the entry
    [(f, it)] stored under [k] is the node of [k] in the list of [f]. *)
Record LFU_links (cm : gmap string (Z * iterator)) (fm : gmap Z std_list)
    (hp : iterator) : Prop := {
  lfu_nodes : ∀ f, NoDup (nodes (LFUCache.bucket fm f));
  lfu_map : ∀ k f it, cm !! k = Some (f, it) ↔ (it, k) ∈ LFUCache.bucket fm f;
  lfu_fresh : ∀ f it, it ∈ nodes (LFUCache.bucket fm f) → (it < hp)%nat;
  lfu_pos : ∀ k f it, cm !! k = Some (f, it) → 1 ≤ f
}.

Record LFU_inv (c : LFUCache.t) : Prop := {
  lfu_cap : (1 ≤ capacity (LFUCache.base c))%nat;
  lfu_links :
    LFU_links (LFUCache.cache_map c) (LFUCache.freq_map c) (LFUCache.heap c);
  lfu_min :
    LFUCache.cache_map c ≠ ∅ →
    LFUCache.bucket (LFUCache.freq_map c) (LFUCache.min_frequency c) ≠ [];
  lfu_lower : ∀ k f it,
    LFUCache.cache_map c !! k = Some (f, it) → LFUCache.min_frequency c ≤ f;
  lfu_len : (size (LFUCache.cache_map c) ≤ capacity (LFUCache.base c))%nat
}.

(** [later ks a b]: in the access sequence [ks], some access to [a] comes
    after every access to [b]; [a] was touched more recently than [b]. *)
Definition later (ks : list string) (a b : string) : Prop :=
  ∃ j, ks !! j = Some a ∧ ∀ i, ks !! i = Some b → (i < j)%nat.

(** Every frequency list is ordered from the most recently touched key to
    the least recently touched one. *)
Definition LFU_recency (ks : list string) (fm : gmap Z std_list) : Prop :=
  ∀ f, StronglySorted (later ks) (keys (LFUCache.bucket fm f)).

Definition policy_inv (p : policy) : Prop :=
  match p with
  | LRU c => LRU_inv c
  | FIFO c => FIFO_inv c
  | LFU c => LFU_inv c
  end.

(** Two FIFO caches with the same queue, set and capacity; the counters
    may differ. *)
Definition FIFO_same (c1 c2 : FIFOCache.t) : Prop :=
  FIFOCache.fifo_queue c1 = FIFOCache.fifo_queue c2 ∧
  FIFOCache.cache_set c1 = FIFOCache.cache_set c2 ∧
  capacity (FIFOCache.base c1) = capacity (FIFOCache.base c2).

(** The resident keys of an LFU cache whose frequency is less than [f]:
    the keys [print_cache_state] has printed when it reaches [f]. *)
Definition below (c : LFUCache.t) (f : Z) : gset string :=
  dom (filter (λ kv : string * (Z * iterator), kv.2.1 < f) (LFUCache.cache_map c)).

(** Two caches of the same policy. *)
Definition same_kind (p p' : policy) : Prop :=
  match p, p' with
  | LRU _, LRU _ | FIFO _, FIFO _ | LFU _, LFU _ => True
  | _, _ => False
  end.

(** The frequencies of an LFU cache are at most [n]. *)
Definition LFU_bounded (n : Z) (c : LFUCache.t) : Prop :=
  0 ≤ LFUCache.min_frequency c ≤ n ∧
  ∀ k f it, LFUCache.cache_map c !! k = Some (f, it) → f ≤ n.

(** No [int] of the cache is outside the range of [int]. *)
Definition int_range (p : policy) : Prop :=
  0 ≤ hits (policy_base p) ≤ INT_MAX ∧
  0 ≤ misses (policy_base p) ≤ INT_MAX ∧
  hits (policy_base p) + misses (policy_base p) ≤ INT_MAX ∧
  match p with
  | LFU c =>
      0 ≤ LFUCache.min_frequency c ≤ INT_MAX ∧
      ∀ k f it, LFUCache.cache_map c !! k = Some (f, it) → 1 ≤ f ≤ INT_MAX
  | _ => True
  end.

(** ** The statement of the specification that fails as worded *)

(** Two policies differ on the scenario of [main] when some access has
    different outcomes or the final sets of resident keys differ. *)
Definition policies_differ (a b : string) : Prop :=
  outcomes (scenario a) ≠ outcomes (scenario b) ∨
  final_resident (scenario a) ≠ final_resident (scenario b).

(** ** The history of a run

    What the keys accessed and the events reported tell about the state
    a run ends in. *)

(** The keys whose access was a miss, in the order of the accesses. *)
Definition missed_keys (ks : list string) (es : list event) : list string :=
  (filter (λ ke : string * event, ev_outcome ke.2 = MISS) (zip ks es)).*1.

(** The keys named on the "Evicting" lines, in the order of the evictions. *)
Definition evicted_keys (es : list event) : list string := omap ev_evicted es.

(** [alive ks es k]: [k] has been accessed at a position after which no
    event evicts it. *)
Definition alive (ks : list string) (es : list event) (k : string) : Prop :=
  ∃ i, ks !! i = Some k ∧
       ∀ j e, es !! j = Some e → ev_evicted e = Some k → (j < i)%nat.

(** [working_set ks p es]: the resident keys are keys of [ks], as many as
    fit; while all the distinct keys fit, nothing was evicted and each
    distinct key missed once. *)
Definition working_set (ks : list string) (p : policy) (es : list event) : Prop :=
  resident p ⊆ list_to_set ks ∧
  size (resident p) =
    Nat.min (capacity (policy_base p)) (size (list_to_set ks : gset string)) ∧
  ((size (list_to_set ks : gset string) ≤ capacity (policy_base p))%nat →
     evicted_keys es = [] ∧
     count_outcome MISS es = Z.of_nat (size (list_to_set ks : gset string))).

(** The recency invariant of the LRU list along the history [ks]. *)
Definition LRU_recency (ks : list string) (c : LRUCache.t) : Prop :=
  StronglySorted (later ks) (keys (LRUCache.lru_list c)) ∧
  head (keys (LRUCache.lru_list c)) = last ks ∧
  ∀ k r, k ∈ keys (LRUCache.lru_list c) → r ∉ keys (LRUCache.lru_list c) → later ks k r.

(** [loaded_at ks es k i]: the access number [i] of the run is the last
    miss on [k]; every later access to [k] is a hit. *)
Definition loaded_at (ks : list string) (es : list event) (k : string)
    (i : nat) : Prop :=
  ks !! i = Some k ∧
  (∃ e, es !! i = Some e ∧ ev_outcome e = MISS) ∧
  ∀ j e, (i < j)%nat → ks !! j = Some k → es !! j = Some e → ev_outcome e = HIT.

(** The number of accesses to [k] from the access number [i] on. *)
Definition uses_from (ks : list string) (k : string) (i : nat) : Z :=
  Z.of_nat (length (filter (λ x, x = k) (drop i ks))).

(** [one_slot ks p es]: the cache holds the key of the last access and
    nothing else, and each event is told by the key of the access and
    the key of the access before it. *)
Definition one_slot (ks : list string) (p : policy) (es : list event) : Prop :=
  capacity (policy_base p) = 1%nat ∧
  length es = length ks ∧
  resident p = list_to_set (option_list (last ks)) ∧
  ∀ i key e, ks !! i = Some key → es !! i = Some e →
    match i with
    | O => e = Event MISS None
    | S j => (ks !! j = Some key ∧ e = Event HIT None) ∨
             (ks !! j ≠ Some key ∧ e = Event MISS (ks !! j))
    end.

(** The resident keys in the order in which a cache that has seen no hit
    took them in: the list of LRU from its back, the queue of FIFO, the
    list of frequency one of LFU from its back. *)
Definition insertion_order (p : policy) : list string :=
  match p with
  | LRU c => reverse (LRUCache.print_cache_state c)
  | FIFO c => FIFOCache.print_cache_state c
  | LFU c => reverse (keys (LFUCache.bucket (LFUCache.freq_map c) 1))
  end.

(** No resident key has been hit: for LFU, every frequency is one. *)
Definition cold (p : policy) : Prop :=
  match p with
  | LFU c => ∀ k f it, LFUCache.cache_map c !! k = Some (f, it) → f = 1
  | _ => True
  end.

(** [cold_run ks p es]: as long as no key repeats, nothing hits and the
    keys accessed are the keys evicted followed by the resident keys. *)
Definition cold_run (ks : list string) (p : policy) (es : list event) : Prop :=
  NoDup ks →
  cold p ∧ Forall (λ e, ev_outcome e = MISS) es ∧
  ks = evicted_keys es ++ insertion_order p.

(** * Proofs *)

Lemma ICachePolicy_new_capacity cap :
  capacity (ICachePolicy_new cap) = Nat.max 1 cap.
Proof. unfold ICachePolicy_new; simpl. case_decide; lia. Qed.

Section fifo.

Import FIFOCache.

Lemma FIFO_inv_new cap : FIFO_inv (new cap).
Proof.
  split; simpl; try case_decide; try lia; [constructor | done].
Qed.

Lemma FIFO_size c : FIFO_inv c → size (cache_set c) = length (fifo_queue c).
Proof.
  intros [_ Hnd Hset _]. rewrite <- Hset. by apply size_list_to_set.
Qed.

Lemma FIFO_access_ok key c :
  FIFO_inv c →
  ∃ c' e, access key c = Some (c', e) ∧ FIFO_inv c' ∧
          step_ok key (base c) (cache_set c) (base c') (cache_set c') e.
Proof.
  intros Hinv. pose proof (FIFO_size c Hinv) as Hsize.
  destruct Hinv as [Hcap Hnd Hset Hlen]. unfold access.
  destruct (decide (key ∈ cache_set c)) as [Hin|Hnin].
  - eexists _, _. split; [done|]. split; [by split|].
    by repeat split.
  - simpl. destruct (decide (capacity (base c) ≤ length (fifo_queue c))%nat) as [Hfull|Hfree].
    + destruct (fifo_queue c) as [|old q] eqn:Hq; simpl in *; [lia|].
      apply NoDup_cons in Hnd as [Hold Hnd].
      assert (key ∉ q) by set_solver.
      eexists _, _. split; [done|]. split.
      * split; simpl; [done| | |rewrite length_app; simpl; lia].
        -- apply NoDup_app. repeat split; [done|set_solver|apply NoDup_singleton].
        -- rewrite list_to_set_app_L. simpl. rewrite <- Hset. set_solver.
      * repeat split; simpl; try done; try lia; set_solver.
    + eexists _, _. split; [done|]. split.
      * split; simpl; [done| | |rewrite length_app; simpl; lia].
        -- apply NoDup_app. repeat split; [done|set_solver|apply NoDup_singleton].
        -- rewrite list_to_set_app_L. simpl. set_solver.
      * repeat split; simpl; try done; try lia.
Qed.

End fifo.

(** ** Lists with iterators *)

Section std_list.

Implicit Types (l : std_list) (it : iterator) (k : string).

Lemma elem_of_nodes l it : it ∈ nodes l ↔ ∃ k, (it, k) ∈ l.
Proof.
  unfold nodes. rewrite list_elem_of_fmap. split.
  - intros [[i k] [-> H]]. by exists k.
  - intros [k H]. by exists (it, k).
Qed.

Lemma elem_of_keys l k : k ∈ keys l ↔ ∃ it, (it, k) ∈ l.
Proof.
  unfold keys. rewrite list_elem_of_fmap. split.
  - intros [[i k'] [-> H]]. by exists i.
  - intros [it H]. by exists (it, k).
Qed.

Lemma elem_of_unlink l it n : n ∈ unlink it l ↔ n ∈ l ∧ n.1 ≠ it.
Proof. unfold unlink. rewrite list_elem_of_filter. tauto. Qed.

Lemma unlink_fresh l it : it ∉ nodes l → unlink it l = l.
Proof.
  induction l as [|[i k] l IH]; [done|]. unfold unlink in *; simpl.
  rewrite not_elem_of_cons. intros [Hne Hnin].
  rewrite filter_cons_True by (simpl; congruence). by rewrite IH.
Qed.

Lemma unlink_Permutation l it k :
  NoDup (nodes l) → (it, k) ∈ l → (it, k) :: unlink it l ≡ₚ l.
Proof.
  induction l as [|[i k'] l IH]; simpl; intros Hnd Hin.
  - by apply elem_of_nil in Hin.
  - apply NoDup_cons in Hnd as [Hi Hnd]. unfold unlink in *.
    apply elem_of_cons in Hin as [Heq|Hin].
    + inversion Heq; subst i k'.
      rewrite filter_cons_False by (simpl; tauto).
      fold (unlink it l). by rewrite unlink_fresh.
    + assert (i ≠ it).
      { intros ->. apply Hi, elem_of_nodes. by exists k. }
      rewrite filter_cons_True by done.
      rewrite Permutation_swap. by rewrite IH.
Qed.

Lemma node_key_unique l it k k' :
  NoDup (nodes l) → (it, k) ∈ l → (it, k') ∈ l → k = k'.
Proof.
  intros Hnd H1 H2. unfold nodes in Hnd.
  induction l as [|[i k0] l IH]; [by apply elem_of_nil in H1|].
  simpl in Hnd. apply NoDup_cons in Hnd as [Hi Hnd].
  apply elem_of_cons in H1 as [E1|H1]; apply elem_of_cons in H2 as [E2|H2].
  - congruence.
  - inversion E1; subst. destruct Hi. apply list_elem_of_fmap. by exists (i, k').
  - inversion E2; subst. destruct Hi. apply list_elem_of_fmap. by exists (i, k).
  - by apply IH.
Qed.

Lemma node_it_unique l it it' k :
  NoDup (keys l) → (it, k) ∈ l → (it', k) ∈ l → it = it'.
Proof.
  intros Hnd H1 H2. unfold keys in Hnd.
  induction l as [|[i k0] l IH]; [by apply elem_of_nil in H1|].
  simpl in Hnd. apply NoDup_cons in Hnd as [Hk Hnd].
  apply elem_of_cons in H1 as [E1|H1]; apply elem_of_cons in H2 as [E2|H2].
  - congruence.
  - inversion E1; subst. destruct Hk. apply list_elem_of_fmap. by exists (it', k0).
  - inversion E2; subst. destruct Hk. apply list_elem_of_fmap. by exists (it, k0).
  - by apply IH.
Qed.

Lemma splice_front_Some l it k :
  NoDup (nodes l) → (it, k) ∈ l →
  splice_front it l = Some ((it, k) :: unlink it l).
Proof.
  intros Hnd Hin. unfold splice_front.
  destruct (list_find_elem_of (λ n : iterator * string, n.1 = it) l (it, k))
    as [[i [it' k']] Hfind]; [done..|].
  rewrite Hfind. simpl.
  apply list_find_Some in Hfind as (Hl & Hit & _). simpl in Hit. subst it'.
  apply list_elem_of_lookup_2 in Hl.
  by rewrite (node_key_unique l it k k').
Qed.

Lemma erase_Some l it k :
  (it, k) ∈ l → erase it l = Some (unlink it l).
Proof.
  intros Hin. unfold erase. rewrite decide_True; [done|].
  apply elem_of_nodes. by exists k.
Qed.

Lemma back_snoc l it k : back (l ++ [(it, k)]) = Some k.
Proof. unfold back. by rewrite last_snoc. Qed.

Lemma pop_back_snoc l n : pop_back (l ++ [n]) = l.
Proof. unfold pop_back. apply removelast_last. Qed.

Lemma nonempty_snoc l : l ≠ [] → ∃ l' it k, l = l' ++ [(it, k)].
Proof.
  induction l as [|[it k] l0 _] using rev_ind; [done|]. intros _.
  by exists l0, it, k.
Qed.

End std_list.

(** ** LRU: one access keeps the invariant *)

Section lru.

Import LRUCache.

Lemma LRU_inv_new cap : LRU_inv (new cap).
Proof.
  split; simpl; try case_decide; try lia; try apply NoDup_nil_2.
  - intros k it. rewrite lookup_empty. split; [done|]. by intros ?%elem_of_nil.
  - by intros it ?%elem_of_nil.
Qed.

Lemma LRU_dom c :
  LRU_inv c → dom (cache_map c) = list_to_set (keys (lru_list c)).
Proof.
  intros H. apply set_eq. intros k.
  rewrite elem_of_dom, elem_of_list_to_set, elem_of_keys. unfold is_Some.
  split; intros [it Hit]; exists it; by apply (lru_map c H).
Qed.

Lemma LRU_size c : LRU_inv c → size (dom (cache_map c)) = length (lru_list c).
Proof.
  intros H. rewrite LRU_dom by done.
  rewrite size_list_to_set by apply H. unfold keys. by rewrite length_fmap.
Qed.

Lemma LRU_access_ok key c :
  LRU_inv c →
  ∃ c' e, access key c = Some (c', e) ∧ LRU_inv c' ∧
          step_ok key (base c) (dom (cache_map c))
                  (base c') (dom (cache_map c')) e.
Proof.
  intros Hinv. pose proof (LRU_size c Hinv) as Hsize.
  pose proof (LRU_dom c Hinv) as Hdom.
  destruct Hinv as [Hcap Hnodes Hkeys Hmap Hfresh Hlen]. unfold access.
  destruct (cache_map c !! key) as [it|] eqn:Hk.
  - (* hit *)
    assert ((it, key) ∈ lru_list c) as Hin by by apply Hmap.
    rewrite (splice_front_Some _ _ key) by done. simpl.
    pose proof (unlink_Permutation _ _ _ Hnodes Hin) as HP.
    rewrite insert_id by done.
    eexists _, _. split; [done|]. split.
    + split; simpl; [done| | | | |].
      * change (NoDup (nodes ((it, key) :: unlink it (lru_list c)))).
        unfold nodes in *. by rewrite HP.
      * change (NoDup (keys ((it, key) :: unlink it (lru_list c)))).
        unfold keys in *. by rewrite HP.
      * intros k i. by rewrite HP.
      * intros i. change (i ∈ nodes ((it, key) :: unlink it (lru_list c)) → (i < heap c)%nat).
        unfold nodes in *. rewrite HP. apply Hfresh.
      * change (length ((it, key) :: unlink it (lru_list c)) ≤ capacity (base c))%nat.
        by rewrite HP.
    + repeat split; simpl; try done. by apply elem_of_dom.
  - (* miss *)
    simpl.
    assert (key ∉ keys (lru_list c)) as Hnew.
    { rewrite elem_of_keys. intros [it Hit]. apply Hmap in Hit. congruence. }
    destruct (decide (capacity (base c) ≤ length (lru_list c))%nat) as [Hfull|Hfree].
    + destruct (nonempty_snoc (lru_list c)) as (l0 & itv & v & Hl).
      { intros E. rewrite E in Hfull. simpl in Hfull. lia. }
      rewrite Hl in *. rewrite back_snoc, pop_back_snoc. simpl.
      unfold nodes, keys in *.
      rewrite fmap_app in Hnodes. rewrite fmap_app in Hkeys.
      rewrite fmap_app in Hnew. rewrite fmap_app in Hfresh.
      simpl in *.
      apply NoDup_app in Hnodes as (Hnodes & Hitv & _).
      apply NoDup_app in Hkeys as (Hkeys & Hv & _).
      rewrite length_app in *. simpl in *.
      assert (v ∉ l0.*2) as Hv' by set_solver.
      assert (key ≠ v) as Hne by set_solver.
      assert (key ∉ l0.*2) as Hnew' by set_solver.
      unfold push_front. eexists _, _. split; [done|]. split.
      * split; simpl; [done| | | | |lia].
        -- apply NoDup_cons. split; [|done]. intros Hh.
           specialize (Hfresh (heap c)).
           assert (heap c < heap c)%nat; [apply Hfresh; set_solver|lia].
        -- by apply NoDup_cons.
        -- intros k i. rewrite elem_of_cons.
           destruct (decide (k = key)) as [->|Hk1].
           ++ rewrite lookup_insert_eq. split.
              ** intros [= <-]. by left.
              ** intros [[= ->]|Hi]; [done|].
                 destruct Hnew'. apply list_elem_of_fmap. by exists (i, key).
           ++ rewrite lookup_insert_ne by done.
              destruct (decide (k = v)) as [->|Hk2].
              ** rewrite lookup_delete_eq. split; [done|].
                 intros [[= _ ?]|Hi]; [done|].
                 destruct Hv'. apply list_elem_of_fmap. by exists (i, v).
              ** rewrite lookup_delete_ne by done. rewrite Hmap.
                 rewrite elem_of_app, list_elem_of_singleton.
                 split; [intros [?|[= _ ?]]|intros [[= _ ?]|?]]; auto; done.
        -- intros i. rewrite elem_of_cons. intros [->|Hi]; [lia|].
           specialize (Hfresh i).
           assert (i < heap c)%nat; [apply Hfresh; set_solver|lia].
      * repeat split; simpl; try done.
        -- by apply not_elem_of_dom.
        -- apply elem_of_dom. exists itv. apply Hmap. set_solver.
        -- rewrite Hsize. lia.
        -- by rewrite dom_insert_L, dom_delete_L.
    + unfold push_front. eexists _, _. split; [done|]. split.
      * split; simpl; [done| | | | |lia].
        -- apply NoDup_cons. split; [|done]. intros Hh.
           specialize (Hfresh _ Hh). lia.
        -- by apply NoDup_cons.
        -- intros k i. rewrite elem_of_cons.
           destruct (decide (k = key)) as [->|Hk1].
           ++ rewrite lookup_insert_eq. split.
              ** intros [= <-]. by left.
              ** intros [[= ->]|Hi]; [done|].
                 destruct Hnew. apply elem_of_keys. by exists i.
           ++ rewrite lookup_insert_ne by done. rewrite Hmap.
              split; [by right|]. intros [[= _ ?]|?]; done.
        -- intros i. rewrite elem_of_cons. intros [->|Hi]; [lia|].
           specialize (Hfresh _ Hi). lia.
      * repeat split; simpl; try done.
        -- by apply not_elem_of_dom.
        -- rewrite Hsize. lia.
        -- by rewrite dom_insert_L.
Qed.

End lru.

(** ** LFU: the frequency lists *)

Section lfu_links.

Import LFUCache.

Implicit Types (cm : gmap string (Z * iterator)) (fm : gmap Z std_list).
Implicit Types (l : std_list) (it hp : iterator) (k key : string) (f g : Z).

Lemma bucket_insert fm f g l :
  bucket (<[f := l]> fm) g = if decide (f = g) then l else bucket fm g.
Proof.
  unfold bucket. case_decide as Hfg.
  - subst g. by rewrite lookup_insert_eq.
  - by rewrite lookup_insert_ne.
Qed.

Lemma begin_bucket_push fm f hp key l :
  begin (bucket (<[f := push_front hp key l]> fm) f) = Some hp.
Proof. by rewrite bucket_insert, decide_True. Qed.

Lemma bucket_empty g : bucket ∅ g = [].
Proof. unfold bucket. by rewrite lookup_empty. Qed.

Lemma NoDup_nodes_unlink l it : NoDup (nodes l) → NoDup (nodes (unlink it l)).
Proof.
  unfold nodes, unlink. induction l as [|[i k] l IH]; [done|]. simpl.
  rewrite NoDup_cons. intros [Hi Hnd].
  destruct (decide (i ≠ it)).
  - rewrite filter_cons_True by done. simpl. apply NoDup_cons. split; [|auto].
    rewrite list_elem_of_fmap. intros [[i' k'] [-> Hin]].
    apply list_elem_of_filter in Hin as [_ Hin].
    apply Hi, list_elem_of_fmap. by exists (i', k').
  - rewrite filter_cons_False by done. auto.
Qed.

Lemma StronglySorted_keys_unlink (R : relation string) l it :
  StronglySorted R (keys l) → StronglySorted R (keys (unlink it l)).
Proof.
  unfold keys, unlink. induction l as [|[i k] l IH]; [done|]. simpl.
  rewrite StronglySorted_cons. intros [Hk Hs].
  destruct (decide (i ≠ it)).
  - rewrite filter_cons_True by done. simpl. apply StronglySorted_cons.
    split; [|auto]. apply Forall_forall. intros k' Hk'.
    rewrite Forall_forall in Hk. apply Hk.
    apply list_elem_of_fmap in Hk' as [[i' k''] [-> Hin]].
    apply list_elem_of_filter in Hin as [_ Hin].
    apply list_elem_of_fmap. by exists (i', k'').
  - rewrite filter_cons_False by done. auto.
Qed.

Lemma unlink_snoc l it k : NoDup (nodes (l ++ [(it, k)])) → unlink it (l ++ [(it, k)]) = l.
Proof.
  unfold nodes. rewrite fmap_app. intros (_ & Hit & _)%NoDup_app.
  unfold unlink. rewrite filter_app.
  rewrite filter_cons_False by (simpl; tauto). rewrite filter_nil, app_nil_r.
  apply unlink_fresh. intros Hin. apply (Hit it Hin). set_solver.
Qed.

Lemma LFU_links_empty : LFU_links ∅ ∅ 0%nat.
Proof.
  split; intros *; rewrite ?bucket_empty, ?lookup_empty; try done.
  - apply NoDup_nil_2.
  - split; [done|]. by intros ?%elem_of_nil.
  - by intros ?%elem_of_nil.
Qed.

(** Unlinking the node of a resident key. *)
Lemma LFU_links_remove cm fm hp k f it :
  LFU_links cm fm hp → cm !! k = Some (f, it) →
  LFU_links (delete k cm) (<[f := unlink it (bucket fm f)]> fm) hp.
Proof.
  intros [Hnd Hmap Hfresh Hpos] Hk.
  assert ((it, k) ∈ bucket fm f) as Hin by by apply Hmap.
  split.
  - intros g. rewrite bucket_insert. case_decide; [subst g|done].
    by apply NoDup_nodes_unlink.
  - intros k' g i. rewrite bucket_insert.
    destruct (decide (k' = k)) as [->|Hne].
    + rewrite lookup_delete_eq. split; [done|]. intros Hi.
      assert ((i, k) ∈ bucket fm g ∧ i ≠ it) as [Hi' Hit].
      { case_decide; [subst g; by apply elem_of_unlink in Hi|].
        split; [done|]. intros ->. apply Hmap in Hi. congruence. }
      apply Hmap in Hi'. congruence.
    + rewrite lookup_delete_ne by done. rewrite Hmap.
      case_decide; [subst g|done]. rewrite elem_of_unlink. simpl.
      split; [|tauto]. intros Hi. split; [done|]. intros ->.
      by apply Hne, (node_key_unique (bucket fm f) it).
  - intros g i. rewrite bucket_insert. case_decide; [subst g|by apply Hfresh].
    rewrite elem_of_nodes. intros [k' [Hi _]%elem_of_unlink].
    apply (Hfresh f), elem_of_nodes. by exists k'.
  - intros k' g i [_ Hi]%lookup_delete_Some. eauto.
Qed.

(** Linking a fresh node for a key that is not resident. *)
Lemma LFU_links_insert cm fm hp key f :
  LFU_links cm fm hp → cm !! key = None → 1 ≤ f →
  LFU_links (<[key := (f, hp)]> cm)
            (<[f := push_front hp key (bucket fm f)]> fm) (S hp).
Proof.
  intros [Hnd Hmap Hfresh Hpos] Hk Hf. unfold push_front.
  split.
  - intros g. rewrite bucket_insert. case_decide; [subst g|done].
    unfold nodes. simpl. apply NoDup_cons. split; [|apply Hnd].
    intros Hin. apply Hfresh in Hin. lia.
  - intros k g i. rewrite bucket_insert.
    destruct (decide (k = key)) as [->|Hne].
    + rewrite lookup_insert_eq. split.
      * intros [= <- <-]. rewrite decide_True by done. by left.
      * intros Hi.
        assert ((i, key) = (hp, key) ∧ f = g ∨ (i, key) ∈ bucket fm g) as [[[= ->] ->]|Hi'].
        { case_decide; [subst g; apply elem_of_cons in Hi|]; tauto. }
        -- done.
        -- apply Hmap in Hi'. congruence.
    + rewrite lookup_insert_ne by done. rewrite Hmap.
      case_decide; [subst g|done]. rewrite elem_of_cons.
      split; [by right|]. intros [[= _ ?]|?]; done.
  - intros g i. rewrite bucket_insert.
    assert (i ∈ nodes (bucket fm g) → (i < S hp)%nat) as Hold.
    { intros Hi%Hfresh. lia. }
    case_decide; [subst g|done].
    unfold nodes. simpl. rewrite elem_of_cons. intros [->|Hi]; [lia|auto].
  - intros k g i. destruct (decide (k = key)) as [->|Hne].
    + rewrite lookup_insert_eq. by intros [= <- _].
    + rewrite lookup_insert_ne by done. apply Hpos.
Qed.

Lemma LFU_links_keys cm fm hp f :
  LFU_links cm fm hp → NoDup (keys (bucket fm f)).
Proof.
  intros [Hnd Hmap _ _].
  assert (∀ i i' k, (i, k) ∈ bucket fm f → (i', k) ∈ bucket fm f → i = i') as Huniq.
  { intros i i' k H1%Hmap H2%Hmap. congruence. }
  specialize (Hnd f). revert Hnd Huniq. generalize (bucket fm f). intros l.
  unfold nodes, keys. induction l as [|[i k] l IH]; simpl; [constructor|].
  rewrite !NoDup_cons. intros [Hi Hnd] Huniq. split.
  - rewrite list_elem_of_fmap. intros [[i' k'] [-> Hin]]. simpl in *.
    apply Hi. rewrite (Huniq i i' k'); [|by left|by right].
    apply list_elem_of_fmap. by exists (i', k').
  - apply IH; [done|]. intros i1 i2 k' H1 H2.
    apply (Huniq i1 i2 k'); by right.
Qed.

Lemma LFU_links_dom cm fm hp k :
  LFU_links cm fm hp → k ∈ dom cm ↔ ∃ f, k ∈ keys (bucket fm f).
Proof.
  intros [_ Hmap _ _]. rewrite elem_of_dom. unfold is_Some. split.
  - intros [[f it] Hk]. exists f. apply elem_of_keys. exists it. by apply Hmap.
  - intros [f [it Hin]%elem_of_keys]. exists (f, it). by apply Hmap.
Qed.

End lfu_links.

(** ** LFU: one access keeps the invariant *)

Section lfu.

Import LFUCache.

Lemma LFU_inv_new cap : LFU_inv (new cap).
Proof.
  split; simpl; rewrite ?map_size_empty; try (case_decide; lia); try done.
  apply LFU_links_empty.
Qed.

Lemma update_frequency_Some key f it c :
  (it, key) ∈ bucket (freq_map c) f →
  update_frequency key (f, it) c =
    let fm1 := <[f := unlink it (bucket (freq_map c) f)]> (freq_map c) in
    Some (Make (base c)
               (<[key := (f + 1, heap c)]> (cache_map c))
               (<[f + 1 := push_front (heap c) key (bucket fm1 (f + 1))]> fm1)
               (if decide (unlink it (bucket (freq_map c) f) = [] ∧ f = min_frequency c)
                then f + 1 else min_frequency c)
               (S (heap c))).
Proof.
  intros Hin. unfold update_frequency. simpl.
  rewrite (erase_Some _ _ key) by done. simpl.
  set (l_old := unlink it (bucket (freq_map c) f)).
  set (fm1 := <[f := l_old]> (freq_map c)).
  set (l_new := push_front (heap c) key (bucket fm1 (f + 1))).
  assert (bucket (<[f + 1 := l_new]> fm1) (f + 1) = l_new) as ->
    by by rewrite bucket_insert, decide_True.
  assert (bucket (<[f + 1 := l_new]> fm1) f = l_old) as ->.
  { rewrite bucket_insert, decide_False by lia.
    unfold fm1. by rewrite bucket_insert, decide_True. }
  done.
Qed.

(** The key named on the "Evicting" line is the last one of the list of
    [min_frequency]. *)
Lemma LFU_access_evicted key c c' e v :
  access key c = Some (c', e) → ev_evicted e = Some v →
  back (bucket (freq_map c) (min_frequency c)) = Some v ∧
  (capacity (base c) ≤ size (cache_map c))%nat ∧
  cache_map c !! key = None.
Proof.
  unfold access. intros Hacc Hev.
  destruct (cache_map c !! key) as [entry|]; simpl in Hacc.
  - destruct (update_frequency _ _ _); simplify_eq/=.
  - case_decide; simpl in Hacc.
    + destruct (back _) as [v'|]; simpl in Hacc; [|done].
      destruct (begin _); simplify_eq/=. done.
    + destruct (begin _); simplify_eq/=.
Qed.

Lemma LFU_access_ok key c :
  LFU_inv c →
  ∃ c' e, access key c = Some (c', e) ∧ LFU_inv c' ∧
          step_ok key (base c) (dom (cache_map c))
                  (base c') (dom (cache_map c')) e.
Proof.
  intros [Hcap Hlinks Hmin Hlower Hlen].
  pose proof (lfu_map _ _ _ Hlinks) as Hmap.
  unfold access. destruct (cache_map c !! key) as [[f it]|] eqn:Hk.
  - (* hit *)
    assert ((it, key) ∈ bucket (freq_map c) f) as Hin by by apply Hmap.
    rewrite update_frequency_Some by done. cbn [mbind option_bind heap base freq_map cache_map min_frequency].
    set (l_old := unlink it (bucket (freq_map c) f)).
    set (fm1 := <[f := l_old]> (freq_map c)).
    pose proof (LFU_links_remove _ _ _ _ _ _ Hlinks Hk) as Hrem.
    pose proof (LFU_links_insert _ _ _ key (f + 1) Hrem) as Hins.
    rewrite insert_delete_eq in Hins.
    specialize (Hins (lookup_delete_eq _ _)).
    assert (1 ≤ f) as Hf by apply (lfu_pos _ _ _ Hlinks _ _ _ Hk).
    specialize (Hins ltac:(lia)).
    eexists _, _. split; [done|]. split.
    + split; simpl; [done|done| | |].
      * intros _. fold fm1. unfold push_front.
        destruct (decide (l_old = [] ∧ f = min_frequency c)) as [_|Hd];
          rewrite bucket_insert; [by rewrite decide_True|].
        case_decide; [done|]. unfold fm1. rewrite bucket_insert.
        case_decide as Hf'.
        -- intros Hnil. apply Hd. by rewrite <- Hf'.
        -- apply Hmin. intros E. by rewrite E, lookup_empty in Hk.
      * intros k g i. destruct (decide (k = key)) as [->|Hne].
        -- rewrite lookup_insert_eq. intros [= <- _].
           specialize (Hlower _ _ _ Hk). case_decide; lia.
        -- rewrite lookup_insert_ne by done. intros Hk'.
           specialize (Hlower _ _ _ Hk'). case_decide as Hd; [|done].
           destruct Hd as [Hnil Hfm]. destruct (decide (g = f)) as [->|]; [|lia].
           assert ((i, k) ∈ l_old) as Hi; [|by rewrite Hnil in Hi; apply elem_of_nil in Hi].
           apply elem_of_unlink. split; [by apply Hmap|]. simpl. intros ->.
           apply Hne. apply (node_key_unique (bucket (freq_map c) f) it); [|by apply Hmap|done].
           apply (lfu_nodes _ _ _ Hlinks).
      * rewrite map_size_insert_Some; [done|by eexists].
    + repeat split; simpl; try done.
      * apply elem_of_dom. by eexists.
      * rewrite dom_insert_L. apply elem_of_dom_2 in Hk. set_solver.
  - (* miss *)
    simpl.
    destruct (decide (capacity (base c) ≤ size (cache_map c))%nat) as [Hfull|Hfree].
    + assert (cache_map c ≠ ∅) as Hne.
      { apply map_size_non_empty_iff. lia. }
      destruct (nonempty_snoc _ (Hmin Hne)) as (l0 & itv & v & Hl).
      rewrite Hl, back_snoc, pop_back_snoc. simpl.
      assert (cache_map c !! v = Some (min_frequency c, itv)) as Hv.
      { apply Hmap. rewrite Hl. set_solver. }
      pose proof (LFU_links_remove _ _ _ _ _ _ Hlinks Hv) as Hrem.
      rewrite Hl, unlink_snoc in Hrem
        by (rewrite <- Hl; apply (lfu_nodes _ _ _ Hlinks)).
      assert (key ≠ v) as Hkv by congruence.
      pose proof (LFU_links_insert _ _ _ key 1 Hrem) as Hins.
      rewrite lookup_delete_ne in Hins by done.
      specialize (Hins Hk ltac:(lia)).
      rewrite begin_bucket_push. simpl.
      eexists _, _. split; [done|]. split.
      * split; simpl; [done|done| | |].
        -- intros _. by rewrite bucket_insert, decide_True.
        -- intros k g i. apply (lfu_pos _ _ _ Hins).
        -- rewrite map_size_insert_None by (by rewrite lookup_delete_ne).
           rewrite map_size_delete_Some by done. lia.
      * repeat split; simpl; try done.
        -- by apply not_elem_of_dom.
        -- apply elem_of_dom. by eexists.
        -- rewrite size_dom. lia.
        -- by rewrite dom_insert_L, dom_delete_L.
    + pose proof (LFU_links_insert _ _ _ key 1 Hlinks Hk ltac:(lia)) as Hins.
      simpl. rewrite begin_bucket_push. simpl.
      eexists _, _. split; [done|]. split.
      * split; simpl; [done|done| | |].
        -- intros _. by rewrite bucket_insert, decide_True.
        -- intros k g i. apply (lfu_pos _ _ _ Hins).
        -- rewrite map_size_insert_None by done. lia.
      * repeat split; simpl; try done.
        -- by apply not_elem_of_dom.
        -- rewrite size_dom. lia.
        -- by rewrite dom_insert_L.
Qed.

End lfu.

(** ** LFU: [print_cache_state] terminates *)

Section lfu_print.

Import LFUCache.

Implicit Types (c : t) (f : Z) (k : string).

Lemma elem_of_below c f k :
  k ∈ below c f ↔ ∃ g it, cache_map c !! k = Some (g, it) ∧ g < f.
Proof.
  unfold below. rewrite elem_of_dom. unfold is_Some. split.
  - intros [[g it] [Hk Hlt]%map_lookup_filter_Some]. by exists g, it.
  - intros (g & it & Hk & Hlt). exists (g, it). by apply map_lookup_filter_Some.
Qed.

Lemma below_subseteq c f : below c f ⊆ dom (cache_map c).
Proof.
  intros k (g & it & Hk & _)%elem_of_below. by apply elem_of_dom_2 in Hk.
Qed.

Lemma below_succ c f :
  LFU_inv c →
  below c (f + 1) = below c f ∪ list_to_set (keys (bucket (freq_map c) f)) ∧
  below c f ## list_to_set (keys (bucket (freq_map c) f)).
Proof.
  intros Hinv. pose proof (lfu_map _ _ _ (lfu_links _ Hinv)) as Hmap. split.
  - apply set_eq. intros k.
    rewrite elem_of_union, !elem_of_below, elem_of_list_to_set, elem_of_keys.
    split.
    + intros (g & it & Hk & Hlt). destruct (decide (g = f)) as [->|].
      * right. exists it. by apply Hmap.
      * left. exists g, it. split; [done|lia].
    + intros [(g & it & Hk & Hlt)|[it Hin%Hmap]].
      * exists g, it. split; [done|lia].
      * exists f, it. split; [done|lia].
  - intros k (g & it & Hk & Hlt)%elem_of_below
             [it' Hin%Hmap]%elem_of_list_to_set%elem_of_keys.
    rewrite Hk in Hin. injection Hin as -> _. lia.
Qed.

Lemma size_below_succ c f :
  LFU_inv c →
  size (below c (f + 1)) = (size (below c f) + length (bucket (freq_map c) f))%nat.
Proof.
  intros Hinv. destruct (below_succ c f Hinv) as [-> Hdisj].
  rewrite size_union by done. f_equal.
  rewrite size_list_to_set by (eapply LFU_links_keys, lfu_links, Hinv).
  unfold keys. by rewrite length_fmap.
Qed.

Lemma below_min c : LFU_inv c → below c (min_frequency c) = ∅.
Proof.
  intros Hinv. apply set_eq. intros k. rewrite elem_of_below.
  split; [|by intros ?%elem_of_empty].
  intros (g & it & Hk & Hlt). apply (lfu_lower _ Hinv) in Hk. lia.
Qed.

Lemma freq_upper_bound (cm : gmap string (Z * iterator)) :
  ∃ F, ∀ k f it, cm !! k = Some (f, it) → f ≤ F.
Proof.
  induction cm as [|k [f it] cm Hk IH] using map_ind.
  - exists 0. intros k f it. by rewrite lookup_empty.
  - destruct IH as [F HF]. exists (Z.max F f). intros k' f' it'.
    destruct (decide (k = k')) as [->|Hne].
    + rewrite lookup_insert_eq. intros [= -> _]. lia.
    + rewrite lookup_insert_ne by done. intros H%HF. lia.
Qed.

(** From any frequency on, given fuel for the frequencies up to the
    largest one in use, the loop ends; it prints the remaining resident
    keys, list by list, in increasing order of frequency. *)
Lemma print_loop_ok c F :
  LFU_inv c →
  (∀ k f it, cache_map c !! k = Some (f, it) → f ≤ F) →
  ∀ fuel current,
    F + 1 - current ≤ Z.of_nat fuel →
    ∃ groups,
      print_loop fuel c current (size (below c current)) = Some groups ∧
      below c current ∪ list_to_set (concat groups.*2) = dom (cache_map c) ∧
      Forall (λ g, current ≤ g.1 ∧ g.2 = keys (bucket (freq_map c) g.1) ∧ g.2 ≠ [])
             groups ∧
      StronglySorted Z.lt groups.*1.
Proof.
  intros Hinv HF. induction fuel as [|fuel IH]; intros current Hfuel.
  - (* every frequency is below [current] *)
    assert (below c current = dom (cache_map c)) as Hall.
    { apply set_eq. intros k. split; [apply below_subseteq|].
      intros [[f it] Hk]%elem_of_dom. apply elem_of_below.
      exists f, it. split; [done|]. apply HF in Hk. lia. }
    exists []. simpl. rewrite Hall, size_dom, decide_False by lia.
    split; [done|]. split; [set_solver|]. split; constructor.
  - simpl. case_decide as Hlt.
    + destruct (IH (current + 1) ltac:(lia)) as (rest & Hrest & Hdom & Hall & Hsort).
      pose proof (size_below_succ c current Hinv) as Hsize.
      destruct (below_succ c current Hinv) as [Hsucc _].
      assert (Forall (λ g : Z * list string,
                current ≤ g.1 ∧ g.2 = keys (bucket (freq_map c) g.1) ∧ g.2 ≠ []) rest)
        as Hall'.
      { eapply Forall_impl; [exact Hall|]. simpl. intros g (? & ? & ?).
        repeat split; [lia|done..]. }
      unfold bucket in Hsize, Hsucc.
      destruct (freq_map c !! current) as [[|n l]|] eqn:Hcur; simpl in Hsize, Hsucc.
      * rewrite Nat.add_0_r in Hsize. rewrite <- Hsize, Hrest.
        exists rest. split; [done|]. split; [|done].
        rewrite <- Hdom, Hsucc. set_solver.
      * rewrite <- Hsize, Hrest. simpl.
        exists ((current, keys (n :: l)) :: rest). split; [done|]. split; [|split].
        -- rewrite <- Hdom, Hsucc. simpl. set_solver.
        -- constructor; [|done]. simpl. unfold bucket. rewrite Hcur.
           split; [lia|]. done.
        -- simpl. constructor; [done|].
           apply Forall_fmap. eapply Forall_impl; [exact Hall|].
           simpl. intros g (? & _). lia.
      * rewrite Nat.add_0_r in Hsize. rewrite <- Hsize, Hrest.
        exists rest. split; [done|]. split; [|done].
        rewrite <- Hdom, Hsucc. set_solver.
    + exists []. split; [done|]. split; [|split; constructor].
      simpl. rewrite union_empty_r_L.
      apply set_subseteq_size_eq; [apply below_subseteq|].
      rewrite size_dom. lia.
Qed.

Lemma print_cache_state_ok c :
  LFU_inv c →
  ∃ fuel groups,
    print_cache_state fuel c = Some groups ∧
    list_to_set (concat groups.*2) = dom (cache_map c) ∧
    Forall (λ g, g.2 = keys (bucket (freq_map c) g.1) ∧ g.2 ≠ []) groups ∧
    StronglySorted Z.lt groups.*1.
Proof.
  intros Hinv. unfold print_cache_state.
  destruct (decide (cache_map c = ∅)) as [Hempty|Hne].
  - exists 0%nat, []. rewrite Hempty, dom_empty_L.
    split; [done|]. split; [done|]. split; constructor.
  - destruct (freq_upper_bound (cache_map c)) as [F HF].
    destruct (print_loop_ok c F Hinv HF (Z.to_nat (F + 1 - min_frequency c))
                (min_frequency c) ltac:(lia))
      as (groups & Hloop & Hdom & Hall & Hsort).
    rewrite below_min, size_empty in Hloop by done.
    rewrite below_min, union_empty_l_L in Hdom by done.
    eexists _, groups. split; [done|]. split; [done|]. split; [|done].
    eapply Forall_impl; [exact Hall|]. simpl. tauto.
Qed.

End lfu_print.

(** ** Any policy: replaying a sequence *)

Section replay.

Implicit Types (p : policy) (ks : list string) (es : list event).

Lemma access_ok key p :
  policy_inv p →
  ∃ p' e, access key p = Some (p', e) ∧ policy_inv p' ∧
          step_ok key (policy_base p) (resident p)
                  (policy_base p') (resident p') e.
Proof.
  destruct p as [c|c|c]; simpl; intros Hinv.
  - destruct (LRU_access_ok key c Hinv) as (c' & e & -> & ? & ?).
    by exists (LRU c'), e.
  - destruct (FIFO_access_ok key c Hinv) as (c' & e & -> & ? & ?).
    by exists (FIFO c'), e.
  - destruct (LFU_access_ok key c Hinv) as (c' & e & -> & ? & ?).
    by exists (LFU c'), e.
Qed.

Lemma new_inv cap ks policy_type :
  policy_inv (cache (CacheSimulator_new cap ks policy_type)).
Proof.
  unfold CacheSimulator_new; simpl.
  repeat case_decide; simpl;
    auto using LRU_inv_new, FIFO_inv_new, LFU_inv_new.
Qed.

Lemma new_capacity cap ks policy_type :
  capacity (policy_base (cache (CacheSimulator_new cap ks policy_type)))
  = Nat.max 1 cap.
Proof.
  unfold CacheSimulator_new; simpl.
  repeat case_decide; simpl; apply ICachePolicy_new_capacity.
Qed.

Lemma replay_app p ks1 ks2 :
  replay p (ks1 ++ ks2) =
    '(p1, es1) ← replay p ks1;
    '(p2, es2) ← replay p1 ks2;
    Some (p2, es1 ++ es2).
Proof.
  revert p. induction ks1 as [|k ks1 IH]; intros p; simpl.
  - by destruct (replay p ks2) as [[p2 es2]|].
  - destruct (access k p) as [[p' e]|]; simpl; [|done].
    rewrite IH. destruct (replay p' ks1) as [[p1 es1]|]; simpl; [|done].
    by destruct (replay p1 ks2) as [[p2 es2]|].
Qed.

Lemma access_kind key p p' e : access key p = Some (p', e) → same_kind p p'.
Proof.
  destruct p as [c|c|c]; simpl.
  - destruct (LRUCache.access key c) as [[c' e']|]; simpl; [|done]. by intros [= <- _].
  - destruct (FIFOCache.access key c) as [[c' e']|]; simpl; [|done]. by intros [= <- _].
  - destruct (LFUCache.access key c) as [[c' e']|]; simpl; [|done]. by intros [= <- _].
Qed.

Lemma replay_kind p ks p' es : replay p ks = Some (p', es) → same_kind p p'.
Proof.
  revert p es. induction ks as [|k ks IH]; intros p es; simpl.
  - intros [= <- _]. by destruct p.
  - destruct (access k p) as [[p1 e]|] eqn:Hacc; simpl; [|done].
    destruct (replay p1 ks) as [[p2 es']|] eqn:Hr; simpl; [|done].
    intros [= <- _]. apply access_kind in Hacc. apply IH in Hr.
    by destruct p, p1, p2.
Qed.

Lemma replay_length p ks p' es :
  replay p ks = Some (p', es) → length es = length ks.
Proof.
  revert p es. induction ks as [|k ks IH]; intros p es; simpl.
  - by intros [= _ <-].
  - destruct (access k p) as [[p1 e]|]; simpl; [|done].
    destruct (replay p1 ks) as [[p2 es']|] eqn:Hr; simpl; [|done].
    intros [= <- <-]. simpl. f_equal. eauto.
Qed.

(** Replaying never runs into undefined behaviour, keeps the invariant
    and the capacity, and counts every access once. *)
Lemma replay_ok p ks :
  policy_inv p →
  ∃ p' es, replay p ks = Some (p', es) ∧ policy_inv p' ∧
           capacity (policy_base p') = capacity (policy_base p) ∧
           hits (policy_base p') = hits (policy_base p) + count_outcome HIT es ∧
           misses (policy_base p') = misses (policy_base p) + count_outcome MISS es.
Proof.
  revert p. induction ks as [|k ks IH]; intros p Hinv; simpl.
  - exists p, []. unfold count_outcome. simpl. repeat split; try done; lia.
  - destruct (access_ok k p Hinv) as (p1 & e & -> & Hinv1 & Hcap & Hstep). simpl.
    destruct (IH p1 Hinv1) as (p2 & es & -> & Hinv2 & Hcap2 & Hh & Hm). simpl.
    exists p2, (e :: es). split; [done|]. split; [done|].
    split; [congruence|]. rewrite Hh, Hm. unfold count_outcome.
    destruct (ev_outcome e) eqn:He.
    + destruct Hstep as (_ & _ & -> & -> & _).
      rewrite filter_cons_True by done.
      rewrite (filter_cons_False (λ e, ev_outcome e = MISS)) by congruence.
      simpl length. lia.
    + destruct Hstep as (_ & -> & -> & _).
      rewrite filter_cons_False by congruence.
      rewrite (filter_cons_True (λ e, ev_outcome e = MISS)) by done.
      simpl length. lia.
Qed.

Lemma run_ok cap ks policy_type :
  ∃ p es, run (CacheSimulator_new cap ks policy_type) = Some (p, es) ∧
          policy_inv p ∧ capacity (policy_base p) = Nat.max 1 cap.
Proof.
  destruct (replay_ok (cache (CacheSimulator_new cap ks policy_type)) ks)
    as (p & es & Hr & Hinv & Hcap & _); [apply new_inv|].
  exists p, es. split; [done|]. split; [done|].
  rewrite Hcap. apply new_capacity.
Qed.

Lemma count_outcome_total es :
  count_outcome HIT es + count_outcome MISS es = Z.of_nat (length es).
Proof.
  unfold count_outcome. rewrite <- Nat2Z.inj_add. f_equal.
  induction es as [|e es IH]; [done|].
  destruct (ev_outcome e) eqn:He.
  - rewrite filter_cons_True by done.
    rewrite (filter_cons_False (λ e, ev_outcome e = MISS)) by congruence.
    simpl. lia.
  - rewrite filter_cons_False by congruence.
    rewrite (filter_cons_True (λ e, ev_outcome e = MISS)) by done.
    simpl. lia.
Qed.

Lemma policy_size_le p :
  policy_inv p → (size (resident p) ≤ capacity (policy_base p))%nat.
Proof.
  destruct p as [c|c|c]; simpl; intros Hinv.
  - rewrite LRU_size by done. apply Hinv.
  - rewrite FIFO_size by done. apply Hinv.
  - rewrite size_dom. apply Hinv.
Qed.

End replay.

(** ** LFU: recency order inside the frequency lists *)

Section lfu_recency.

Import LFUCache.

Implicit Types (fm : gmap Z std_list) (ks : list string) (key a b : string).

Lemma later_snoc_old ks key a b :
  b ≠ key → later ks a b → later (ks ++ [key]) a b.
Proof.
  intros Hb (j & Hj & Hlt). exists j. split.
  - by apply lookup_app_l_Some.
  - intros i Hi. apply Hlt.
    apply lookup_app_Some in Hi as [Hi|[_ Hi]]; [done|].
    apply list_lookup_singleton_Some in Hi as [_ ?]. congruence.
Qed.

Lemma later_snoc_new ks key b : b ≠ key → later (ks ++ [key]) key b.
Proof.
  intros Hb. exists (length ks). split.
  - by rewrite lookup_app_r, Nat.sub_diag.
  - intros i Hi. apply lookup_app_Some in Hi as [Hi|[_ Hi]].
    + by apply lookup_lt_Some in Hi.
    + apply list_lookup_singleton_Some in Hi as [_ ?]. congruence.
Qed.

Lemma StronglySorted_later_snoc ks key (l : list string) :
  key ∉ l → StronglySorted (later ks) l →
  StronglySorted (later (ks ++ [key])) l.
Proof.
  induction l as [|a l IH]; [constructor|].
  rewrite not_elem_of_cons, !StronglySorted_cons, !Forall_forall.
  intros [Ha Hl] [Hall Hs]. split; [|auto].
  intros b Hb. apply later_snoc_old; [|auto]. intros ->. done.
Qed.

Lemma LFU_recency_empty ks : LFU_recency ks ∅.
Proof. intros f. rewrite bucket_empty. constructor. Qed.

Lemma LFU_recency_remove ks fm f it :
  LFU_recency ks fm → LFU_recency ks (<[f := unlink it (bucket fm f)]> fm).
Proof.
  intros Hs g. rewrite bucket_insert. case_decide; [|done].
  by apply StronglySorted_keys_unlink.
Qed.

Lemma LFU_recency_insert ks fm g hp key :
  LFU_recency ks fm → (∀ f, key ∉ keys (bucket fm f)) →
  LFU_recency (ks ++ [key]) (<[g := push_front hp key (bucket fm g)]> fm).
Proof.
  intros Hs Hkey f. rewrite bucket_insert.
  case_decide; [subst f|by apply StronglySorted_later_snoc].
  unfold push_front, keys. simpl. apply StronglySorted_cons. split.
  - apply Forall_forall. intros b Hb. apply later_snoc_new.
    intros ->. by apply (Hkey g).
  - by apply StronglySorted_later_snoc; [apply Hkey|apply Hs].
Qed.

(** What [access] does to the frequency lists: at most one node of a
    resident key is unlinked, then a node for [key] is put in front of
    one list. *)
Lemma LFU_access_freq_map key c c' e :
  LFU_inv c → access key c = Some (c', e) →
  ∃ fm1 g,
    (fm1 = freq_map c ∨
     ∃ f it, fm1 = <[f := unlink it (bucket (freq_map c) f)]> (freq_map c)) ∧
    (∀ f, key ∉ keys (bucket fm1 f)) ∧
    freq_map c' = <[g := push_front (heap c) key (bucket fm1 g)]> fm1.
Proof.
  intros [Hcap Hlinks Hmin Hlower Hlen].
  pose proof (lfu_map _ _ _ Hlinks) as Hmap.
  assert (∀ cm fm hp, LFU_links cm fm hp → cm !! key = None →
            ∀ f, key ∉ keys (bucket fm f)) as Hfree.
  { intros cm fm hp Hl Hnone f Hin.
    assert (key ∈ dom cm) as Hd by (eapply LFU_links_dom; eauto).
    by apply not_elem_of_dom in Hnone. }
  unfold access. destruct (cache_map c !! key) as [[f it]|] eqn:Hk.
  - assert ((it, key) ∈ bucket (freq_map c) f) as Hin by by apply Hmap.
    rewrite update_frequency_Some by done. simpl. intros [= <- <-]. simpl.
    eexists _, (f + 1). split; [right; by exists f, it|]. split; [|done].
    eapply Hfree; [by eapply LFU_links_remove|]. apply lookup_delete_eq.
  - simpl.
    destruct (decide (capacity (base c) ≤ size (cache_map c))%nat) as [Hfull|Hnf].
    + assert (cache_map c ≠ ∅) as Hne.
      { apply map_size_non_empty_iff. lia. }
      destruct (nonempty_snoc _ (Hmin Hne)) as (l0 & itv & v & Hl).
      rewrite Hl, back_snoc, pop_back_snoc. simpl.
      rewrite begin_bucket_push. simpl. intros [= <- <-]. simpl.
      assert (cache_map c !! v = Some (min_frequency c, itv)) as Hv.
      { apply Hmap. rewrite Hl. set_solver. }
      pose proof (LFU_links_remove _ _ _ _ _ _ Hlinks Hv) as Hrem.
      assert (unlink itv (bucket (freq_map c) (min_frequency c)) = l0) as Hun.
      { rewrite Hl. apply unlink_snoc. rewrite <- Hl. apply (lfu_nodes _ _ _ Hlinks). }
      rewrite Hun in Hrem.
      eexists _, 1. split; [right; exists (min_frequency c), itv; by rewrite Hun|].
      split; [|done].
      eapply Hfree; [done|]. rewrite lookup_delete_ne; [done|congruence].
    + simpl. rewrite begin_bucket_push. simpl. intros [= <- <-]. simpl.
      eexists _, 1. split; [by left|]. split; [|done]. by eapply Hfree.
Qed.

Lemma LFU_access_recency ks key c c' e :
  LFU_inv c → LFU_recency ks (freq_map c) → access key c = Some (c', e) →
  LFU_recency (ks ++ [key]) (freq_map c').
Proof.
  intros Hinv Hs Hacc.
  destruct (LFU_access_freq_map key c c' e Hinv Hacc)
    as (fm1 & g & Hfm1 & Hkey & ->).
  apply LFU_recency_insert; [|done].
  destruct Hfm1 as [->|(f & it & ->)]; [done|].
  by apply LFU_recency_remove.
Qed.

(** An LFU cache stays an LFU cache, with its invariant and the recency
    order of its lists. *)
Lemma LFU_replay_ok cap ks :
  ∃ c es, replay (LFU (new cap)) ks = Some (LFU c, es) ∧
          LFU_inv c ∧ LFU_recency ks (freq_map c).
Proof.
  induction ks as [|key ks IH] using rev_ind.
  - exists (new cap), []. split; [done|]. split; [apply LFU_inv_new|].
    apply LFU_recency_empty.
  - destruct IH as (c & es & Hr & Hinv & Hs).
    destruct (LFU_access_ok key c Hinv) as (c' & e & Hacc & Hinv' & _).
    exists c', (es ++ [e]). split.
    + rewrite replay_app, Hr. simpl. by rewrite Hacc.
    + split; [done|]. exact (LFU_access_recency _ _ _ _ _ Hinv Hs Hacc).
Qed.

Lemma LFU_run cap ks :
  run (CacheSimulator_new cap ks "LFU") = replay (LFU (new cap)) ks.
Proof. done. Qed.

End lfu_recency.

(** ** Any policy: the counters after a run *)

Lemma run_counters cap policy_type ks :
  ∃ p es,
    run (CacheSimulator_new cap ks policy_type) = Some (p, es) ∧
    hits (policy_base p) = count_outcome HIT es ∧
    misses (policy_base p) = count_outcome MISS es ∧
    hits (policy_base p) + misses (policy_base p) = Z.of_nat (length ks).
Proof.
  set (sim := CacheSimulator_new cap ks policy_type).
  destruct (replay_ok (cache sim) ks) as (p & es & Hrun & Hinv & _ & Hh & Hm);
    [apply new_inv|].
  assert (hits (policy_base (cache sim)) = 0 ∧ misses (policy_base (cache sim)) = 0)
    as [Hh0 Hm0].
  { unfold sim, CacheSimulator_new; simpl. by repeat case_decide. }
  rewrite Hh0 in Hh. rewrite Hm0 in Hm.
  exists p, es. split; [done|]. split; [lia|]. split; [lia|].
  pose proof (count_outcome_total es).
  pose proof (replay_length _ _ _ _ Hrun). lia.
Qed.

(** ** The [int] counters and frequencies do not overflow *)

Section int_range.

Import LFUCache.

Lemma LFU_access_bounded key c c' e n :
  LFU_inv c → LFU_bounded n c → access key c = Some (c', e) →
  LFU_bounded (n + 1) c'.
Proof.
  intros Hinv [Hmin Hfreq]. unfold access.
  destruct (cache_map c !! key) as [[f it]|] eqn:Hk.
  - pose proof (Hfreq _ _ _ Hk) as Hf.
    pose proof (lfu_pos _ _ _ (lfu_links _ Hinv) _ _ _ Hk) as Hf1.
    unfold update_frequency. simpl.
    destruct (erase _ _) as [l_old|]; simpl; [|done].
    destruct (begin _) as [b|]; simpl; [|done].
    intros [= <- <-]. split; simpl.
    + case_decide; lia.
    + intros k f' it'. destruct (decide (k = key)) as [->|Hne].
      * rewrite lookup_insert_eq. intros [= <- _]. lia.
      * rewrite lookup_insert_ne by done. intros Hk'%Hfreq. lia.
  - simpl. case_decide; simpl.
    + destruct (back _) as [v|]; simpl; [|done].
      destruct (begin _) as [b|]; simpl; [|done].
      intros [= <- <-]. split; simpl; [lia|].
      intros k f' it'. destruct (decide (k = key)) as [->|Hne].
      * rewrite lookup_insert_eq. intros [= <- _]. lia.
      * rewrite lookup_insert_ne by done.
        intros [_ Hk'%Hfreq]%lookup_delete_Some. lia.
    + destruct (begin _) as [b|]; simpl; [|done].
      intros [= <- <-]. split; simpl; [lia|].
      intros k f' it'. destruct (decide (k = key)) as [->|Hne].
      * rewrite lookup_insert_eq. intros [= <- _]. lia.
      * rewrite lookup_insert_ne by done. intros Hk'%Hfreq. lia.
Qed.

Lemma LFU_replay_bounded cap ks :
  ∃ c es, replay (LFU (new cap)) ks = Some (LFU c, es) ∧
          LFU_inv c ∧ LFU_bounded (Z.of_nat (length ks)) c.
Proof.
  induction ks as [|key ks IH] using rev_ind.
  - exists (new cap), []. split; [done|]. split; [apply LFU_inv_new|].
    split; simpl; [lia|]. intros k f it. by rewrite lookup_empty.
  - destruct IH as (c & es & Hr & Hinv & Hb).
    destruct (LFU_access_ok key c Hinv) as (c' & e & Hacc & Hinv' & _).
    exists c', (es ++ [e]). split; [|split; [done|]].
    + rewrite replay_app, Hr. simpl. by rewrite Hacc.
    + rewrite length_app. simpl length.
      replace (Z.of_nat (length ks + 1)) with (Z.of_nat (length ks) + 1) by lia.
      exact (LFU_access_bounded _ _ _ _ _ Hinv Hb Hacc).
Qed.

(** A run of at most [INT_MAX] accesses keeps every counter and every
    frequency within the range of [int]: on such runs no [++] and no
    [old_freq + 1] overflows. *)
Lemma run_int_range cap policy_type ks :
  Z.of_nat (length ks) ≤ INT_MAX →
  ∃ p es, run (CacheSimulator_new cap ks policy_type) = Some (p, es) ∧ int_range p.
Proof.
  intros Hlen.
  destruct (run_counters cap policy_type ks) as (p & es & Hrun & Hh & Hm & Htot).
  assert (0 ≤ hits (policy_base p)) by (rewrite Hh; unfold count_outcome; lia).
  assert (0 ≤ misses (policy_base p)) by (rewrite Hm; unfold count_outcome; lia).
  exists p, es. split; [done|]. repeat split; try lia.
  destruct p as [c|c|c]; try done.
  destruct (LFU_replay_bounded cap ks) as (c' & es' & Hr & Hinv & [Hmin Hfreq]).
  assert (c' = c) as ->.
  { revert Hrun. unfold run, CacheSimulator_new. simpl.
    repeat case_decide; intros Hrun; try (by apply replay_kind in Hrun).
    congruence. }
  split; [lia|]. intros k f it Hk. split.
  - by apply (lfu_pos _ _ _ (lfu_links _ Hinv) _ _ _ Hk).
  - apply Hfreq in Hk. lia.
Qed.

End int_range.

(** ** The hit rate in binary64 *)

Section binary64.

Lemma iter_pos_invariant {A} (f : A → A) (P : A → Prop) :
  (∀ x, P x → P (f x)) → ∀ p x, P x → P (SpecFloat.iter_pos f p x).
Proof.
  intros Hf. induction p as [p IH|p IH|]; intros x Hx; simpl; auto.
Qed.

Lemma shr_1_nonneg mrs : 0 ≤ shr_m mrs → 0 ≤ shr_m (shr_1 mrs).
Proof.
  destruct mrs as [m r s]. simpl.
  destruct m as [|[p|p|]|[p|p|]]; simpl; lia.
Qed.

Lemma shr_nonneg mrs e n : 0 ≤ shr_m mrs → 0 ≤ shr_m (shr mrs e n).1.
Proof.
  intros Hm. destruct n as [|p|p]; simpl; [done| |done].
  apply (iter_pos_invariant shr_1 (λ mrs, 0 ≤ shr_m mrs)); [apply shr_1_nonneg|done].
Qed.

Lemma shr_fexp_nonneg m e l :
  0 ≤ m → 0 ≤ shr_m (shr_fexp prec emax m e l).1.
Proof.
  intros Hm. unfold shr_fexp. apply shr_nonneg.
  by destruct l as [|[]].
Qed.

Lemma round_nearest_even_nonneg m l : 0 ≤ m → 0 ≤ round_nearest_even m l.
Proof.
  intros Hm. destruct l as [|[]]; simpl; try done; [|lia].
  destruct (Z.even m); lia.
Qed.

Lemma binary_round_aux_not_nan sx mx ex lx :
  0 ≤ mx → binary_round_aux prec emax sx mx ex lx ≠ S754_nan.
Proof.
  intros Hm. unfold binary_round_aux.
  pose proof (shr_fexp_nonneg mx ex lx Hm) as H1.
  destruct (shr_fexp prec emax mx ex lx) as [mrs' e']. simpl in H1.
  pose proof (shr_fexp_nonneg _ e' loc_Exact
                (round_nearest_even_nonneg _ (loc_of_shr_record mrs') H1)) as H2.
  destruct (shr_fexp prec emax _ e' loc_Exact) as [mrs'' e'']. simpl in H2.
  destruct (shr_m mrs'') as [|m|m]; [done| |lia].
  by destruct (e'' <=? emax - prec).
Qed.

Lemma SFdiv_not_nan x sy my ey :
  x ≠ S754_nan → SFdiv prec emax x (S754_finite sy my ey) ≠ S754_nan.
Proof.
  destruct x as [sx|sx| |sx mx ex]; simpl; try done. intros _.
  unfold SFdiv_core_binary.
  set (s := _ - _ - Z.min _ _).
  set (m' := match s with 0 => Z.pos mx | Z.pos _ => Z.shiftl (Z.pos mx) s | Z.neg _ => 0 end).
  assert (0 ≤ m') as Hm'.
  { unfold m'. destruct s; try lia. by apply Z.shiftl_nonneg. }
  pose proof (Z.div_pos m' (Z.pos my) Hm' ltac:(lia)) as Hq.
  unfold Z.div in Hq.
  destruct (Z.div_eucl m' (Z.pos my)) as [q r].
  by apply binary_round_aux_not_nan.
Qed.

Lemma SFmul_not_nan x sy my ey :
  x ≠ S754_nan → SFmul prec emax x (S754_finite sy my ey) ≠ S754_nan.
Proof.
  destruct x as [sx|sx| |sx mx ex]; simpl; try done. intros _.
  by apply binary_round_aux_not_nan.
Qed.

Lemma digits2_pos_iter_xO m d :
  digits2_pos (Pos.iter xO m d) = (digits2_pos m + d)%positive.
Proof.
  induction d as [|d IH] using Pos.peano_ind.
  - simpl. lia.
  - rewrite Pos.iter_succ. simpl. rewrite IH. lia.
Qed.

Lemma digits2_pos_le m k : 0 ≤ k → Z.pos m < 2 ^ k → Z.pos (digits2_pos m) ≤ k.
Proof.
  revert k. induction m as [m IH|m IH|]; intros k Hk Hm; simpl.
  - assert (k ≠ 0) by (intros ->; simpl in Hm; lia).
    replace k with (Z.succ (k - 1)) in Hm by lia.
    rewrite Z.pow_succ_r in Hm by lia.
    specialize (IH (k - 1) ltac:(lia) ltac:(lia)). lia.
  - assert (k ≠ 0) by (intros ->; simpl in Hm; lia).
    replace k with (Z.succ (k - 1)) in Hm by lia.
    rewrite Z.pow_succ_r in Hm by lia.
    specialize (IH (k - 1) ltac:(lia) ltac:(lia)). lia.
  - assert (k ≠ 0) by (intros ->; simpl in Hm; lia). lia.
Qed.

Lemma binary_round_aux_canonical sx m e :
  fexp prec emax (Z.pos (digits2_pos m) + e) = e → e ≤ emax - prec →
  binary_round_aux prec emax sx (Z.pos m) e loc_Exact = S754_finite sx m e.
Proof.
  intros Hfexp He. unfold binary_round_aux, shr_fexp. simpl Zdigits2.
  rewrite Hfexp, Z.sub_diag. simpl. rewrite Hfexp, Z.sub_diag. simpl.
  by rewrite (proj2 (Z.leb_le _ _) He).
Qed.

(** An integer of at most 53 bits converts to a finite double with a
    mantissa of 53 bits. *)
Lemma double_of_int_finite n :
  0 < n < 2 ^ 53 →
  ∃ m e, double_of_int n = S754_finite false m e ∧ digits2_pos m = 53%positive.
Proof.
  intros [Hpos Hlt]. destruct n as [|m|m]; try lia.
  unfold double_of_int, binary_normalize, binary_round.
  pose proof (digits2_pos_le m 53 ltac:(lia) Hlt) as Hd.
  set (d := digits2_pos m) in *.
  assert (fexp prec emax (Z.pos d + 0) = Z.pos d - 53) as Hfexp.
  { unfold fexp, SpecFloat.emin, prec, emax. lia. }
  rewrite Hfexp. unfold shl_align.
  destruct (Z.pos d - 53 - 0) as [|k|k] eqn:Hk; try lia.
  - eexists _, _. split.
    + apply binary_round_aux_canonical.
      * fold d. unfold fexp, SpecFloat.emin, prec, emax. lia.
      * unfold prec, emax. lia.
    + fold d. lia.
  - eexists _, _. split.
    + apply binary_round_aux_canonical.
      * rewrite digits2_pos_iter_xO. fold d.
        unfold fexp, SpecFloat.emin, prec, emax. lia.
      * unfold prec, emax. lia.
    + rewrite digits2_pos_iter_xO. fold d. lia.
Qed.

Lemma double_of_int_not_nan n : 0 ≤ n → double_of_int n ≠ S754_nan.
Proof.
  intros Hn. destruct n as [|m|m]; try lia; [done|].
  unfold double_of_int, binary_normalize, binary_round.
  destruct (shl_align _ _ _) as [mz ez].
  by apply binary_round_aux_not_nan.
Qed.

Lemma hit_rate_not_nan b :
  0 ≤ hits b → 0 ≤ misses b → hits b + misses b < 2 ^ 53 →
  hit_rate b ≠ S754_nan.
Proof.
  intros Hh Hm Hlt. unfold hit_rate.
  destruct (0 <? hits b + misses b) eqn:Htot; [|done].
  apply Z.ltb_lt in Htot.
  destruct (double_of_int_finite (hits b + misses b)) as (m & e & -> & _); [lia|].
  change (double_of_int 100) with (S754_finite false 7036874417766400 (-46)).
  by apply SFmul_not_nan, SFdiv_not_nan, double_of_int_not_nan.
Qed.

Lemma hit_rate_no_hits b :
  hits b = 0 → 0 < misses b < 2 ^ 53 → hit_rate b = S754_zero false.
Proof.
  intros Hh Hm. unfold hit_rate. rewrite Hh, Z.add_0_l.
  rewrite (proj2 (Z.ltb_lt 0 (misses b))) by lia.
  by destruct (double_of_int_finite (misses b) Hm) as (m & e & -> & Hd).
Qed.

(** *** The two roundings of the rate *)

Lemma shr_1_nonneg_eq m r s :
  0 ≤ m →
  shr_1 (Build_shr_record m r s) = Build_shr_record (m / 2) (Z.odd m) (r || s).
Proof.
  intros Hm. rewrite <- Z.div2_div.
  destruct m as [|[p|p|]|p]; try lia; reflexivity.
Qed.

Lemma located_shr_1 a N mrs :
  0 < a → 0 ≤ N → located a N mrs → located (a * 2) N (shr_1 mrs).
Proof.
  intros Ha HN. destruct mrs as [m r s]. intros (Hm & Hr & Hs).
  simpl in Hm, Hr, Hs.
  assert (0 ≤ m) as Hm0 by (rewrite Hm; by apply Z.div_pos).
  rewrite shr_1_nonneg_eq by done.
  pose proof (Z.mod_pos_bound N a Ha) as HR.
  pose proof (Z.mod_pos_bound m 2 ltac:(lia)) as Hm2.
  assert (N mod (a * 2) = N mod a + a * (m mod 2)) as Hmod.
  { rewrite Hm. apply Z.rem_mul_r; lia. }
  assert (Z.odd m = true ↔ m mod 2 = 1) as Hodd.
  { rewrite Zmod_odd. destruct (Z.odd m); split; (done || lia). }
  split; [|split]; simpl.
  - rewrite Hm. rewrite Z.div_div by lia. done.
  - rewrite Hodd, Hmod.
    assert (m mod 2 = 0 ∨ m mod 2 = 1) as [->| ->] by lia; lia.
  - rewrite orb_true_iff, Hr, Hs, Hmod.
    assert (m mod 2 = 0 ∨ m mod 2 = 1) as [->| ->] by lia; lia.
Qed.

Lemma iter_pos_steps {A} (f : A → A) (P : Z → A → Prop) :
  (∀ k x, 0 ≤ k → P k x → P (k + 1) (f x)) →
  ∀ p k x, 0 ≤ k → P k x → P (k + Z.pos p) (SpecFloat.iter_pos f p x).
Proof.
  intros Hf. induction p as [p IH|p IH|]; intros k x Hk Hx; simpl.
  - replace (k + Z.pos p~1) with (k + 1 + Z.pos p + Z.pos p) by lia.
    apply IH; [lia|]. apply IH; [lia|]. by apply Hf.
  - replace (k + Z.pos p~0) with (k + Z.pos p + Z.pos p) by lia.
    apply IH; [lia|]. by apply IH.
  - by apply Hf.
Qed.

Lemma located_shr a N mrs e n :
  0 < a → 0 ≤ N → 0 ≤ n → located a N mrs →
  located (a * 2 ^ n) N (shr mrs e n).1 ∧ (shr mrs e n).2 = e + n.
Proof.
  intros Ha HN Hn Hloc. destruct n as [|p|p]; simpl; [| |lia].
  - rewrite Z.mul_1_r, Z.add_0_r. done.
  - split; [|done].
    pose proof (iter_pos_steps shr_1 (λ k x, located (a * 2 ^ k) N x)) as Hit.
    simpl in Hit. specialize (Hit) with (p := p) (k := 0) (x := mrs).
    rewrite Z.add_0_l in Hit. apply Hit; [|done|by rewrite Z.mul_1_r].
    intros k x Hk Hx. rewrite Z.pow_add_r, Z.pow_1_r, Z.mul_assoc by lia.
    apply located_shr_1; [|done..].
    apply Z.mul_pos_pos; [done|]. by apply Z.pow_pos_nonneg.
Qed.

Lemma round_located a N mrs :
  0 < a → 0 ≤ N → located a N mrs →
  ∃ M, round_nearest_even (shr_m mrs) (loc_of_shr_record mrs) = M ∧
       N / a ≤ M ≤ N / a + 1 ∧ 2 * Z.abs (M * a - N) ≤ a.
Proof.
  intros Ha HN. destruct mrs as [m r s]. intros (Hm & Hr & Hs). simpl in *.
  pose proof (Z.mod_pos_bound N a Ha) as HR.
  pose proof (Z.div_mod N a ltac:(lia)) as HN'.
  rewrite <- Hm in *. set (R := N mod a) in *. clearbody R.
  assert (m * a - N = - R) as H0 by lia.
  assert ((m + 1) * a - N = a - R) as H1 by lia.
  eexists. split; [done|].
  destruct r, s; simpl.
  - rewrite H1. destruct Hr as [Hr _]. destruct Hs as [Hs _].
    specialize (Hr eq_refl). specialize (Hs eq_refl). lia.
  - destruct Hr as [Hr _]. specialize (Hr eq_refl).
    assert (2 * R = a) as Heq.
    { destruct (decide (R = 0)) as [->|Hne]; [lia|].
      destruct (decide (2 * R = a)) as [|Hne']; [done|].
      destruct Hs as [_ Hs]. by specialize (Hs (conj Hne Hne')). }
    destruct (Z.even m); [rewrite H0|rewrite H1]; lia.
  - rewrite H0. destruct Hs as [Hs _]. specialize (Hs eq_refl).
    assert (¬ a ≤ 2 * R) as Hlt by (intros Hle; by apply Hr in Hle). lia.
  - rewrite H0.
    assert (¬ a ≤ 2 * R) as Hlt by (intros Hle; by apply Hr in Hle).
    assert (R = 0) as ->; [|lia].
    destruct (decide (R = 0)) as [|Hne]; [done|].
    destruct Hs as [_ Hs]. assert (2 * R ≠ a) as Hne' by lia.
    by specialize (Hs (conj Hne Hne')).
Qed.

Lemma digits2_pos_bounds m :
  2 ^ (Z.pos (digits2_pos m) - 1) ≤ Z.pos m < 2 ^ Z.pos (digits2_pos m).
Proof.
  induction m as [m IH|m IH|]; simpl digits2_pos.
  - rewrite Pos2Z.inj_succ.
    replace (Z.succ (Z.pos (digits2_pos m)) - 1) with (Z.succ (Z.pos (digits2_pos m) - 1)) by lia.
    rewrite !Z.pow_succ_r by lia. lia.
  - rewrite Pos2Z.inj_succ.
    replace (Z.succ (Z.pos (digits2_pos m)) - 1) with (Z.succ (Z.pos (digits2_pos m) - 1)) by lia.
    rewrite !Z.pow_succ_r by lia. lia.
  - simpl. lia.
Qed.

Lemma Zdigits2_unique m d :
  0 < d → 2 ^ (d - 1) ≤ m < 2 ^ d → Zdigits2 m = d.
Proof.
  intros Hd [Hlo Hhi]. assert (0 < m) as Hm.
  { pose proof (Z.pow_pos_nonneg 2 (d - 1) ltac:(lia) ltac:(lia)). lia. }
  destruct m as [|m|m]; try lia. simpl.
  pose proof (digits2_pos_bounds m) as [Hl Hh].
  set (d' := Z.pos (digits2_pos m)) in *.
  destruct (Z.lt_trichotomy d' d) as [Hlt|[Heq|Hgt]]; [|done|].
  - assert (2 ^ d' ≤ 2 ^ (d - 1)) by (apply Z.pow_le_mono_r; lia). lia.
  - assert (2 ^ d ≤ 2 ^ (d' - 1)) by (apply Z.pow_le_mono_r; lia). lia.
Qed.

(** Rounding to nearest, ties to even, of a quotient whose integer part has
    at least 53 bits and which lies in the range of the normal doubles:
    the result is finite, and away from the quotient by at most half a
    unit of its last place. *)
Lemma binary_round_aux_located sx D N ex lx d :
  0 < D → 0 ≤ N →
  located D N (shr_record_of_loc (N / D) lx) →
  Zdigits2 (N / D) = d → 53 ≤ d → -1074 ≤ d + ex - 53 → d + ex ≤ 1023 →
  ∃ m e M,
    binary_round_aux prec emax sx (N / D) ex lx = S754_finite sx m e ∧
    2 ^ 52 * (D * 2 ^ (d - 53)) ≤ N ∧
    2 * Z.abs (M * (D * 2 ^ (d - 53)) - N) ≤ D * 2 ^ (d - 53) ∧
    Z.pos m * 2 ^ (e - (d + ex - 53)) = M ∧ 0 ≤ e - (d + ex - 53) ≤ 1 ∧
    digits2_pos m = 53%positive.
Proof.
  intros HD HN Hloc Hd Hd53 Hlo Hhi.
  assert (0 < N / D) as Hq.
  { pose proof (Z.div_pos N D HN HD).
    destruct (N / D) as [|q|q]; simpl in Hd; lia. }
  assert (2 ^ (d - 1) ≤ N / D < 2 ^ d) as Hqb.
  { destruct (N / D) as [|q|q]; try lia. simpl in Hd. subst d.
    apply digits2_pos_bounds. }
  set (n := d - 53) in *.
  assert (0 < 2 ^ n) as Hpn by (apply Z.pow_pos_nonneg; lia).
  assert (0 < D * 2 ^ n) as Ha by (by apply Z.mul_pos_pos).
  assert (N / (D * 2 ^ n) = N / D / 2 ^ n) as Hdiv by (rewrite Z.div_div; lia).
  assert (2 ^ 52 ≤ N / (D * 2 ^ n) < 2 ^ 53) as Hq52.
  { rewrite Hdiv. split.
    - apply Z.div_le_lower_bound; [done|].
      replace (2 ^ n * 2 ^ 52) with (2 ^ (d - 1)); [lia|].
      rewrite <- Z.pow_add_r by lia. f_equal. lia.
    - apply Z.div_lt_upper_bound; [done|].
      replace (2 ^ n * 2 ^ 53) with (2 ^ d); [lia|].
      rewrite <- Z.pow_add_r by lia. f_equal. lia. }
  unfold binary_round_aux, shr_fexp. rewrite Hd.
  replace (fexp prec emax (d + ex) - ex) with n
    by (unfold fexp, SpecFloat.emin, prec, emax; lia).
  destruct (located_shr D N (shr_record_of_loc (N / D) lx) ex n HD HN ltac:(lia) Hloc)
    as [Hloc1 He1].
  destruct (shr (shr_record_of_loc (N / D) lx) ex n) as [mrs1 e1].
  simpl in Hloc1, He1. subst e1.
  destruct (round_located (D * 2 ^ n) N mrs1 Ha HN Hloc1) as (M & -> & HM & Herr).
  assert (2 ^ 52 * (D * 2 ^ n) ≤ N) as Hlow.
  { pose proof (Z.mul_div_le N (D * 2 ^ n) Ha). nia. }
  destruct (decide (M = 2 ^ 53)) as [->|Hne].
  - replace (Zdigits2 (2 ^ 53)) with 54 by (vm_compute; reflexivity).
    replace (fexp prec emax (54 + (ex + n)) - (ex + n)) with 1
      by (unfold fexp, SpecFloat.emin, prec, emax; lia).
    simpl.
    rewrite (proj2 (Z.leb_le _ _)) by (unfold emax, prec; lia).
    eexists _, _, (2 ^ 53). split; [reflexivity|]. split; [done|].
    split; [done|]. replace (ex + n + 1 - (d + ex - 53)) with 1 by lia.
    split; [vm_compute; reflexivity|]. split; [lia|]. vm_compute. reflexivity.
  - assert (Zdigits2 M = 53) as HdM by (apply Zdigits2_unique; lia).
    rewrite HdM.
    replace (fexp prec emax (53 + (ex + n)) - (ex + n)) with 0
      by (unfold fexp, SpecFloat.emin, prec, emax; lia).
    simpl. destruct M as [|m|m]; try lia.
    rewrite (proj2 (Z.leb_le _ _)) by (unfold emax, prec; lia).
    eexists _, _, (Z.pos m). split; [reflexivity|]. split; [done|].
    split; [done|]. replace (ex + n - (d + ex - 53)) with 0 by lia.
    split; [lia|]. split; [lia|]. simpl in HdM. lia.
Qed.

Lemma Qpower_2_pos e : (0 < 2 ^ e)%Q.
Proof. by apply Qpower_0_lt. Qed.

Lemma Qpower_2_nonneg_exp n : 0 ≤ n → (2 ^ n == inject_Z (2 ^ n))%Q.
Proof. intros Hn. by rewrite (Zpower_Qpower 2 n Hn). Qed.

(** The value of a double obtained by [binary_round_aux_located] is away
    from the quotient it rounds by at most the quotient times 2^-53. *)
Lemma rounded_relative_error D N ex n M m k :
  0 < D → 0 ≤ N → 0 ≤ n →
  2 ^ 52 * (D * 2 ^ n) ≤ N →
  2 * Z.abs (M * (D * 2 ^ n) - N) ≤ D * 2 ^ n →
  Z.pos m * 2 ^ k = M → 0 ≤ k →
  (Qabs (inject_Z (Z.pos m) * 2 ^ (ex + (n + k))
         - inject_Z N / inject_Z D * 2 ^ ex)
   <= inject_Z N / inject_Z D * 2 ^ ex * (1 # 2 ^ 53))%Q.
Proof.
  intros HD HN Hn Hlow Herr HM Hk.
  assert (0 < 2 ^ n) as Hpn by (by apply Z.pow_pos_nonneg).
  assert (- N ≤ 2 ^ 53 * (M * 2 ^ n * D - N) ≤ N) as HZ by lia.
  assert ((inject_Z (Z.pos m) * 2 ^ (ex + (n + k)) ==
           inject_Z (M * 2 ^ n) * 2 ^ ex)%Q) as Hval.
  { rewrite !Qpower_plus by done.
    rewrite (Qpower_2_nonneg_exp n), (Qpower_2_nonneg_exp k) by done.
    rewrite <- HM, !inject_Z_mult. ring. }
  rewrite Hval.
  set (y := inject_Z (M * 2 ^ n)).
  set (r := (inject_Z N / inject_Z D)%Q).
  pose proof (Qpower_2_pos ex) as Hc. set (c := (2 ^ ex)%Q) in *.
  assert (0 < inject_Z D)%Q as HDq.
  { change 0%Q with (inject_Z 0). by rewrite <- Zlt_Qlt. }
  assert (inject_Z N == r * inject_Z D)%Q as HNq.
  { unfold r. field. lra. }
  assert (- inject_Z N <= inject_Z (2 ^ 53) * (y * inject_Z D - inject_Z N)
          <= inject_Z N)%Q as [H1 H2].
  { unfold y, Qminus.
    rewrite <- !inject_Z_mult, <- !inject_Z_opp, <- inject_Z_plus,
      <- inject_Z_mult, <- !Zle_Qle. lia. }
  assert (- r <= inject_Z (2 ^ 53) * (y - r) <= r)%Q as [H3 H4].
  { rewrite HNq in H1, H2. split.
    - apply (Qmult_le_r _ _ (inject_Z D)); [done|]. lra.
    - apply (Qmult_le_r _ _ (inject_Z D)); [done|]. lra. }
  assert (0 <= r)%Q as Hr0 by lra.
  assert (Qabs (y - r) <= r * (1 # 2 ^ 53))%Q as Habs.
  { apply Qabs_Qle_condition.
    change (inject_Z (2 ^ 53)) with (9007199254740992 # 1)%Q in H3, H4.
    change (1 # 2 ^ 53)%Q with (1 # 9007199254740992)%Q.
    split; lra. }
  setoid_replace (y * c - r * c)%Q with ((y - r) * c)%Q using relation Qeq by ring.
  rewrite Qabs_Qmult, (Qabs_pos c) by lra.
  setoid_replace (r * c * (1 # 2 ^ 53))%Q with (r * (1 # 2 ^ 53) * c)%Q
    using relation Qeq by ring.
  apply Qmult_le_compat_r; [done|lra].
Qed.

Lemma Zdigits2_range q a b :
  0 ≤ a → 2 ^ a ≤ q < 2 ^ b → a < Zdigits2 q ≤ b.
Proof.
  intros Ha [Hlo Hhi].
  assert (0 < q) as Hq by (pose proof (Z.pow_pos_nonneg 2 a); lia).
  destruct q as [|q|q]; try lia. simpl.
  pose proof (digits2_pos_bounds q) as [Hl Hh].
  set (d := Z.pos (digits2_pos q)) in *. split.
  - apply (Z.pow_lt_mono_r_iff 2); lia.
  - assert (b < 0 ∨ 0 ≤ b) as [Hb|Hb] by lia.
    { rewrite Z.pow_neg_r in Hhi by done. lia. }
    assert (d - 1 < b); [|lia]. apply (Z.pow_lt_mono_r_iff 2); lia.
Qed.

Lemma new_location_located D N :
  0 < D → 0 ≤ N →
  located D N (shr_record_of_loc (N / D) (new_location D (N mod D))).
Proof.
  intros HD HN. pose proof (Z.mod_pos_bound N D HD) as HR.
  unfold located, new_location. set (R := N mod D) in *. clearbody R.
  destruct (Z.even D) eqn:Heven.
  - unfold new_location_even. destruct (Z.eqb_spec R 0) as [->|Hne]; simpl.
    + repeat split; try done; lia.
    + destruct (Z.compare_spec (2 * R) D); simpl; repeat split; try done; lia.
  - assert (D mod 2 = 1) as Hodd.
    { rewrite Zmod_odd, <- Z.negb_even, Heven. done. }
    unfold new_location_odd. destruct (Z.eqb_spec R 0) as [->|Hne]; simpl.
    + repeat split; try done; lia.
    + destruct (Z.compare_spec (2 * R + 1) D); simpl; repeat split; try done; try lia.
      intros <-. rewrite Z.mul_comm, Z.mod_mul in Hodd; lia.
Qed.

Lemma Pos_iter_xO m k : Z.pos (Pos.iter xO m k) = Z.pos m * 2 ^ Z.pos k.
Proof.
  induction k as [|k IH] using Pos.peano_ind.
  - simpl. lia.
  - rewrite Pos.iter_succ, Pos2Z.inj_xO, IH, Pos2Z.inj_succ, Z.pow_succ_r by lia.
    lia.
Qed.

(** The conversion of a positive [int] to [double] is exact. *)
Lemma double_of_int_exact n :
  0 < n < 2 ^ 53 →
  ∃ m e, double_of_int n = S754_finite false m e ∧
         digits2_pos m = 53%positive ∧ -52 ≤ e ≤ 0 ∧ Z.pos m = n * 2 ^ (- e).
Proof.
  intros [Hpos Hlt]. destruct n as [|m|m]; try lia.
  unfold double_of_int, binary_normalize, binary_round.
  pose proof (digits2_pos_le m 53 ltac:(lia) Hlt) as Hd.
  set (d := digits2_pos m) in *.
  assert (fexp prec emax (Z.pos d + 0) = Z.pos d - 53) as Hfexp.
  { unfold fexp, SpecFloat.emin, prec, emax. lia. }
  rewrite Hfexp. unfold shl_align.
  destruct (Z.pos d - 53 - 0) as [|k|k] eqn:Hk; try lia.
  - eexists _, _. split.
    + apply binary_round_aux_canonical.
      * fold d. unfold fexp, SpecFloat.emin, prec, emax. lia.
      * unfold prec, emax. lia.
    + fold d. split; [lia|]. split; [lia|]. simpl. lia.
  - eexists _, _. split.
    + apply binary_round_aux_canonical.
      * rewrite digits2_pos_iter_xO. fold d.
        unfold fexp, SpecFloat.emin, prec, emax. lia.
      * unfold prec, emax. lia.
    + rewrite digits2_pos_iter_xO. fold d. split; [lia|]. split; [lia|].
      rewrite Pos_iter_xO. f_equal. f_equal. lia.
Qed.

(** The rational number a positive finite double stands for. *)
Lemma SF2Q_finite m e :
  SF2Q (S754_finite false m e) = Some (inject_Z (Z.pos m) * 2 ^ e)%Q.
Proof. done. Qed.

Lemma double_of_int_value n :
  0 < n < 2 ^ 53 →
  ∃ m e, double_of_int n = S754_finite false m e ∧
         digits2_pos m = 53%positive ∧ -52 ≤ e ≤ 0 ∧
         (inject_Z (Z.pos m) * 2 ^ e == inject_Z n)%Q.
Proof.
  intros Hn. destruct (double_of_int_exact n Hn) as (m & e & Hd & Hdig & He & Hm).
  exists m, e. split; [done|]. split; [done|]. split; [done|].
  rewrite Hm, inject_Z_mult, <- (Qpower_2_nonneg_exp (- e)) by lia.
  rewrite <- Qmult_assoc, <- Qpower_plus by done.
  replace (- e + e) with 0 by lia. simpl. ring.
Qed.

(** The quotient of two doubles with full mantissas, in the range where
    it neither overflows nor underflows, is away from the exact quotient
    by at most the quotient times 2^-53. *)
Lemma SFdiv_relative_error m1 e1 m2 e2 :
  digits2_pos m1 = 53%positive → digits2_pos m2 = 53%positive →
  -900 ≤ e1 - e2 ≤ 900 →
  ∃ m e,
    SFdiv prec emax (S754_finite false m1 e1) (S754_finite false m2 e2)
      = S754_finite false m e ∧
    digits2_pos m = 53%positive ∧ e1 - e2 - 53 ≤ e ≤ e1 - e2 - 51 ∧
    (Qabs (inject_Z (Z.pos m) * 2 ^ e
           - inject_Z (Z.pos m1) * 2 ^ e1 / (inject_Z (Z.pos m2) * 2 ^ e2))
     <= inject_Z (Z.pos m1) * 2 ^ e1 / (inject_Z (Z.pos m2) * 2 ^ e2)
        * (1 # 2 ^ 53))%Q.
Proof.
  intros Hd1 Hd2 He. unfold SFdiv, SFdiv_core_binary. simpl Zdigits2.
  rewrite Hd1, Hd2.
  replace (Z.min (fexp prec emax (53 + e1 - (53 + e2))) (e1 - e2))
    with (e1 - e2 - 53) by (unfold fexp, SpecFloat.emin, prec, emax; lia).
  replace (e1 - e2 - (e1 - e2 - 53)) with 53 by lia.
  rewrite Z.shiftl_mul_pow2 by lia.
  pose proof (digits2_pos_bounds m1) as Hb1. rewrite Hd1 in Hb1.
  pose proof (digits2_pos_bounds m2) as Hb2. rewrite Hd2 in Hb2.
  simpl in Hb1, Hb2.
  set (N := Z.pos m1 * 2 ^ 53). set (D := Z.pos m2).
  assert (0 < D) as HD by done. assert (0 ≤ N) as HN by (unfold N; lia).
  assert (Z.div_eucl N D = (N / D, N mod D)) as -> by
    (unfold Z.div, Z.modulo; by destruct (Z.div_eucl N D)).
  assert (2 ^ 52 ≤ N / D < 2 ^ 54) as Hq.
  { split.
    - apply Z.div_le_lower_bound; [done|]. unfold N, D. lia.
    - apply Z.div_lt_upper_bound; [done|]. unfold N, D. lia. }
  pose proof (Zdigits2_range (N / D) 52 54 ltac:(lia) Hq) as Hd.
  destruct (binary_round_aux_located false D N (e1 - e2 - 53)
              (new_location D (N mod D)) (Zdigits2 (N / D)))
    as (m & e & M & Hres & Hlow & Herr & HM & Hk & Hdig);
    [done|done|by apply new_location_located|done|lia..|].
  exists m, e. split; [done|]. split; [done|]. split; [lia|].
  set (n := Zdigits2 (N / D) - 53) in *. set (ex := e1 - e2 - 53) in *.
  replace (Zdigits2 (N / D) + ex - 53) with (ex + n) in HM, Hk by lia.
  pose proof (rounded_relative_error D N ex n M m (e - (ex + n))
                HD HN ltac:(lia) Hlow Herr HM ltac:(lia)) as Hrel.
  replace (ex + (n + (e - (ex + n)))) with e in Hrel by lia.
  assert (inject_Z N / inject_Z D * 2 ^ ex ==
          inject_Z (Z.pos m1) * 2 ^ e1 / (inject_Z (Z.pos m2) * 2 ^ e2))%Q as Hx.
  { unfold N, D, ex. rewrite inject_Z_mult.
    replace (e1 - e2 - 53) with (e1 + (- e2 + - (53))) by lia.
    rewrite !Qpower_plus, !Qpower_opp by done.
    change (inject_Z (2 ^ 53)) with (2 ^ 53)%Q.
    pose proof (Qpower_2_pos e2). pose proof (Qpower_2_pos 53).
    assert (0 < inject_Z (Z.pos m2))%Q by done.
    field. repeat split; lra. }
  by rewrite Hx in Hrel.
Qed.

(** The product of two doubles with full mantissas, in the range where it
    neither overflows nor underflows, is away from the exact product by
    at most the product times 2^-53. *)
Lemma SFmul_relative_error m1 e1 m2 e2 :
  digits2_pos m1 = 53%positive → digits2_pos m2 = 53%positive →
  -900 ≤ e1 + e2 ≤ 900 →
  ∃ m e,
    SFmul prec emax (S754_finite false m1 e1) (S754_finite false m2 e2)
      = S754_finite false m e ∧
    digits2_pos m = 53%positive ∧
    (Qabs (inject_Z (Z.pos m) * 2 ^ e
           - inject_Z (Z.pos m1) * 2 ^ e1 * (inject_Z (Z.pos m2) * 2 ^ e2))
     <= inject_Z (Z.pos m1) * 2 ^ e1 * (inject_Z (Z.pos m2) * 2 ^ e2)
        * (1 # 2 ^ 53))%Q.
Proof.
  intros Hd1 Hd2 He. unfold SFmul. simpl xorb.
  pose proof (digits2_pos_bounds m1) as Hb1. rewrite Hd1 in Hb1.
  pose proof (digits2_pos_bounds m2) as Hb2. rewrite Hd2 in Hb2.
  simpl in Hb1, Hb2.
  set (N := Z.pos (m1 * m2)).
  assert (N = Z.pos m1 * Z.pos m2) as HNeq by (unfold N; lia).
  assert (0 ≤ N) as HN by (unfold N; lia).
  assert (N / 1 = N) as Hdiv1 by apply Z.div_1_r.
  assert (2 ^ 104 ≤ N / 1 < 2 ^ 106) as Hq by (rewrite Hdiv1, HNeq; nia).
  pose proof (Zdigits2_range (N / 1) 104 106 ltac:(lia) Hq) as Hd.
  destruct (binary_round_aux_located false 1 N (e1 + e2) loc_Exact
              (Zdigits2 (N / 1)))
    as (m & e & M & Hres & Hlow & Herr & HM & Hk & Hdig); [lia|done| |done|lia..|].
  { unfold located. simpl. rewrite Z.mod_1_r. repeat split; try done; lia. }
  rewrite Hdiv1 in Hres. exists m, e. split; [done|]. split; [done|].
  set (n := Zdigits2 (N / 1) - 53) in *. set (ex := e1 + e2) in *.
  replace (Zdigits2 (N / 1) + ex - 53) with (ex + n) in HM, Hk by lia.
  pose proof (rounded_relative_error 1 N ex n M m (e - (ex + n))
                ltac:(lia) HN ltac:(lia) Hlow Herr HM ltac:(lia)) as Hrel.
  replace (ex + (n + (e - (ex + n)))) with e in Hrel by lia.
  assert (inject_Z N / inject_Z 1 * 2 ^ ex ==
          inject_Z (Z.pos m1) * 2 ^ e1 * (inject_Z (Z.pos m2) * 2 ^ e2))%Q as Hx.
  { unfold ex. rewrite HNeq, inject_Z_mult, Qpower_plus by done.
    change (inject_Z 1) with 1%Q. field. }
  by rewrite Hx in Hrel.
Qed.

(** The rate [print_stats] computes is the percentage
    [100 * hits / (hits + misses)] up to the two roundings of the division
    and of the multiplication: a relative error of at most 2^-51. *)
Lemma hit_rate_accurate b :
  0 ≤ hits b → 0 ≤ misses b → 0 < hits b + misses b ≤ INT_MAX →
  ∃ q, SF2Q (hit_rate b) = Some q ∧
       (0 <= q)%Q ∧
       (Qabs (q - 100 * inject_Z (hits b) / inject_Z (hits b + misses b))
        <= 100 * inject_Z (hits b) / inject_Z (hits b + misses b)
           * (1 # 2 ^ 51))%Q.
Proof.
  intros Hh Hm [Hpos Hmax]. unfold hit_rate.
  rewrite (proj2 (Z.ltb_lt _ _) Hpos).
  set (t := hits b + misses b) in *. set (h := hits b) in *.
  assert (INT_MAX < 2 ^ 53) as Hint by done.
  assert (0 < inject_Z t)%Q as Htq.
  { change 0%Q with (inject_Z 0). by rewrite <- Zlt_Qlt. }
  destruct (double_of_int_value t) as (m2 & e2 & -> & Hd2 & He2 & Hv2); [lia|].
  change (double_of_int 100) with (S754_finite false 7036874417766400 (-46)).
  destruct (decide (h = 0)) as [->|Hne].
  - exists 0%Q. split; [done|]. split; [lra|].
    setoid_replace (100 * inject_Z 0 / inject_Z t)%Q with 0%Q
      using relation Qeq by (change (inject_Z 0) with 0%Q; field; lra).
    change (1 # 2 ^ 51)%Q with (1 # 2251799813685248)%Q.
    change (Qabs (0 - 0)) with 0%Q. lra.
  - destruct (double_of_int_value h) as (m1 & e1 & -> & Hd1 & He1 & Hv1); [lia|].
    destruct (SFdiv_relative_error m1 e1 m2 e2 Hd1 Hd2 ltac:(lia))
      as (mq & eq & -> & Hdq & Heq & Hq).
    destruct (SFmul_relative_error mq eq 7036874417766400 (-46) Hdq
                ltac:(vm_compute; reflexivity) ltac:(lia))
      as (mr & er & -> & _ & Hr).
    rewrite SF2Q_finite. eexists. split; [done|].
    rewrite Hv1, Hv2 in Hq.
    assert (inject_Z 7036874417766400 * 2 ^ (-46) == 100)%Q as H100
      by (vm_compute; reflexivity).
    rewrite H100 in Hr.
    set (V := (inject_Z (Z.pos mr) * 2 ^ er)%Q) in *.
    set (V1 := (inject_Z (Z.pos mq) * 2 ^ eq)%Q) in *.
    assert (0 < inject_Z h)%Q as Hhq.
    { change 0%Q with (inject_Z 0). rewrite <- Zlt_Qlt. lia. }
    assert (0 < inject_Z h / inject_Z t)%Q as HX.
    { apply Qlt_shift_div_l; [done|]. lra. }
    setoid_replace (100 * inject_Z h / inject_Z t)%Q
      with (100 * (inject_Z h / inject_Z t))%Q
      using relation Qeq by (field; lra).
    set (X := (inject_Z h / inject_Z t)%Q) in *.
    apply Qabs_Qle_condition in Hq as [Hq1 Hq2].
    apply Qabs_Qle_condition in Hr as [Hr1 Hr2].
    change (1 # 2 ^ 53)%Q with (1 # 9007199254740992)%Q in *.
    change (1 # 2 ^ 51)%Q with (1 # 2251799813685248)%Q.
    split; [lra|].
    apply Qabs_Qle_condition. split; lra.
Qed.

End binary64.

(** ** FIFO: the counters do not steer the queue *)

Section fifo_frame.

Import FIFOCache.

Lemma FIFO_access_same key c1 c2 :
  FIFO_same c1 c2 →
  match access key c1, access key c2 with
  | Some (c1', e1), Some (c2', e2) => e1 = e2 ∧ FIFO_same c1' c2'
  | None, None => True
  | _, _ => False
  end.
Proof.
  intros (Hq & Hs & Hc). unfold access. rewrite Hs.
  destruct (decide (key ∈ cache_set c2)); [by repeat split|].
  simpl. rewrite Hq, Hc.
  destruct (decide (capacity (base c2) ≤ length (fifo_queue c2))%nat); simpl.
  - destruct (fifo_queue c2); simpl; [done|]. by repeat split.
  - by repeat split.
Qed.

Lemma FIFO_replay_same ks c1 c2 :
  FIFO_same c1 c2 →
  snd <$> replay (FIFO c1) ks = snd <$> replay (FIFO c2) ks.
Proof.
  revert c1 c2. induction ks as [|key ks IH]; intros c1 c2 Hsame; [done|].
  simpl. pose proof (FIFO_access_same key c1 c2 Hsame) as Hacc.
  destruct (access key c1) as [[c1' e1]|], (access key c2) as [[c2' e2]|];
    simpl; try done.
  destruct Hacc as [-> Hsame']. specialize (IH c1' c2' Hsame').
  destruct (replay (FIFO c1') ks) as [[p1 es1]|],
           (replay (FIFO c2') ks) as [[p2 es2]|]; simpl in *; congruence.
Qed.

Lemma FIFO_replay_ok cap ks :
  ∃ c es, replay (FIFO (new cap)) ks = Some (FIFO c, es) ∧ FIFO_inv c.
Proof.
  induction ks as [|key ks IH] using rev_ind.
  - exists (new cap), []. split; [done|]. apply FIFO_inv_new.
  - destruct IH as (c & es & Hr & Hinv).
    destruct (FIFO_access_ok key c Hinv) as (c' & e & Hacc & Hinv' & _).
    exists c', (es ++ [e]). split; [|done].
    rewrite replay_app, Hr. simpl. by rewrite Hacc.
Qed.

End fifo_frame.

(** ** Any policy: a key is resident right after it was accessed *)

Lemma access_makes_resident key p p' e :
  policy_inv p → access key p = Some (p', e) → key ∈ resident p'.
Proof.
  intros Hinv Hacc.
  destruct (access_ok key p Hinv) as (p1 & e1 & Hacc1 & _ & _ & Hstep).
  rewrite Hacc in Hacc1. injection Hacc1 as <- <-.
  destruct (ev_outcome e); simpl in Hstep.
  - destruct Hstep as (? & -> & _). done.
  - destruct Hstep as (_ & _ & _ & Hev).
    destruct (ev_evicted e); [destruct Hev as (_ & _ & ->)|destruct Hev as (_ & ->)];
      set_solver.
Qed.

Lemma repeated_access_hits cap policy_type ks i key :
  ks !! i = Some key → ks !! S i = Some key →
  ∃ p es e,
    run (CacheSimulator_new cap ks policy_type) = Some (p, es) ∧
    es !! S i = Some e ∧ ev_outcome e = HIT.
Proof.
  intros H1 H2.
  assert (ks = take i ks ++ [key; key] ++ drop (S (S i)) ks) as Hks.
  { rewrite <- (take_drop_middle ks i key H1) at 1.
    by rewrite (drop_S ks key (S i) H2). }
  assert (length (take i ks) = i) as Hlen.
  { rewrite length_take. apply lookup_lt_Some in H1. lia. }
  unfold run. simpl access_sequence.
  set (p0 := cache (CacheSimulator_new cap ks policy_type)).
  assert (policy_inv p0) as Hinv0 by apply new_inv.
  clearbody p0. revert Hks Hlen.
  generalize (take i ks) (drop (S (S i)) ks). intros ks1 ks3 -> Hlen.
  destruct (replay_ok p0 ks1 Hinv0) as (p1 & es1 & Hr1 & Hinv1 & _).
  destruct (access_ok key p1 Hinv1) as (p2 & e1 & Ha1 & Hinv2 & _).
  destruct (access_ok key p2 Hinv2) as (p3 & e2 & Ha2 & Hinv3 & _ & Hstep).
  destruct (replay_ok p3 ks3 Hinv3) as (p4 & es3 & Hr3 & _).
  exists p4, (es1 ++ e1 :: e2 :: es3), e2. split; [|split].
  - rewrite replay_app, Hr1. simpl. rewrite Ha1. simpl. rewrite Ha2. simpl.
    by rewrite Hr3.
  - apply replay_length in Hr1.
    rewrite lookup_app_r by lia.
    by replace (S i - length es1)%nat with 1%nat by lia.
  - pose proof (access_makes_resident _ _ _ _ Hinv1 Ha1) as Hres.
    destruct (ev_outcome e2); [done|]. by destruct Hstep as [? _].
Qed.

(** ** Any policy: [print_cache_state] lists the resident keys *)

Lemma print_cache_state_resident p :
  policy_inv p →
  match p with
  | LRU c =>
      NoDup (LRUCache.print_cache_state c) ∧
      list_to_set (LRUCache.print_cache_state c) = resident p
  | FIFO c =>
      NoDup (FIFOCache.print_cache_state c) ∧
      list_to_set (FIFOCache.print_cache_state c) = resident p
  | LFU c =>
      ∃ fuel groups,
        LFUCache.print_cache_state fuel c = Some groups ∧
        list_to_set (concat groups.*2) = resident p
  end.
Proof.
  destruct p as [c|c|c]; simpl; intros Hinv.
  - split; [apply Hinv|]. symmetry. by apply LRU_dom.
  - split; apply Hinv.
  - destruct (print_cache_state_ok c Hinv) as (fuel & groups & ? & ? & _).
    by exists fuel, groups.
Qed.

(** An access returns: it does not run into undefined behaviour, and the
    [print_cache_state] that ends it comes to an end. *)
Lemma access_completes key p :
  policy_inv p →
  ∃ p' e,
    access key p = Some (p', e) ∧ policy_inv p' ∧
    match p' with
    | LFU c' => ∃ fuel groups, LFUCache.print_cache_state fuel c' = Some groups
    | _ => True
    end.
Proof.
  intros Hinv. destruct (access_ok key p Hinv) as (p' & e & Hacc & Hinv' & _).
  exists p', e. split; [done|]. split; [done|].
  pose proof (print_cache_state_resident p' Hinv') as Hprint.
  destruct p' as [c'|c'|c']; try done.
  destruct Hprint as (fuel & groups & ? & _). by exists fuel, groups.
Qed.

(** ** The run of [main], evaluated *)

Example main_evictions :
  evictions (scenario "LRU") =
    Some [None; None; None; None; None; Some "B"; None; Some "C"; None;
          Some "D"; Some "E"; Some "B"; None; None] ∧
  evictions (scenario "FIFO") =
    Some [None; None; None; None; None; Some "A"; Some "B"; Some "C"; None;
          Some "D"; Some "E"; Some "A"; None; None] ∧
  evictions (scenario "LFU") = evictions (scenario "LRU").
Proof. split; [|split]; vm_compute; reflexivity. Qed.

Example main_final_state :
  (∃ c es, scenario "LRU" = Some (LRU c, es) ∧
           LRUCache.print_cache_state c = ["C"; "D"; "E"; "A"]) ∧
  (∃ c es, scenario "FIFO" = Some (FIFO c, es) ∧
           FIFOCache.print_cache_state c = ["B"; "C"; "D"; "E"]) ∧
  (∃ c es, scenario "LFU" = Some (LFU c, es) ∧
           LFUCache.print_cache_state 4 c =
             Some [(1, ["E"]); (2, ["C"; "D"]); (4, ["A"])]).
Proof.
  split; [|split]; eexists _, _; (split; [vm_compute; reflexivity|]);
    vm_compute; reflexivity.
Qed.

(** The rates printed by [main]: 35.71 for LRU and LFU, 28.57 for FIFO. *)
Example main_hit_rates :
  (∃ p es, scenario "LRU" = Some (p, es) ∧
           hits (policy_base p) = 5 ∧ misses (policy_base p) = 9 ∧
           hit_rate (policy_base p) = S754_finite false 5026338869833143 (-47)) ∧
  (∃ p es, scenario "FIFO" = Some (p, es) ∧
           hits (policy_base p) = 4 ∧ misses (policy_base p) = 10 ∧
           hit_rate (policy_base p) = S754_finite false 8042142191733028 (-48)) ∧
  (∃ p es, scenario "LFU" = Some (p, es) ∧
           hits (policy_base p) = 5 ∧ misses (policy_base p) = 9 ∧
           hit_rate (policy_base p) = S754_finite false 5026338869833143 (-47)) ∧
  (Qred <$> SF2Q (S754_finite false 5026338869833143 (-47))
     = Some (5026338869833143 # 140737488355328)%Q) ∧
  (3571 # 100 < 5026338869833143 # 140737488355328 < 3572 # 100)%Q.
Proof.
  do 3 (split; [eexists _, _; split; [vm_compute; reflexivity|];
                do 2 (split; [vm_compute; reflexivity|]);
                vm_compute; reflexivity|]).
  split; vm_compute; [reflexivity|]. split; reflexivity.
Qed.

(** The sixth access of [main] under LFU: E arrives at the full cache
    holding A with frequency 2 and B, C, D with frequency 1; B, the one
    touched least recently among these three, is evicted. *)
Example main_lfu_first_eviction :
  ∃ c es c',
    replay (LFU (LFUCache.new 4)) ["A"; "B"; "C"; "D"; "A"] = Some (LFU c, es) ∧
    (λ e : Z * iterator, e.1) <$> LFUCache.cache_map c
      = {[ "A" := 2; "B" := 1; "C" := 1; "D" := 1 ]} ∧
    LFUCache.min_frequency c = 1 ∧
    keys (LFUCache.bucket (LFUCache.freq_map c) 1) = ["D"; "C"; "B"] ∧
    LFUCache.access "E" c = Some (c', Event MISS (Some "B")) ∧
    keys (LFUCache.bucket (LFUCache.freq_map c') 1) = ["E"; "D"; "C"].
Proof.
  eexists _, _, _. split; [vm_compute; reflexivity|].
  do 4 (split; [vm_compute; reflexivity|]). vm_compute; reflexivity.
Qed.

(** The fifth access of [main]: A is resident, and the hit reorders the
    LRU list, leaves the FIFO queue alone and moves A to the list of
    frequency 2 under LFU. *)
Example main_first_hit :
  (∃ c es c',
     replay (LRU (LRUCache.new 4)) ["A"; "B"; "C"; "D"] = Some (LRU c, es) ∧
     LRUCache.print_cache_state c = ["D"; "C"; "B"; "A"] ∧
     LRUCache.access "A" c = Some (c', Event HIT None) ∧
     LRUCache.print_cache_state c' = ["A"; "D"; "C"; "B"]) ∧
  (∃ c es c',
     replay (FIFO (FIFOCache.new 4)) ["A"; "B"; "C"; "D"] = Some (FIFO c, es) ∧
     FIFOCache.print_cache_state c = ["A"; "B"; "C"; "D"] ∧
     FIFOCache.access "A" c = Some (c', Event HIT None) ∧
     FIFOCache.print_cache_state c' = ["A"; "B"; "C"; "D"]) ∧
  (∃ c es c',
     replay (LFU (LFUCache.new 4)) ["A"; "B"; "C"; "D"] = Some (LFU c, es) ∧
     LFUCache.print_cache_state 1 c = Some [(1, ["D"; "C"; "B"; "A"])] ∧
     LFUCache.access "A" c = Some (c', Event HIT None) ∧
     LFUCache.print_cache_state 2 c' = Some [(1, ["D"; "C"; "B"]); (2, ["A"])]).
Proof.
  split; [|split]; eexists _, _, _; (split; [vm_compute; reflexivity|]);
    do 2 (split; [vm_compute; reflexivity|]); vm_compute; reflexivity.
Qed.

(** ** The history of a run *)

Lemma replay_snoc p ks key :
  replay p (ks ++ [key]) =
    '(p1, es) ← replay p ks; '(p2, e) ← access key p1; Some (p2, es ++ [e]).
Proof.
  rewrite replay_app. destruct (replay p ks) as [[p1 es]|]; simpl; [|done].
  by destruct (access key p1) as [[p2 e]|].
Qed.

(** A property of the history, the state and the events that holds at the
    start and is kept by every access holds after every run. *)
Lemma replay_invariant (I : list string → policy → list event → Prop) p0 :
  policy_inv p0 → I [] p0 [] →
  (∀ ks p es key p' e,
     policy_inv p → policy_inv p' → replay p0 ks = Some (p, es) → I ks p es →
     access key p = Some (p', e) →
     step_ok key (policy_base p) (resident p) (policy_base p') (resident p') e →
     I (ks ++ [key]) p' (es ++ [e])) →
  ∀ ks, ∃ p es, replay p0 ks = Some (p, es) ∧ policy_inv p ∧ I ks p es.
Proof.
  intros Hinv0 H0 Hstep ks. induction ks as [|key ks IH] using rev_ind.
  - by exists p0, [].
  - destruct IH as (p & es & Hr & Hinv & HI).
    destruct (access_ok key p Hinv) as (p' & e & Hacc & Hinv' & Hok).
    exists p', (es ++ [e]). split; [|split; [done|]].
    + rewrite replay_snoc, Hr. simpl. by rewrite Hacc.
    + exact (Hstep _ _ _ _ _ _ Hinv Hinv' Hr HI Hacc Hok).
Qed.

Section generic.

Implicit Types (p : policy) (ks : list string) (es : list event).

Lemma evicted_keys_snoc es e :
  evicted_keys (es ++ [e]) =
    evicted_keys es ++ (match ev_evicted e with Some v => [v] | None => [] end).
Proof.
  unfold evicted_keys. rewrite omap_app. simpl. by destruct (ev_evicted e).
Qed.

Lemma count_outcome_snoc o es e :
  count_outcome o (es ++ [e]) =
    count_outcome o es + (if decide (ev_outcome e = o) then 1 else 0).
Proof.
  unfold count_outcome. rewrite filter_app, length_app.
  case_decide.
  - rewrite filter_cons_True by done. simpl. lia.
  - rewrite filter_cons_False by done. simpl. lia.
Qed.

Lemma elem_of_seen ks k : k ∈ (list_to_set ks : gset string) ↔ k ∈ ks.
Proof. apply elem_of_list_to_set. Qed.

Lemma size_seen_snoc ks key :
  size (list_to_set (ks ++ [key]) : gset string) =
    if decide (key ∈ ks) then size (list_to_set ks : gset string)
    else S (size (list_to_set ks : gset string)).
Proof.
  rewrite list_to_set_app_L. simpl. rewrite union_empty_r_L.
  case_decide as Hin.
  - f_equal. apply elem_of_seen in Hin. set_solver.
  - rewrite <- elem_of_seen in Hin.
    rewrite size_union, size_singleton by set_solver. lia.
Qed.

Lemma working_set_step ks p es key p' e :
  working_set ks p es →
  step_ok key (policy_base p) (resident p) (policy_base p') (resident p') e →
  working_set (ks ++ [key]) p' (es ++ [e]).
Proof.
  intros (Hsub & Hsize & Hfit) [Hcap Hstep]. unfold working_set.
  rewrite Hcap, evicted_keys_snoc, count_outcome_snoc, size_seen_snoc.
  rewrite list_to_set_app_L. simpl. rewrite union_empty_r_L.
  assert (size (resident p) ≤ size (list_to_set ks : gset string))%nat as Hle
    by by apply subseteq_size.
  destruct (ev_outcome e) eqn:Ho.
  - destruct Hstep as (Hin & -> & _ & _ & ->).
    assert (key ∈ ks) as Hks by (apply elem_of_seen; set_solver).
    rewrite (decide_True (P := key ∈ ks)) by done.
    rewrite (decide_False (P := HIT = MISS)) by done.
    split; [set_solver|]. split; [done|]. intros Hs.
    destruct (Hfit Hs) as [-> ->]. split; [done|lia].
  - destruct Hstep as (Hnin & _ & _ & Hev).
    rewrite (decide_True (P := MISS = MISS)) by done.
    destruct (ev_evicted e) as [v|].
    + destruct Hev as (Hv & Hfull & ->).
      assert (size ({[key]} ∪ resident p ∖ {[v]}) = capacity (policy_base p)) as Hs'.
      { rewrite size_union, size_singleton by set_solver.
        rewrite size_difference by set_solver. rewrite size_singleton.
        assert (size (resident p) ≠ 0)%nat; [|lia].
        intros Hz%size_empty_iff. set_solver. }
      split; [set_solver|]. split.
      * rewrite Hs'. case_decide; lia.
      * intros Hs. exfalso. case_decide as Hks; [|lia].
        assert (resident p = list_to_set ks) as Heq
          by (apply set_subseteq_size_eq; [done|lia]).
        apply Hnin. rewrite Heq. by apply elem_of_seen.
    + destruct Hev as (Hlt & ->).
      assert (resident p = list_to_set ks) as Heq
        by (apply set_subseteq_size_eq; [done|lia]).
      assert (key ∉ ks) as Hks.
      { intros Hks%elem_of_seen. apply Hnin. by rewrite Heq. }
      rewrite decide_False by done.
      split; [set_solver|]. split.
      * rewrite size_union, size_singleton by set_solver. lia.
      * intros Hs. destruct Hfit as [-> ->]; [lia|].
        rewrite app_nil_r. split; [done|lia].
Qed.

Lemma alive_step ks p es key p' e :
  length es = length ks →
  (∀ k, k ∈ resident p ↔ alive ks es k) →
  step_ok key (policy_base p) (resident p) (policy_base p') (resident p') e →
  ∀ k, k ∈ resident p' ↔ alive (ks ++ [key]) (es ++ [e]) k.
Proof.
  intros Hlen Halive [_ Hstep] k.
  assert (ev_evicted e ≠ Some k → k ≠ key →
          alive (ks ++ [key]) (es ++ [e]) k ↔ alive ks es k) as Hold.
  { intros Hv Hne. split; intros (i & Hi & Hev).
    - apply lookup_app_Some in Hi as [Hi|[_ Hi]].
      + exists i. split; [done|]. intros j e' Hj. apply Hev.
        by apply lookup_app_l_Some.
      + apply list_lookup_singleton_Some in Hi as [_ ?]. congruence.
    - exists i. split; [by apply lookup_app_l_Some|].
      intros j e' Hj He'. apply lookup_app_Some in Hj as [Hj|[_ Hj]].
      + by eapply Hev.
      + apply list_lookup_singleton_Some in Hj as [_ <-]. done. }
  assert (ev_evicted e ≠ Some key → alive (ks ++ [key]) (es ++ [e]) key) as Hnew.
  { intros Hv. exists (length ks). split.
    - by rewrite lookup_app_r, Nat.sub_diag.
    - intros j e' Hj He'. apply lookup_app_Some in Hj as [Hj|[_ Hj]].
      + apply lookup_lt_Some in Hj. lia.
      + apply list_lookup_singleton_Some in Hj as [_ <-]. done. }
  destruct (ev_outcome e) eqn:Ho.
  - destruct Hstep as (Hin & -> & _ & _ & Hnone). rewrite Hnone in Hold, Hnew.
    destruct (decide (k = key)) as [->|Hne].
    + split; [|done]. intros _. by apply Hnew.
    + by rewrite Hold.
  - destruct Hstep as (Hnin & _ & _ & Hev).
    destruct (ev_evicted e) as [v|] eqn:He.
    + destruct Hev as (Hv & _ & ->).
      assert (v ≠ key) by (intros ->; done).
      destruct (decide (k = key)) as [->|Hne].
      * split; [|set_solver]. intros _. apply Hnew. congruence.
      * destruct (decide (k = v)) as [->|Hkv].
        -- split; [set_solver|]. intros (i & Hi & Hlater). exfalso.
           apply lookup_app_Some in Hi as [Hi|[_ Hi]].
           ++ apply lookup_lt_Some in Hi.
              specialize (Hlater (length es) e).
              rewrite lookup_app_r, Nat.sub_diag in Hlater by done.
              specialize (Hlater eq_refl He). lia.
           ++ apply list_lookup_singleton_Some in Hi as [_ ?]. congruence.
        -- rewrite Hold by congruence. rewrite <- Halive. set_solver.
    + destruct Hev as (_ & ->).
      destruct (decide (k = key)) as [->|Hne].
      * split; [|set_solver]. intros _. by apply Hnew.
      * rewrite Hold by done. rewrite <- Halive. set_solver.
Qed.

End generic.

Lemma run_working_set cap policy_type ks :
  ∃ p es,
    run (CacheSimulator_new cap ks policy_type) = Some (p, es) ∧ policy_inv p ∧
    length es = length ks ∧ working_set ks p es ∧
    (∀ k, k ∈ resident p ↔ alive ks es k).
Proof.
  unfold run. simpl access_sequence.
  set (p0 := cache (CacheSimulator_new cap ks policy_type)).
  assert (policy_inv p0) as Hinv0 by apply new_inv.
  assert (resident p0 = ∅) as Hres0.
  { unfold p0, CacheSimulator_new. simpl. repeat case_decide; simpl; by rewrite ?dom_empty_L. }
  assert (1 ≤ capacity (policy_base p0))%nat as Hcap0.
  { unfold p0. rewrite new_capacity. lia. }
  clearbody p0.
  apply (replay_invariant
           (λ ks p es, length es = length ks ∧ working_set ks p es ∧
                       ∀ k, k ∈ resident p ↔ alive ks es k)); [done| |].
  - split; [done|]. split.
    + unfold working_set. rewrite Hres0, list_to_set_nil, size_empty.
      split; [done|]. split; [lia|]. done.
    + intros k. rewrite Hres0. split; [set_solver|].
      by intros (i & Hi & _).
  - intros ks' p es key p' e _ _ _ (Hlen & Hws & Halive) _ Hstep.
    split; [rewrite !length_app; simpl; lia|]. split.
    + exact (working_set_step _ _ _ _ _ _ Hws Hstep).
    + exact (alive_step _ _ _ _ _ _ Hlen Halive Hstep).
Qed.

Section lru_recency.

Import LRUCache.

Implicit Types (c : t) (ks : list string) (key : string).

(** What [access] does to the list: the node of [key] is put in front of
    what remains of the old list. *)
Lemma LRU_access_list key c c' e :
  LRU_inv c → access key c = Some (c', e) →
  ∃ it l1,
    lru_list c' = (it, key) :: l1 ∧ (key ∉ keys l1) ∧
    ((ev_outcome e = HIT ∧ ev_evicted e = None ∧
      (it, key) ∈ lru_list c ∧ l1 = unlink it (lru_list c)) ∨
     (ev_outcome e = MISS ∧ ev_evicted e = None ∧ (key ∉ keys (lru_list c)) ∧
      l1 = lru_list c) ∨
     (ev_outcome e = MISS ∧ (key ∉ keys (lru_list c)) ∧
      ∃ itv v, ev_evicted e = Some v ∧ lru_list c = l1 ++ [(itv, v)])).
Proof.
  intros [Hcap Hnodes Hkeys Hmap Hfresh Hlen]. unfold access.
  destruct (cache_map c !! key) as [it|] eqn:Hk.
  - assert ((it, key) ∈ lru_list c) as Hin by by apply Hmap.
    rewrite (splice_front_Some _ _ key) by done. simpl.
    intros [= <- <-]. simpl. exists it, (unlink it (lru_list c)).
    split; [done|]. split; [|left; done].
    intros [it' [Hin' Hne]%elem_of_unlink]%elem_of_keys. simpl in Hne.
    apply Hne. by apply (node_it_unique (lru_list c) it' it key).
  - assert (key ∉ keys (lru_list c)) as Hnew.
    { rewrite elem_of_keys. intros [it Hit]. apply Hmap in Hit. congruence. }
    simpl. case_decide as Hfull; simpl.
    + destruct (nonempty_snoc (lru_list c)) as (l0 & itv & v & Hl).
      { intros E. rewrite E in Hfull. simpl in Hfull. lia. }
      rewrite Hl, back_snoc, pop_back_snoc. simpl.
      intros [= <- <-]. simpl. exists (heap c), l0. split; [done|].
      rewrite Hl in Hnew. unfold keys in *. rewrite fmap_app in Hnew.
      split; [set_solver|]. right. right. split; [done|].
      split; [by rewrite fmap_app|]. by exists itv, v.
    + intros [= <- <-]. simpl. exists (heap c), (lru_list c).
      split; [done|]. split; [done|]. right. left. done.
Qed.

Lemma LRU_access_recency ks key c c' e :
  LRU_inv c → LRU_recency ks c → access key c = Some (c', e) →
  LRU_recency (ks ++ [key]) c'.
Proof.
  intros Hinv (Hsort & _ & Hincl) Hacc.
  destruct (LRU_access_list key c c' e Hinv Hacc) as (it & l1 & Hl' & Hnew & Hcase).
  unfold LRU_recency. rewrite Hl'. clear Hl'.
  assert (StronglySorted (later ks) (keys l1)) as Hsort1.
  { destruct Hcase as [(_ & _ & _ & ->)|[(_ & _ & _ & ->)|(_ & _ & itv & v & _ & Hl)]].
    - by apply StronglySorted_keys_unlink.
    - done.
    - rewrite Hl in Hsort. unfold keys in *. rewrite fmap_app in Hsort.
      by apply StronglySorted_app_1_l in Hsort. }
  assert (∀ k r, k ∈ keys l1 → r ≠ key → r ∉ keys l1 → later ks k r) as Hincl1.
  { intros k r Hk Hr Hr1.
    destruct Hcase as [(_ & _ & Hin & ->)|[(_ & _ & _ & ->)|(_ & _ & itv & v & _ & Hl)]].
    - apply Hincl.
      + apply elem_of_keys in Hk as [i [Hi _]%elem_of_unlink].
        apply elem_of_keys. by exists i.
      + intros [i Hi]%elem_of_keys. apply Hr1, elem_of_keys. exists i.
        apply elem_of_unlink. split; [done|]. simpl. intros ->.
        apply Hr. by apply (node_key_unique (lru_list c) it r key); [apply Hinv|..].
    - by apply Hincl.
    - rewrite Hl in Hsort, Hincl. unfold keys in *.
      rewrite fmap_app in Hsort. simpl in Hsort.
      destruct (decide (r = v)) as [->|Hrv].
      + eapply StronglySorted_app_1_elem_of; [done..|set_solver].
      + apply Hincl; rewrite fmap_app; set_solver. }
  split; [|split].
  - unfold keys. simpl. apply StronglySorted_cons. split.
    + apply Forall_forall. intros b Hb. apply later_snoc_new. intros ->. done.
    + by apply StronglySorted_later_snoc.
  - unfold keys. simpl. by rewrite last_snoc.
  - unfold keys. simpl. fold (keys l1). intros k r Hk Hr.
    apply not_elem_of_cons in Hr as [Hr Hr1].
    apply elem_of_cons in Hk as [->|Hk].
    + by apply later_snoc_new.
    + apply later_snoc_old; [done|]. by apply Hincl1.
Qed.

Lemma LRU_replay_ok cap ks :
  ∃ c es, replay (LRU (new cap)) ks = Some (LRU c, es) ∧
          LRU_inv c ∧ LRU_recency ks c.
Proof.
  induction ks as [|key ks IH] using rev_ind.
  - exists (new cap), []. split; [done|]. split; [apply LRU_inv_new|].
    split; [constructor|]. split; [done|]. by intros k r ?%elem_of_nil.
  - destruct IH as (c & es & Hr & Hinv & Hrec).
    destruct (LRU_access_ok key c Hinv) as (c' & e & Hacc & Hinv' & _).
    exists c', (es ++ [e]). split; [|split; [done|]].
    + rewrite replay_snoc, Hr. simpl. by rewrite Hacc.
    + exact (LRU_access_recency _ _ _ _ _ Hinv Hrec Hacc).
Qed.

End lru_recency.

Section fifo_order.

Import FIFOCache.

Lemma missed_keys_snoc ks es key e :
  length ks = length es →
  missed_keys (ks ++ [key]) (es ++ [e]) =
  missed_keys ks es ++ (if decide (ev_outcome e = MISS) then [key] else []).
Proof.
  intros Hlen. unfold missed_keys.
  rewrite zip_with_app by done. rewrite filter_app, fmap_app. f_equal.
  simpl. rewrite filter_cons, filter_nil. simpl. by case_decide.
Qed.

Lemma FIFO_access_queue key c c' e :
  access key c = Some (c', e) →
  (ev_outcome e = HIT ∧ ev_evicted e = None ∧ fifo_queue c' = fifo_queue c) ∨
  (ev_outcome e = MISS ∧
   (if decide (ev_outcome e = MISS) then [key] else []) = [key] ∧
   omap ev_evicted [e] ++ fifo_queue c' = fifo_queue c ++ [key]).
Proof.
  unfold access. case_decide as Hin.
  - intros [= <- <-]. by left.
  - simpl. case_decide as Hfull; simpl.
    + destruct (fifo_queue c) as [|k q] eqn:Hq; [done|]. simpl.
      intros [= <- <-]. right. simpl. done.
    + intros [= <- <-]. right. simpl. done.
Qed.

Lemma FIFO_replay_order cap ks :
  ∃ c es, replay (FIFO (new cap)) ks = Some (FIFO c, es) ∧ FIFO_inv c ∧
          length es = length ks ∧
          missed_keys ks es = evicted_keys es ++ fifo_queue c.
Proof.
  induction ks as [|key ks IH] using rev_ind.
  - exists (new cap), []. split; [done|]. split; [apply FIFO_inv_new|]. done.
  - destruct IH as (c & es & Hr & Hinv & Hlen & Hord).
    destruct (FIFO_access_ok key c Hinv) as (c' & e & Hacc & Hinv' & _).
    exists c', (es ++ [e]). split.
    { rewrite replay_snoc, Hr. simpl. by rewrite Hacc. }
    split; [done|]. split; [rewrite !length_app; simpl; lia|].
    rewrite missed_keys_snoc by done. rewrite Hord. unfold evicted_keys.
    rewrite omap_app.
    destruct (FIFO_access_queue key c c' e Hacc) as [(Hh & Hn & Hq)|(Hm & Hd & Hq)].
    + rewrite decide_False by (rewrite Hh; done). simpl. rewrite Hn. simpl.
      by rewrite Hq, !app_nil_r.
    + rewrite Hd, <- !app_assoc. f_equal. done.
Qed.

End fifo_order.

Section lfu_snapshot.

Import LFUCache.

Lemma print_loop_more_fuel c fuel fuel' current n groups :
  (fuel ≤ fuel')%nat →
  print_loop fuel c current n = Some groups →
  print_loop fuel' c current n = Some groups.
Proof.
  revert fuel' current n groups.
  induction fuel as [|fuel IH]; intros fuel' current n groups Hle; simpl.
  - case_decide; [done|]. intros [= <-].
    destruct fuel'; simpl; by rewrite decide_False.
  - destruct fuel' as [|fuel']; [lia|]. simpl. case_decide; [|done].
    destruct (freq_map c !! current) as [[|nd l]|].
    + apply IH. lia.
    + destruct (print_loop fuel c _ _) as [rest|] eqn:Hrest; [|done].
      simpl. intros [= <-]. by rewrite (IH fuel' _ _ rest ltac:(lia) Hrest).
    + apply IH. lia.
Qed.

Lemma print_cache_state_more_fuel c fuel fuel' groups :
  (fuel ≤ fuel')%nat →
  print_cache_state fuel c = Some groups →
  print_cache_state fuel' c = Some groups.
Proof.
  unfold print_cache_state. case_decide; [done|].
  apply print_loop_more_fuel.
Qed.

(** Lists printed for increasing frequencies share no key. *)
Lemma NoDup_groups c (groups : list (Z * list string)) :
  LFU_inv c →
  Forall (λ g, g.2 = keys (bucket (freq_map c) g.1)) groups →
  StronglySorted Z.lt groups.*1 →
  NoDup (concat groups.*2).
Proof.
  intros Hinv. pose proof (lfu_map _ _ _ (lfu_links _ Hinv)) as Hmap.
  induction groups as [|[f l] groups IH]; simpl; [constructor|].
  intros [Hl Hall]%Forall_cons [Hsort Hlt]%StronglySorted_inv. simpl in Hl.
  apply NoDup_app. split; [|split; [|by apply IH]].
  - subst l. eapply LFU_links_keys, lfu_links, Hinv.
  - intros k Hk Hin. subst l.
    apply elem_of_keys in Hk as [it Hk%Hmap].
    apply list_elem_of_In, in_concat in Hin as (l' & Hl' & Hkl').
    apply list_elem_of_In in Hl', Hkl'.
    apply list_elem_of_fmap in Hl' as ([f' l''] & -> & Hg). simpl in Hkl'.
    rewrite Forall_forall in Hall. pose proof (Hall _ Hg) as Hl''. simpl in Hl''.
    subst l''. apply elem_of_keys in Hkl' as [it' Hk'%Hmap].
    rewrite Forall_forall in Hlt.
    assert (f < f') as Hff.
    { apply Hlt. apply list_elem_of_fmap. by exists (f', keys (bucket (freq_map c) f')). }
    rewrite Hk in Hk'. injection Hk' as -> _. lia.
Qed.

End lfu_snapshot.

Section lfu_frequency.

Import LFUCache.

Lemma LFU_access_cache_map key c c' e :
  LFU_inv c → access key c = Some (c', e) →
  (∃ f it, cache_map c !! key = Some (f, it) ∧ ev_outcome e = HIT ∧
           cache_map c' = <[key := (f + 1, heap c)]> (cache_map c)) ∨
  (cache_map c !! key = None ∧ ev_outcome e = MISS ∧
   ∃ m, cache_map c' = <[key := (1, heap c)]> m ∧
        (m = cache_map c ∨ ∃ v, m = delete v (cache_map c))).
Proof.
  intros Hinv. pose proof (lfu_map _ _ _ (lfu_links _ Hinv)) as Hmap.
  unfold access. destruct (cache_map c !! key) as [[f it]|] eqn:Hk.
  - assert ((it, key) ∈ bucket (freq_map c) f) as Hin by by apply Hmap.
    rewrite update_frequency_Some by done. simpl.
    intros [= <- <-]. left. exists f, it. done.
  - simpl. case_decide; simpl.
    + destruct (back _) as [v|]; simpl; [|done].
      destruct (begin _) as [b|] eqn:Hb; simpl; [|done].
      intros [= <- <-]. right. split; [done|]. split; [done|]. simpl.
      exists (delete v (cache_map c)). split; [|right; by exists v].
      f_equal. f_equal. unfold bucket in Hb. rewrite lookup_insert_eq in Hb.
      unfold push_front, begin in Hb. simpl in Hb. congruence.
    + destruct (begin _) as [b|] eqn:Hb; simpl; [|done].
      intros [= <- <-]. right. split; [done|]. split; [done|]. simpl.
      exists (cache_map c). split; [|by left].
      f_equal. f_equal. unfold bucket in Hb. rewrite lookup_insert_eq in Hb.
      unfold push_front, begin in Hb. simpl in Hb. congruence.
Qed.

Lemma loaded_at_lt ks es k i : loaded_at ks es k i → (i < length ks)%nat.
Proof. intros [Hi _]. by apply lookup_lt_Some in Hi. Qed.

Lemma loaded_at_other ks es k i key e :
  length es = length ks → k ≠ key →
  loaded_at ks es k i → loaded_at (ks ++ [key]) (es ++ [e]) k i.
Proof.
  intros Hlen Hne Hl. pose proof (loaded_at_lt _ _ _ _ Hl) as Hlt.
  destruct Hl as (Hi & (e0 & He0 & Hm) & Hlater). split; [|split].
  - by rewrite lookup_app_l.
  - exists e0. by rewrite lookup_app_l by lia.
  - intros j e' Hij Hj He'.
    destruct (decide (j < length ks)%nat) as [Hjl|Hjl].
    + rewrite lookup_app_l in Hj by done. rewrite lookup_app_l in He' by lia.
      by eapply Hlater.
    + rewrite lookup_app_r in Hj by lia.
      apply list_lookup_singleton_Some in Hj as [_ ?]. congruence.
Qed.

Lemma loaded_at_hit ks es k i e :
  length es = length ks → ev_outcome e = HIT →
  loaded_at ks es k i → loaded_at (ks ++ [k]) (es ++ [e]) k i.
Proof.
  intros Hlen Hhit Hl. pose proof (loaded_at_lt _ _ _ _ Hl) as Hlt.
  destruct Hl as (Hi & (e0 & He0 & Hm) & Hlater). split; [|split].
  - by rewrite lookup_app_l.
  - exists e0. by rewrite lookup_app_l by lia.
  - intros j e' Hij Hj He'.
    destruct (decide (j < length ks)%nat) as [Hjl|Hjl].
    + rewrite lookup_app_l in Hj by done. rewrite lookup_app_l in He' by lia.
      by eapply Hlater.
    + rewrite lookup_app_r in He' by lia.
      apply list_lookup_singleton_Some in He' as [_ ?]. congruence.
Qed.

Lemma loaded_at_miss ks es k e :
  length es = length ks → ev_outcome e = MISS →
  loaded_at (ks ++ [k]) (es ++ [e]) k (length ks).
Proof.
  intros Hlen Hm. split; [|split].
  - rewrite lookup_app_r by lia. by rewrite Nat.sub_diag.
  - exists e. split; [|done]. rewrite lookup_app_r by lia.
    by replace (length ks - length es)%nat with 0%nat by lia.
  - intros j e' Hij Hj%lookup_lt_Some. rewrite length_app in Hj. simpl in Hj. lia.
Qed.

Lemma uses_from_snoc ks k i key :
  (i ≤ length ks)%nat →
  uses_from (ks ++ [key]) k i =
  uses_from ks k i + (if decide (key = k) then 1 else 0).
Proof.
  intros Hi. unfold uses_from. rewrite drop_app_le by done.
  rewrite filter_app, length_app, filter_cons, filter_nil.
  case_decide; simpl; lia.
Qed.

Lemma LFU_replay_frequency cap ks :
  ∃ c es, replay (LFU (new cap)) ks = Some (LFU c, es) ∧ LFU_inv c ∧
          length es = length ks ∧
          ∀ k f it, cache_map c !! k = Some (f, it) →
            ∃ i, loaded_at ks es k i ∧ f = uses_from ks k i.
Proof.
  induction ks as [|key ks IH] using rev_ind.
  - exists (new cap), []. split; [done|]. split; [apply LFU_inv_new|].
    split; [done|]. intros k f it. simpl. by rewrite lookup_empty.
  - destruct IH as (c & es & Hr & Hinv & Hlen & Hfreq).
    destruct (LFU_access_ok key c Hinv) as (c' & e & Hacc & Hinv' & _).
    exists c', (es ++ [e]). split.
    { rewrite replay_snoc, Hr. simpl. by rewrite Hacc. }
    split; [done|]. split; [rewrite !length_app; simpl; lia|].
    assert (∀ k f it, k ≠ key → cache_map c !! k = Some (f, it) →
              ∃ i, loaded_at (ks ++ [key]) (es ++ [e]) k i ∧
                   f = uses_from (ks ++ [key]) k i) as Hother.
    { intros k f it Hne Hk. destruct (Hfreq _ _ _ Hk) as (i & Hl & ->).
      exists i. split; [by apply loaded_at_other|].
      rewrite uses_from_snoc by (apply loaded_at_lt in Hl; lia).
      rewrite decide_False by done. lia. }
    intros k f it.
    destruct (LFU_access_cache_map key c c' e Hinv Hacc)
      as [(f0 & it0 & Hk0 & Hhit & ->)|(Hnone & Hmiss & m & -> & Hm)].
    + destruct (decide (k = key)) as [->|Hne].
      * rewrite lookup_insert_eq. intros [= <- _].
        destruct (Hfreq _ _ _ Hk0) as (i & Hl & ->).
        exists i. split; [by apply loaded_at_hit|].
        rewrite uses_from_snoc by (apply loaded_at_lt in Hl; lia).
        by rewrite decide_True.
      * rewrite lookup_insert_ne by done. by apply (Hother k f it).
    + destruct (decide (k = key)) as [->|Hne].
      * rewrite lookup_insert_eq. intros [= <- _].
        exists (length ks). split; [by apply loaded_at_miss|].
        unfold uses_from. rewrite drop_app_length. simpl.
        rewrite filter_cons, filter_nil. by rewrite decide_True.
      * rewrite lookup_insert_ne by done.
        destruct Hm as [->|[v ->]]; [by apply (Hother k f it)|].
        intros [_ Hk]%lookup_delete_Some. by apply (Hother k f it).
Qed.

End lfu_frequency.

Lemma one_slot_step ks p es key p' e :
  one_slot ks p es →
  step_ok key (policy_base p) (resident p) (policy_base p') (resident p') e →
  one_slot (ks ++ [key]) p' (es ++ [e]).
Proof.
  intros (Hcap & Hlen & Hres & Hev) [Hcap' Hstep].
  assert (∀ i k e0, (i < length ks)%nat →
            (ks ++ [key]) !! i = Some k → (es ++ [e]) !! i = Some e0 →
            match i with
            | O => e0 = Event MISS None
            | S j => ((ks ++ [key]) !! j = Some k ∧ e0 = Event HIT None) ∨
                     ((ks ++ [key]) !! j ≠ Some k ∧ e0 = Event MISS ((ks ++ [key]) !! j))
            end) as Hold.
  { intros i k e0 Hi Hk He0.
    rewrite lookup_app_l in Hk by done. rewrite lookup_app_l in He0 by lia.
    specialize (Hev i k e0 Hk He0). destruct i as [|j]; [done|].
    by rewrite lookup_app_l by lia. }
  assert (∀ i k e0, ¬ (i < length ks)%nat →
            (ks ++ [key]) !! i = Some k → (es ++ [e]) !! i = Some e0 →
            i = length ks ∧ k = key ∧ e0 = e) as Hnew.
  { intros i k e0 Hi Hk He0.
    rewrite lookup_app_r in Hk by lia. rewrite lookup_app_r in He0 by lia.
    apply list_lookup_singleton_Some in Hk as [Hi' ->].
    apply list_lookup_singleton_Some in He0 as [_ ->]. split; [lia|done]. }
  split; [lia|]. split; [rewrite !length_app; simpl; lia|].
  rewrite last_snoc. simpl. rewrite union_empty_r_L.
  destruct e as [o ev]. simpl in Hstep. destruct o.
  - destruct Hstep as (Hin & -> & _ & _ & ->).
    rewrite Hres in Hin. destruct (last ks) as [k0|] eqn:Hlast; simpl in Hin;
      [|set_solver].
    assert (k0 = key) as -> by set_solver.
    split; [rewrite Hres; simpl; set_solver|].
    intros i k e0 Hk He0. destruct (decide (i < length ks)%nat) as [Hi|Hi].
    { by apply Hold. }
    destruct (Hnew i k e0 Hi Hk He0) as (-> & -> & ->).
    rewrite last_lookup in Hlast. destruct ks as [|k1 ks1]; [done|].
    simpl length in *. simpl pred in Hlast.
    left. split; [|done]. rewrite lookup_app_l by (simpl; lia). done.
  - destruct Hstep as (Hnin & _ & _ & Hevict).
    destruct ev as [v|].
    + destruct Hevict as (Hv & _ & ->). rewrite Hres in Hv, Hnin |- *.
      destruct (last ks) as [k0|] eqn:Hlast; simpl in Hv; [|set_solver].
      assert (k0 = v) as -> by set_solver. simpl in Hnin.
      split; [simpl; set_solver|].
      intros i k e0 Hk He0. destruct (decide (i < length ks)%nat) as [Hi|Hi].
      { by apply Hold. }
      destruct (Hnew i k e0 Hi Hk He0) as (-> & -> & ->).
      rewrite last_lookup in Hlast. destruct ks as [|k1 ks1]; [done|].
      simpl length in *. simpl pred in Hlast.
      right. rewrite lookup_app_l by (simpl; lia). rewrite Hlast.
      split; [|done]. intros [= ->]. set_solver.
    + destruct Hevict as (Hsize & ->). rewrite Hcap in Hsize.
      assert (resident p = ∅) as Hempty by (apply leibniz_equiv, size_empty_inv; lia).
      rewrite Hempty. split; [set_solver|].
      intros i k e0 Hk He0. destruct (decide (i < length ks)%nat) as [Hi|Hi].
      { by apply Hold. }
      destruct (Hnew i k e0 Hi Hk He0) as (-> & -> & ->).
      rewrite Hempty in Hres. destruct (last ks) as [k0|] eqn:Hlast.
      { simpl in Hres. set_solver. }
      apply last_None in Hlast as ->. done.
Qed.

Section lru_stack.

Import LRUCache.

Lemma later_asym ks a b : later ks a b → later ks b a → False.
Proof.
  intros (j1 & Ha & Hb) (j2 & Hb' & Ha').
  specialize (Hb _ Hb'). specialize (Ha' _ Ha). lia.
Qed.

Lemma LRU_run_state cap ks c es :
  replay (LRU (new cap)) ks = Some (LRU c, es) →
  LRU_inv c ∧
  size (dom (cache_map c)) =
    Nat.min (Nat.max 1 cap) (size (list_to_set ks : gset string)) ∧
  ∀ k r, k ∈ dom (cache_map c) → r ∉ dom (cache_map c) → later ks k r.
Proof.
  intros Hrun.
  destruct (LRU_replay_ok cap ks) as (c1 & es1 & Hrun1 & Hinv & _ & _ & Hincl).
  rewrite Hrun in Hrun1. injection Hrun1 as <- <-.
  destruct (run_working_set cap "LRU" ks)
    as (p & es2 & Hrun2 & _ & _ & (_ & Hsize & _) & _).
  destruct (run_ok cap ks "LRU") as (p3 & es3 & Hrun3 & _ & Hcap).
  rewrite Hrun2 in Hrun3. injection Hrun3 as <- <-.
  change (run (CacheSimulator_new cap ks "LRU"))
    with (replay (LRU (new cap)) ks) in Hrun2.
  rewrite Hrun in Hrun2. injection Hrun2 as <- <-.
  split; [done|]. split; [by rewrite <- Hcap|].
  intros k r. rewrite (LRU_dom c Hinv), !elem_of_list_to_set. apply Hincl.
Qed.

(** The keys an LRU cache holds are held by every larger LRU cache that
    has seen the same accesses. *)
Lemma LRU_stack cap1 cap2 ks c1 es1 c2 es2 :
  (cap1 ≤ cap2)%nat →
  replay (LRU (new cap1)) ks = Some (LRU c1, es1) →
  replay (LRU (new cap2)) ks = Some (LRU c2, es2) →
  dom (cache_map c1) ⊆ dom (cache_map c2).
Proof.
  intros Hle Hr1 Hr2.
  destruct (LRU_run_state _ _ _ _ Hr1) as (_ & Hsize1 & Hrec1).
  destruct (LRU_run_state _ _ _ _ Hr2) as (_ & Hsize2 & Hrec2).
  intros k Hk1. destruct (decide (k ∈ dom (cache_map c2))) as [|Hk2]; [done|].
  exfalso.
  destruct (decide (dom (cache_map c2) ∖ dom (cache_map c1) = ∅)) as [Hempty|Hne].
  - assert (dom (cache_map c2) ⊂ dom (cache_map c1)) as Hsub.
    { split.
      - intros x Hx. destruct (decide (x ∈ dom (cache_map c1))) as [|Hx1]; [done|].
        assert (x ∈ dom (cache_map c2) ∖ dom (cache_map c1)) as Hd
          by by apply elem_of_difference.
        rewrite Hempty in Hd. by apply elem_of_empty in Hd.
      - intros Hsub. by apply Hk2, Hsub. }
    apply subset_size in Hsub. lia.
  - apply set_choose_L in Hne as [r [Hin2 Hnin1]%elem_of_difference].
    exact (later_asym ks k r (Hrec1 _ _ Hk1 Hnin1) (Hrec2 _ _ Hin2 Hk2)).
Qed.

Lemma count_outcome_HIT_mono es1 es2 :
  Forall2 (λ e1 e2, ev_outcome e1 = HIT → ev_outcome e2 = HIT) es1 es2 →
  count_outcome HIT es1 ≤ count_outcome HIT es2.
Proof.
  unfold count_outcome. intros H. apply inj_le.
  induction H as [|e1 e2 es1 es2 He _ IH]; [done|].
  rewrite !filter_cons. destruct (decide (ev_outcome e1 = HIT)) as [H1|H1].
  - rewrite decide_True by auto. simpl. lia.
  - case_decide; simpl; lia.
Qed.

Lemma LRU_stack_events cap1 cap2 ks :
  (cap1 ≤ cap2)%nat →
  ∃ c1 es1 c2 es2,
    replay (LRU (new cap1)) ks = Some (LRU c1, es1) ∧
    replay (LRU (new cap2)) ks = Some (LRU c2, es2) ∧
    LRU_inv c1 ∧ LRU_inv c2 ∧
    Forall2 (λ e1 e2, ev_outcome e1 = HIT → ev_outcome e2 = HIT) es1 es2.
Proof.
  intros Hle. induction ks as [|key ks IH] using rev_ind.
  - exists (new cap1), [], (new cap2), [].
    split; [done|]. split; [done|]. split; [apply LRU_inv_new|].
    split; [apply LRU_inv_new|]. constructor.
  - destruct IH as (c1 & es1 & c2 & es2 & Hr1 & Hr2 & Hinv1 & Hinv2 & Hall).
    destruct (LRU_access_ok key c1 Hinv1) as (c1' & e1 & Hacc1 & Hinv1' & _ & Hs1).
    destruct (LRU_access_ok key c2 Hinv2) as (c2' & e2 & Hacc2 & Hinv2' & _ & Hs2).
    exists c1', (es1 ++ [e1]), c2', (es2 ++ [e2]).
    split. { rewrite replay_snoc, Hr1. simpl. by rewrite Hacc1. }
    split. { rewrite replay_snoc, Hr2. simpl. by rewrite Hacc2. }
    split; [done|]. split; [done|].
    apply Forall2_app; [done|]. constructor; [|constructor].
    intros Hhit. rewrite Hhit in Hs1. destruct Hs1 as [Hin _].
    pose proof (LRU_stack _ _ _ _ _ _ _ Hle Hr1 Hr2 key Hin) as Hin2.
    destruct (ev_outcome e2); [done|]. by destruct Hs2 as [Hnin _].
Qed.

End lru_stack.

Section cold.

Implicit Types (p : policy) (ks : list string) (es : list event).

Lemma cold_resident p :
  policy_inv p → cold p →
  NoDup (insertion_order p) ∧ resident p = list_to_set (insertion_order p).
Proof.
  destruct p as [c|c|c]; simpl; intros Hinv Hcold.
  - unfold LRUCache.print_cache_state. split.
    + rewrite reverse_Permutation. apply Hinv.
    + rewrite (LRU_dom c Hinv). apply set_eq. intros k.
      by rewrite !elem_of_list_to_set, elem_of_reverse.
  - unfold FIFOCache.print_cache_state. split; [apply Hinv|].
    symmetry. apply Hinv.
  - pose proof (lfu_links _ Hinv) as Hlinks.
    pose proof (lfu_map _ _ _ Hlinks) as Hmap. split.
    + rewrite reverse_Permutation. eapply LFU_links_keys, Hlinks.
    + apply set_eq. intros k.
      rewrite elem_of_list_to_set, elem_of_reverse, elem_of_keys, elem_of_dom.
      split.
      * intros [[f it] Hk]. exists it. apply Hmap.
        by rewrite (Hcold _ _ _ Hk) in Hk.
      * intros [it Hin%Hmap]. by eexists.
Qed.

Lemma cold_step key p p' e :
  policy_inv p → cold p → key ∉ resident p → access key p = Some (p', e) →
  ev_outcome e = MISS ∧ cold p' ∧
  evicted_keys [e] ++ insertion_order p' = insertion_order p ++ [key].
Proof.
  destruct p as [c|c|c]; simpl; intros Hinv Hcold Hnin Hacc.
  - destruct (LRUCache.access key c) as [[c' e']|] eqn:Hc; [|done].
    simpl in Hacc. injection Hacc as <- <-. simpl.
    destruct (LRU_access_list key c c' e' Hinv Hc)
      as (it & l1 & Hl' & _ & [Hcase|[Hcase|Hcase]]).
    + destruct Hcase as (_ & _ & Hin & _). exfalso. apply Hnin.
      rewrite (LRU_dom c Hinv), elem_of_list_to_set, elem_of_keys. by exists it.
    + destruct Hcase as (Hm & Hn & _ & ->). split; [done|]. split; [done|].
      unfold evicted_keys, LRUCache.print_cache_state. simpl.
      rewrite Hn, Hl'. unfold keys. simpl. by rewrite reverse_cons.
    + destruct Hcase as (Hm & _ & itv & v & Hv & Hl). split; [done|].
      split; [done|].
      unfold evicted_keys, LRUCache.print_cache_state, keys. simpl.
      rewrite Hv, Hl', Hl, fmap_app. simpl. by rewrite reverse_cons, reverse_app.
  - destruct (FIFOCache.access key c) as [[c' e']|] eqn:Hc; [|done].
    simpl in Hacc. injection Hacc as <- <-. simpl.
    destruct (FIFO_access_queue key c c' e' Hc) as [(Hh & _ & _)|(Hm & _ & Hq)].
    + exfalso. destruct (FIFO_access_ok key c Hinv) as (c1 & e1 & Hc1 & _ & _ & Hs).
      rewrite Hc in Hc1. injection Hc1 as <- <-. rewrite Hh in Hs.
      by destruct Hs as [Hin _].
    + by split.
  - destruct (LFUCache.access key c) as [[c' e']|] eqn:Hc; [|done].
    simpl in Hacc. injection Hacc as <- <-. simpl.
    pose proof (lfu_links _ Hinv) as Hlinks.
    pose proof (lfu_map _ _ _ Hlinks) as Hmap.
    apply not_elem_of_dom in Hnin. revert Hc. unfold LFUCache.access.
    rewrite Hnin. simpl. case_decide as Hfull; simpl.
    + assert (LFUCache.cache_map c ≠ ∅) as Hne.
      { intros Hempty. rewrite Hempty, map_size_empty in Hfull.
        pose proof (lfu_cap _ Hinv). simpl in Hfull. lia. }
      pose proof (lfu_min _ Hinv Hne) as Hmin.
      destruct (nonempty_snoc _ Hmin) as (l0 & itv & v & Hl).
      assert (LFUCache.min_frequency c = 1) as Hone.
      { apply (Hcold v _ itv), Hmap. rewrite Hl. set_solver. }
      rewrite Hone in Hl |- *. rewrite Hl, back_snoc. simpl.
      rewrite pop_back_snoc, begin_bucket_push. simpl.
      intros [= <- <-]. simpl. split; [done|]. split.
      * intros k f it. destruct (decide (k = key)) as [->|Hk].
        -- rewrite lookup_insert_eq. by intros [= <- _].
        -- rewrite lookup_insert_ne by done.
           intros [_ Hk']%lookup_delete_Some. by eapply Hcold.
      * rewrite !bucket_insert, !decide_True by done.
        unfold evicted_keys, push_front, keys. simpl.
        by rewrite fmap_app, reverse_cons, reverse_app.
    + rewrite begin_bucket_push. simpl.
      intros [= <- <-]. simpl. split; [done|]. split.
      * intros k f it. destruct (decide (k = key)) as [->|Hk].
        -- rewrite lookup_insert_eq. by intros [= <- _].
        -- rewrite lookup_insert_ne by done. by apply Hcold.
      * rewrite bucket_insert, decide_True by done.
        unfold evicted_keys, push_front, keys. simpl. by rewrite reverse_cons.
Qed.

Lemma cold_run_step ks p es key p' e :
  policy_inv p → cold_run ks p es → access key p = Some (p', e) →
  cold_run (ks ++ [key]) p' (es ++ [e]).
Proof.
  intros Hinv Hrun Hacc [Hnd [Hkey _]]%NoDup_app.
  destruct (Hrun Hnd) as (Hcold & Hmiss & Hks).
  destruct (cold_resident p Hinv Hcold) as [_ Hres].
  assert (key ∉ resident p) as Hnin.
  { rewrite Hres, elem_of_list_to_set. intros Hin. apply (Hkey key); [|set_solver].
    rewrite Hks. set_solver. }
  destruct (cold_step key p p' e Hinv Hcold Hnin Hacc) as (Hm & Hcold' & Hord).
  split; [done|]. split.
  - apply Forall_app. split; [done|]. by constructor.
  - unfold evicted_keys in *. rewrite omap_app, <- app_assoc, Hord, app_assoc.
    by rewrite <- Hks.
Qed.

End cold.

(** * The properties of the specification *)

(** C1, as stated, fails: on the sequence of [main] with capacity 4 the
    LRU and the LFU cache report the same outcome at every access and end
    with the same resident keys, so not every pair of policies differs. *)
Lemma scenario_lru_lfu_agree :
  ¬ (policies_differ "LRU" "FIFO" ∧ policies_differ "LRU" "LFU" ∧
     policies_differ "FIFO" "LFU").
Proof.
  intros (_ & [Hout|Hfin] & _).
  - apply Hout. vm_compute. reflexivity.
  - apply Hfin. vm_compute. reflexivity.
Qed.

(** C1, amended.  On the sequence of [main] with capacity 4, FIFO differs
    from LRU and from LFU: the seventh access (to A) is a miss under FIFO
    and a hit under the other two, and FIFO ends with B, C, D, E resident
    where the other two end with A, C, D, E.  LRU and LFU report the same
    outcomes (five hits, nine misses; FIFO four hits, ten misses) and end
    with the same resident keys. *)
Theorem scenario_outcomes :
  outcomes (scenario "LRU") =
    Some [MISS; MISS; MISS; MISS; HIT; MISS; HIT; MISS; HIT; MISS; MISS; MISS; HIT; HIT] ∧
  outcomes (scenario "FIFO") =
    Some [MISS; MISS; MISS; MISS; HIT; MISS; MISS; MISS; HIT; MISS; MISS; MISS; HIT; HIT] ∧
  outcomes (scenario "LFU") = outcomes (scenario "LRU") ∧
  final_resident (scenario "LRU") = Some {["A"; "C"; "D"; "E"]} ∧
  final_resident (scenario "FIFO") = Some {["B"; "C"; "D"; "E"]} ∧
  final_resident (scenario "LFU") = final_resident (scenario "LRU") ∧
  policies_differ "LRU" "FIFO" ∧ policies_differ "FIFO" "LFU" ∧
  ¬ policies_differ "LRU" "LFU".
Proof.
  assert (outcomes (scenario "LRU") =
    Some [MISS; MISS; MISS; MISS; HIT; MISS; HIT; MISS; HIT; MISS; MISS; MISS; HIT; HIT])
    as Hlru by (vm_compute; reflexivity).
  assert (outcomes (scenario "FIFO") =
    Some [MISS; MISS; MISS; MISS; HIT; MISS; MISS; MISS; HIT; MISS; MISS; MISS; HIT; HIT])
    as Hfifo by (vm_compute; reflexivity).
  assert (outcomes (scenario "LFU") = outcomes (scenario "LRU")) as Hlfu
    by (vm_compute; reflexivity).
  assert (final_resident (scenario "LFU") = final_resident (scenario "LRU")) as Hfin
    by (vm_compute; reflexivity).
  split; [exact Hlru|]. split; [exact Hfifo|]. split; [exact Hlfu|].
  split; [vm_compute; reflexivity|]. split; [vm_compute; reflexivity|].
  split; [exact Hfin|]. unfold policies_differ. rewrite Hlfu, Hfin, Hlru, Hfifo.
  split; [left; discriminate|]. split; [left; discriminate|].
  intros [H|H]; apply H; reflexivity.
Qed.

(** C2.  After any run of the LFU policy, the next access evicts a key
    exactly when it is a miss arriving at a full cache.  The frequency
    the directory records for a resident key is the number of accesses
    to it since the miss that last brought it in.  The evicted key [v]
    leaves the directory; its frequency, the number of its accesses
    since it was brought in, is at most that of every other resident
    key, and every other resident key of the same frequency was accessed
    after the last access to [v]. *)
Theorem lfu_evicts_least_frequent_least_recent (cap : nat)
    (ks : list string) (key : string) :
  ∃ c es c' e,
    run (CacheSimulator_new cap ks "LFU") = Some (LFU c, es) ∧
    LFUCache.access key c = Some (c', e) ∧
    (is_Some (ev_evicted e) ↔
       (key ∉ dom (LFUCache.cache_map c)) ∧
       size (dom (LFUCache.cache_map c)) = capacity (LFUCache.base c)) ∧
    ∀ v, ev_evicted e = Some v →
      ∃ fv itv iv,
        LFUCache.cache_map c !! v = Some (fv, itv) ∧
        loaded_at ks es v iv ∧ fv = uses_from ks v iv ∧
        (v ∉ dom (LFUCache.cache_map c')) ∧
        ∀ r fr itr,
          r ≠ v → LFUCache.cache_map c !! r = Some (fr, itr) →
          (∃ ir, loaded_at ks es r ir ∧ fr = uses_from ks r ir) ∧
          fv ≤ fr ∧ (fr = fv → later ks r v).
Proof.
  destruct (LFU_replay_ok cap ks) as (c & es & Hrun & Hinv & Hrec).
  destruct (LFU_replay_frequency cap ks) as (c0 & es0 & Hrun0 & _ & _ & Hfreq).
  rewrite Hrun in Hrun0. injection Hrun0 as <- <-.
  destruct (LFU_access_ok key c Hinv) as (c' & e & Hacc & Hinv' & _ & Hstep).
  exists c, es, c', e. split; [by rewrite LFU_run|]. split; [done|]. split.
  { destruct (ev_outcome e); simpl in Hstep.
    - destruct Hstep as (Hin & _ & _ & _ & ->). split; [by intros [? ?]|].
      by intros [? _].
    - destruct Hstep as (Hnin & _ & _ & Hev).
      destruct (ev_evicted e) as [v|].
      + destruct Hev as (_ & ? & _). split; [done|by eexists].
      + destruct Hev as [Hlt _]. split; [by intros [? ?]|]. intros [_ ?]. lia. }
  intros v Hv.
  destruct (LFU_access_evicted key c c' e v Hacc Hv) as (Hback & Hfull & Hnone).
  pose proof (lfu_links _ Hinv) as Hlinks.
  pose proof (lfu_map _ _ _ Hlinks) as Hmap.
  unfold back in Hback.
  destruct (last (LFUCache.bucket (LFUCache.freq_map c) (LFUCache.min_frequency c)))
    as [[itv v']|] eqn:Hlast; simplify_eq/=.
  apply last_Some in Hlast as [l0 Hl].
  assert ((itv, v) ∈ LFUCache.bucket (LFUCache.freq_map c) (LFUCache.min_frequency c))
    as Hvin by (rewrite Hl; set_solver).
  assert (LFUCache.cache_map c !! v = Some (LFUCache.min_frequency c, itv))
    as Hvmap by by apply Hmap.
  destruct (Hfreq _ _ _ Hvmap) as (iv & Hloaded & Hfv).
  exists (LFUCache.min_frequency c), itv, iv.
  split; [done|]. split; [done|]. split; [done|]. split.
  { destruct (ev_outcome e); simpl in Hstep.
    - destruct Hstep as (_ & _ & _ & _ & ?). congruence.
    - rewrite Hv in Hstep. destruct Hstep as (Hnin & _ & _ & _ & _ & ->).
      apply Hmap, elem_of_dom_2 in Hvin. set_solver. }
  intros r fr itr Hrv Hr. split; [exact (Hfreq _ _ _ Hr)|].
  split; [by eapply lfu_lower|].
  intros ->. apply Hmap in Hr. rewrite Hl in Hr.
  apply elem_of_app in Hr as [Hr|Hr%list_elem_of_singleton]; [|congruence].
  specialize (Hrec (LFUCache.min_frequency c)). rewrite Hl in Hrec.
  unfold keys in Hrec. rewrite fmap_app in Hrec.
  eapply StronglySorted_app_1_elem_of; [done| |simpl; set_solver].
  apply list_elem_of_fmap. by exists (itr, r).
Qed.

(** C3.  After any run of the LFU policy from the empty cache, every
    resident key has its node in the frequency list named by its directory
    entry, there once, and in no other list; and when the cache is not
    empty, the list of [min_frequency] is not empty.  Moreover the lists
    hold nodes of resident keys only, and no resident key has a frequency
    below [min_frequency]. *)
Theorem lfu_buckets_match_directory (cap : nat) (ks : list string) :
  ∃ c es,
    run (CacheSimulator_new cap ks "LFU") = Some (LFU c, es) ∧
    (∀ k, k ∈ dom (LFUCache.cache_map c) →
       ∃ f it l,
         LFUCache.cache_map c !! k = Some (f, it) ∧
         LFUCache.freq_map c !! f = Some l ∧
         (it, k) ∈ l ∧ NoDup (keys l) ∧
         ∀ g l', LFUCache.freq_map c !! g = Some l' → k ∈ keys l' → g = f) ∧
    (LFUCache.cache_map c ≠ ∅ →
       ∃ l, LFUCache.freq_map c !! LFUCache.min_frequency c = Some l ∧ l ≠ []) ∧
    (∀ g l it k,
       LFUCache.freq_map c !! g = Some l → (it, k) ∈ l →
       LFUCache.cache_map c !! k = Some (g, it)) ∧
    (∀ k f it,
       LFUCache.cache_map c !! k = Some (f, it) → LFUCache.min_frequency c ≤ f).
Proof.
  destruct (LFU_replay_ok cap ks) as (c & es & Hrun & Hinv & _).
  pose proof (lfu_links _ Hinv) as Hlinks.
  pose proof (lfu_map _ _ _ Hlinks) as Hmap.
  assert (∀ f, LFUCache.bucket (LFUCache.freq_map c) f ≠ [] →
            LFUCache.freq_map c !! f =
              Some (LFUCache.bucket (LFUCache.freq_map c) f)) as Hsome.
  { intros f. unfold LFUCache.bucket.
    by destruct (LFUCache.freq_map c !! f). }
  assert (∀ f l, LFUCache.freq_map c !! f = Some l →
            LFUCache.bucket (LFUCache.freq_map c) f = l) as Hbucket.
  { intros f l Hl. unfold LFUCache.bucket. by rewrite Hl. }
  exists c, es. split; [by rewrite LFU_run|]. split; [|split; [|split]].
  - intros k [[f it] Hk]%elem_of_dom.
    assert ((it, k) ∈ LFUCache.bucket (LFUCache.freq_map c) f) as Hin
      by by apply Hmap.
    exists f, it, (LFUCache.bucket (LFUCache.freq_map c) f).
    split; [done|]. split.
    { apply Hsome. intros E. rewrite E in Hin. by apply elem_of_nil in Hin. }
    split; [done|]. split; [by eapply LFU_links_keys|].
    intros g l' Hg [it' Hin']%elem_of_keys.
    rewrite <- (Hbucket _ _ Hg) in Hin'. apply Hmap in Hin'. congruence.
  - intros Hne. eexists. split; [|by apply (lfu_min _ Hinv)].
    apply Hsome. by apply (lfu_min _ Hinv).
  - intros g l it k Hg Hin. apply Hmap. by rewrite (Hbucket _ _ Hg).
  - apply (lfu_lower _ Hinv).
Qed.

(** C4.  For every policy name, requested capacity and access sequence the
    run completes, and afterwards the number of resident keys is at most
    the capacity kept by the cache, which is the requested one raised to
    at least one.  One more access, with any key (also an unseen key
    arriving at a full cache), again leaves at most that many keys. *)
Theorem resident_count_le_capacity (cap : nat) (policy_type : string)
    (ks : list string) :
  ∃ p es,
    run (CacheSimulator_new cap ks policy_type) = Some (p, es) ∧
    capacity (policy_base p) = Nat.max 1 cap ∧
    (size (resident p) ≤ capacity (policy_base p))%nat ∧
    ∀ key, ∃ p' e,
      access key p = Some (p', e) ∧
      capacity (policy_base p') = capacity (policy_base p) ∧
      (size (resident p') ≤ capacity (policy_base p'))%nat.
Proof.
  destruct (run_ok cap ks policy_type) as (p & es & Hrun & Hinv & Hcap).
  exists p, es. repeat split; [done..|by apply policy_size_le|].
  intros key. destruct (access_ok key p Hinv) as (p' & e & Hacc & Hinv' & Hc & _).
  exists p', e. repeat split; [done..|by apply policy_size_le].
Qed.


(** C6.  After any run of the FIFO policy, accessing a resident key is a
    hit that leaves the queue (the insertion order) and the membership set
    as they were; the head of the queue, which the next eviction removes,
    is the same, and whatever is accessed afterwards yields the same
    outcomes and the same evicted keys as if the hit had not happened. *)
Theorem fifo_hit_no_structural_change (cap : nat) (ks : list string)
    (key : string) :
  ∃ c es,
    run (CacheSimulator_new cap ks "FIFO") = Some (FIFO c, es) ∧
    (key ∈ FIFOCache.cache_set c ↔ key ∈ FIFOCache.fifo_queue c) ∧
    (key ∈ FIFOCache.cache_set c →
       ∃ c',
         FIFOCache.access key c = Some (c', Event HIT None) ∧
         FIFOCache.fifo_queue c' = FIFOCache.fifo_queue c ∧
         FIFOCache.cache_set c' = FIFOCache.cache_set c ∧
         head (FIFOCache.fifo_queue c') = head (FIFOCache.fifo_queue c) ∧
         ∀ ks', snd <$> replay (FIFO c') ks' = snd <$> replay (FIFO c) ks').
Proof.
  destruct (FIFO_replay_ok cap ks) as (c & es & Hrun & Hinv).
  exists c, es. split; [done|]. split.
  { rewrite <- (fifo_set _ Hinv). apply elem_of_list_to_set. }
  intros Hin. unfold FIFOCache.access. rewrite decide_True by done.
  eexists. split; [done|]. simpl. repeat split.
  intros ks'. apply FIFO_replay_same. by repeat split.
Qed.

(** C7.  With the LRU policy and a requested capacity of at least two,
    whenever the sequence names the same key at two consecutive positions,
    the access at the second position is reported as a hit.  (The bound
    on the capacity is not used: [repeated_access_hits] shows the same for
    every policy and every capacity.) *)
Theorem lru_repeated_access_hits (cap : nat) (ks : list string) (i : nat)
    (key : string) :
  (2 ≤ cap)%nat → ks !! i = Some key → ks !! S i = Some key →
  ∃ p es e,
    run (CacheSimulator_new cap ks "LRU") = Some (p, es) ∧
    es !! S i = Some e ∧ ev_outcome e = HIT.
Proof. intros _. apply repeated_access_hits. Qed.

Lemma lru_repeated_access_hits_witness :
  (2 ≤ 2)%nat ∧
  ["A"; "B"; "B"] !! 1%nat = Some "B" ∧ ["A"; "B"; "B"] !! 2%nat = Some "B" ∧
  ∃ p es e,
    run (CacheSimulator_new 2 ["A"; "B"; "B"] "LRU") = Some (p, es) ∧
    es !! 2%nat = Some e ∧ ev_outcome e = HIT.
Proof.
  split; [lia|]. split; [reflexivity|]. split; [reflexivity|].
  apply (lru_repeated_access_hits 2 ["A"; "B"; "B"] 1 "B"); [lia|reflexivity..].
Defined.

(** C8.  After a run of at most [INT_MAX] accesses, the runs on which the
    [int] counters exist, under any policy: the counters are not negative
    and add up to the number of accesses.  When no access was made the
    rate computed by [print_stats] is +0.0.  Otherwise the division is by
    the exact conversion of [hits + misses], a finite double that is not
    zero, and the rate is the hit rate expressed as a percentage,
    [100 * hits / (hits + misses)], rounded to double precision by the
    division and by the multiplication: a finite double that is not
    negative and is away from the percentage by at most the percentage
    times 2^-51.  It is +0.0 when there was no hit, and never NaN. *)
Theorem hit_rate_defined (cap : nat) (policy_type : string) (ks : list string) :
  Z.of_nat (length ks) ≤ INT_MAX →
  ∃ p es,
    run (CacheSimulator_new cap ks policy_type) = Some (p, es) ∧
    0 ≤ hits (policy_base p) ∧ 0 ≤ misses (policy_base p) ∧
    hits (policy_base p) + misses (policy_base p) = Z.of_nat (length ks) ∧
    (hits (policy_base p) + misses (policy_base p) = 0 →
       hit_rate (policy_base p) = S754_zero false) ∧
    (0 < hits (policy_base p) + misses (policy_base p) →
       (∃ m e,
          double_of_int (hits (policy_base p) + misses (policy_base p))
            = S754_finite false m e ∧
          (inject_Z (Z.pos m) * 2 ^ e
           == inject_Z (hits (policy_base p) + misses (policy_base p)))%Q) ∧
       ∃ q,
         SF2Q (hit_rate (policy_base p)) = Some q ∧ (0 <= q)%Q ∧
         (Qabs (q - 100 * inject_Z (hits (policy_base p))
                    / inject_Z (hits (policy_base p) + misses (policy_base p)))
          <= 100 * inject_Z (hits (policy_base p))
               / inject_Z (hits (policy_base p) + misses (policy_base p))
             * (1 # 2 ^ 51))%Q) ∧
    (hits (policy_base p) = 0 → hit_rate (policy_base p) = S754_zero false) ∧
    hit_rate (policy_base p) ≠ S754_nan.
Proof.
  intros Hlen.
  destruct (run_counters cap policy_type ks) as (p & es & Hrun & Hh & Hm & Htot).
  assert (INT_MAX < 2 ^ 53) as Hmax by done.
  assert (0 ≤ hits (policy_base p)) as Hh0 by (rewrite Hh; unfold count_outcome; lia).
  assert (0 ≤ misses (policy_base p)) as Hm0 by (rewrite Hm; unfold count_outcome; lia).
  exists p, es. split; [done|]. split; [done|]. split; [done|]. split; [done|].
  split; [|split; [|split]].
  - intros Hz. unfold hit_rate. by rewrite Hz.
  - intros Hpos. split.
    + destruct (double_of_int_value (hits (policy_base p) + misses (policy_base p)))
        as (m & e & Hd & _ & _ & Hv); [lia|]. by exists m, e.
    + apply hit_rate_accurate; [done|done|lia].
  - intros Hz. destruct (decide (misses (policy_base p) = 0)) as [Hz'|Hnz].
    + unfold hit_rate. by rewrite Hz, Hz'.
    + apply hit_rate_no_hits; [done|lia].
  - apply hit_rate_not_nan; [done..|lia].
Qed.

Lemma hit_rate_defined_witness :
  Z.of_nat (length main_accesses) ≤ INT_MAX ∧
  ∃ p es,
    run (CacheSimulator_new 4 main_accesses "LFU") = Some (p, es) ∧
    0 ≤ hits (policy_base p) ∧ 0 ≤ misses (policy_base p) ∧
    hits (policy_base p) + misses (policy_base p) = Z.of_nat (length main_accesses) ∧
    (hits (policy_base p) + misses (policy_base p) = 0 →
       hit_rate (policy_base p) = S754_zero false) ∧
    (0 < hits (policy_base p) + misses (policy_base p) →
       (∃ m e,
          double_of_int (hits (policy_base p) + misses (policy_base p))
            = S754_finite false m e ∧
          (inject_Z (Z.pos m) * 2 ^ e
           == inject_Z (hits (policy_base p) + misses (policy_base p)))%Q) ∧
       ∃ q,
         SF2Q (hit_rate (policy_base p)) = Some q ∧ (0 <= q)%Q ∧
         (Qabs (q - 100 * inject_Z (hits (policy_base p))
                    / inject_Z (hits (policy_base p) + misses (policy_base p)))
          <= 100 * inject_Z (hits (policy_base p))
               / inject_Z (hits (policy_base p) + misses (policy_base p))
             * (1 # 2 ^ 51))%Q) ∧
    (hits (policy_base p) = 0 → hit_rate (policy_base p) = S754_zero false) ∧
    hit_rate (policy_base p) ≠ S754_nan.
Proof.
  assert (Z.of_nat (length main_accesses) ≤ INT_MAX) as Hlen
    by (unfold INT_MAX; simpl; lia).
  split; [exact Hlen|].
  apply (hit_rate_defined 4 "LFU" main_accesses Hlen).
Defined.

(** C9.  A simulator constructed with capacity zero is the simulator
    constructed with capacity one, for every policy name; its cache keeps
    capacity one, and the two runs over any sequence complete with the
    same final state and the same events. *)
Theorem zero_capacity_is_one (sequence : list string) (policy_type : string) :
  CacheSimulator_new 0 sequence policy_type
    = CacheSimulator_new 1 sequence policy_type ∧
  LRUCache.new 0 = LRUCache.new 1 ∧
  FIFOCache.new 0 = FIFOCache.new 1 ∧
  LFUCache.new 0 = LFUCache.new 1 ∧
  capacity (policy_base (cache (CacheSimulator_new 0 sequence policy_type)))
    = 1%nat ∧
  run (CacheSimulator_new 0 sequence policy_type)
    = run (CacheSimulator_new 1 sequence policy_type) ∧
  is_Some (run (CacheSimulator_new 0 sequence policy_type)).
Proof.
  repeat split; try done.
  - apply new_capacity.
  - destruct (run_ok 0 sequence policy_type) as (p & es & -> & _). by eexists.
Qed.

(** C10.  After any run, an access that is reported as a hit leaves the
    set of resident keys as it was and evicts nothing, whichever the
    policy. *)
Theorem hit_keeps_resident_set (cap : nat) (policy_type : string)
    (ks : list string) (key : string) :
  ∃ p es p' e,
    run (CacheSimulator_new cap ks policy_type) = Some (p, es) ∧
    access key p = Some (p', e) ∧
    (ev_outcome e = HIT ↔ key ∈ resident p) ∧
    (ev_outcome e = HIT → resident p' = resident p ∧ ev_evicted e = None).
Proof.
  destruct (run_ok cap ks policy_type) as (p & es & Hrun & Hinv & _).
  destruct (access_ok key p Hinv) as (p' & e & Hacc & _ & _ & Hstep).
  exists p, es, p', e. split; [done|]. split; [done|].
  destruct (ev_outcome e); simpl in Hstep.
  - destruct Hstep as (Hin & ? & _ & _ & ?). by repeat split.
  - destruct Hstep as (Hnin & _). by split.
Qed.

(** * Further properties of the code *)

(** X1.  The cache holds all the keys accessed so far while they fit, and is
    full afterwards: under every policy the resident keys are keys that
    were accessed, and their number is the smaller of the capacity and
    the number of distinct keys accessed.  While the distinct keys fit,
    every one of them is resident, nothing is evicted, and the misses are
    as many as the distinct keys. *)
Theorem resident_count_is_min (cap : nat) (policy_type : string)
    (ks : list string) :
  ∃ p es,
    run (CacheSimulator_new cap ks policy_type) = Some (p, es) ∧
    resident p ⊆ list_to_set ks ∧
    size (resident p) =
      Nat.min (Nat.max 1 cap) (size (list_to_set ks : gset string)) ∧
    ((size (list_to_set ks : gset string) ≤ Nat.max 1 cap)%nat →
       resident p = list_to_set ks ∧ evicted_keys es = [] ∧
       misses (policy_base p) = Z.of_nat (size (list_to_set ks : gset string)) ∧
       hits (policy_base p) =
         Z.of_nat (length ks) - Z.of_nat (size (list_to_set ks : gset string))).
Proof.
  destruct (run_working_set cap policy_type ks)
    as (p & es & Hrun & Hinv & Hlen & (Hsub & Hsize & Hfit) & _).
  destruct (run_ok cap ks policy_type) as (p1 & es1 & Hrun1 & _ & Hcap).
  destruct (run_counters cap policy_type ks) as (p2 & es2 & Hrun2 & Hh & Hm & Htot).
  rewrite Hrun in Hrun1, Hrun2.
  injection Hrun1 as <- <-. injection Hrun2 as <- <-.
  rewrite Hcap in Hsize, Hfit.
  exists p, es. split; [done|]. split; [done|]. split; [done|].
  intros Hs. destruct (Hfit Hs) as [Hev Hmiss].
  split; [|split; [done|split; lia]].
  apply set_subseteq_size_eq; [done|lia].
Qed.

(** X2.  Under every policy a key is resident exactly when it has been
    accessed since it was last evicted: entries are created by an access
    and destroyed by an eviction only. *)
Theorem resident_iff_accessed_since_evicted (cap : nat) (policy_type : string)
    (ks : list string) :
  ∃ p es,
    run (CacheSimulator_new cap ks policy_type) = Some (p, es) ∧
    length es = length ks ∧
    ∀ k, k ∈ resident p ↔ alive ks es k.
Proof.
  destruct (run_working_set cap policy_type ks)
    as (p & es & Hrun & _ & Hlen & _ & Halive).
  by exists p, es.
Qed.

(** X3.  After any run of the LRU policy the directory and the list agree:
    every entry of [cache_map] is an iterator to the node of [lru_list]
    that holds its key, every node is the target of an entry, no key and
    no node occurs twice, and both containers have the same size. *)
Theorem lru_map_points_into_list (cap : nat) (ks : list string) :
  ∃ c es,
    run (CacheSimulator_new cap ks "LRU") = Some (LRU c, es) ∧
    (∀ k it, LRUCache.cache_map c !! k = Some it ↔ (it, k) ∈ LRUCache.lru_list c) ∧
    NoDup (nodes (LRUCache.lru_list c)) ∧
    NoDup (keys (LRUCache.lru_list c)) ∧
    size (LRUCache.cache_map c) = length (LRUCache.lru_list c).
Proof.
  destruct (LRU_replay_ok cap ks) as (c & es & Hrun & Hinv & _).
  exists c, es. split; [done|]. split; [apply Hinv|]. split; [apply Hinv|].
  split; [apply Hinv|]. rewrite <- size_dom. by apply LRU_size.
Qed.

(** X4.  After any run of the LRU policy [print_cache_state] lists every
    resident key once, from the most recently to the least recently
    accessed one; the first key listed is the key of the last access. *)
Theorem lru_snapshot_in_recency_order (cap : nat) (ks : list string) :
  ∃ c es,
    run (CacheSimulator_new cap ks "LRU") = Some (LRU c, es) ∧
    NoDup (LRUCache.print_cache_state c) ∧
    list_to_set (LRUCache.print_cache_state c) = dom (LRUCache.cache_map c) ∧
    StronglySorted (later ks) (LRUCache.print_cache_state c) ∧
    head (LRUCache.print_cache_state c) = last ks.
Proof.
  destruct (LRU_replay_ok cap ks) as (c & es & Hrun & Hinv & Hsort & Hhead & _).
  exists c, es. split; [done|]. split; [apply Hinv|].
  split; [symmetry; by apply LRU_dom|]. by split.
Qed.

(** X5.  After any run of the LRU policy every resident key has been
    accessed more recently than every key that is not resident: the cache
    holds the most recently used keys. *)
Theorem lru_keeps_most_recently_used (cap : nat) (ks : list string) :
  ∃ c es,
    run (CacheSimulator_new cap ks "LRU") = Some (LRU c, es) ∧
    ∀ k r,
      k ∈ dom (LRUCache.cache_map c) → r ∉ dom (LRUCache.cache_map c) →
      later ks k r.
Proof.
  destruct (LRU_replay_ok cap ks) as (c & es & Hrun & Hinv & _ & _ & Hincl).
  exists c, es. split; [done|]. intros k r.
  rewrite (LRU_dom c Hinv), !elem_of_list_to_set. apply Hincl.
Qed.

(** X6.  When an access under the LRU policy evicts a key, that key is the
    least recently used one: it was resident, it is not the key being
    accessed, it is gone afterwards, and every other resident key has been
    accessed after the last access to it. *)
Theorem lru_evicts_least_recently_used (cap : nat) (ks : list string)
    (key : string) :
  ∃ c es c' e,
    run (CacheSimulator_new cap ks "LRU") = Some (LRU c, es) ∧
    LRUCache.access key c = Some (c', e) ∧
    ∀ v, ev_evicted e = Some v →
      back (LRUCache.lru_list c) = Some v ∧
      v ∈ dom (LRUCache.cache_map c) ∧ v ≠ key ∧
      (v ∉ dom (LRUCache.cache_map c')) ∧
      ∀ r, r ∈ dom (LRUCache.cache_map c) → r ≠ v → later ks r v.
Proof.
  destruct (LRU_replay_ok cap ks) as (c & es & Hrun & Hinv & Hsort & _ & _).
  destruct (LRU_access_ok key c Hinv) as (c' & e' & Hc & Hinv' & Hstep).
  exists c, es, c', e'. split; [done|]. split; [done|]. intros v Hv.
  destruct (LRU_access_list key c c' e' Hinv Hc)
    as (it & l1 & Hl' & Hfresh & [Hcase|[Hcase|Hcase]]).
  { destruct Hcase as (_ & Hnone & _). congruence. }
  { destruct Hcase as (_ & Hnone & _). congruence. }
  destruct Hcase as (_ & Hnew & itv & v' & Hev & Hl).
  assert (v' = v) as -> by congruence.
  rewrite (LRU_dom c Hinv), (LRU_dom c' Hinv'), Hl, Hl'.
  unfold keys in *. rewrite Hl in Hnew, Hsort.
  rewrite fmap_app in Hnew, Hsort. simpl in Hnew, Hsort.
  split; [apply back_snoc|].
  split; [rewrite elem_of_list_to_set, fmap_app; set_solver|].
  split; [set_solver|].
  assert (v ∉ l1.*2) as Hvl1.
  { destruct Hinv as [_ _ Hkeys _ _ _]. unfold keys in Hkeys.
    rewrite Hl, fmap_app in Hkeys. simpl in Hkeys.
    apply NoDup_app in Hkeys as (_ & Hdis & _). intros Hin.
    apply (Hdis v Hin). set_solver. }
  split.
  { rewrite elem_of_list_to_set. simpl. set_solver. }
  intros r Hr Hne. rewrite elem_of_list_to_set, fmap_app in Hr. simpl in Hr.
  apply elem_of_app in Hr as [Hr|Hr]; [|set_solver].
  apply (StronglySorted_app_1_elem_of _ _ _ _ _ Hsort Hr). set_solver.
Qed.

(** X7.  Under the FIFO policy keys leave the cache in the order in which
    they were brought in: after any run, the keys of the missing accesses,
    in the order of the run, are the keys evicted so far, in the order of
    their eviction, followed by the queue that [print_cache_state] prints,
    oldest first; the queue holds each resident key once. *)
Theorem fifo_evicts_in_insertion_order (cap : nat) (ks : list string) :
  ∃ c es,
    run (CacheSimulator_new cap ks "FIFO") = Some (FIFO c, es) ∧
    missed_keys ks es = evicted_keys es ++ FIFOCache.print_cache_state c ∧
    NoDup (FIFOCache.print_cache_state c) ∧
    list_to_set (FIFOCache.print_cache_state c) = FIFOCache.cache_set c.
Proof.
  destruct (FIFO_replay_order cap ks) as (c & es & Hrun & Hinv & _ & Hord).
  exists c, es. split; [done|]. split; [done|]. split; apply Hinv.
Qed.

(** X8.  After any run of the LFU policy the loop of [print_cache_state]
    comes to an end, and with more iterations allowed it prints the same.
    It prints every resident key exactly once, in groups of strictly
    increasing frequency; no group is empty, the keys of a group are
    those recorded with the group's frequency in the directory, and
    within a group the keys run from the most recently to the least
    recently accessed one. *)
Theorem lfu_snapshot_by_frequency (cap : nat) (ks : list string) :
  ∃ c es fuel groups,
    run (CacheSimulator_new cap ks "LFU") = Some (LFU c, es) ∧
    LFUCache.print_cache_state fuel c = Some groups ∧
    (∀ fuel', (fuel ≤ fuel')%nat →
       LFUCache.print_cache_state fuel' c = Some groups) ∧
    NoDup (concat groups.*2) ∧
    list_to_set (concat groups.*2) = dom (LFUCache.cache_map c) ∧
    StronglySorted Z.lt groups.*1 ∧
    Forall (λ g : Z * list string,
              g.2 ≠ [] ∧ StronglySorted (later ks) g.2 ∧
              ∀ k, k ∈ g.2 ↔ ∃ it, LFUCache.cache_map c !! k = Some (g.1, it))
           groups.
Proof.
  destruct (LFU_replay_ok cap ks) as (c & es & Hrun & Hinv & Hrec).
  destruct (print_cache_state_ok c Hinv)
    as (fuel & groups & Hprint & Hdom & Hall & Hsort).
  exists c, es, fuel, groups. split; [done|]. split; [done|].
  split. { intros fuel' Hle. by apply (print_cache_state_more_fuel c fuel). }
  split.
  { apply (NoDup_groups c); [done| |done].
    eapply Forall_impl; [exact Hall|]. simpl. tauto. }
  split; [done|]. split; [done|].
  eapply Forall_impl; [exact Hall|]. simpl. intros [f l] [Hl Hne]. simpl in *.
  split; [done|]. subst l. split; [apply Hrec|].
  intros k. rewrite elem_of_keys.
  pose proof (lfu_map _ _ _ (lfu_links _ Hinv)) as Hmap.
  split; intros [it Hk]; exists it; by apply Hmap.
Qed.

(** X9.  Under the LFU policy the frequency recorded for a resident key is
    the number of accesses to it since it was last brought into the
    cache: the miss that loaded it counts one, and each hit since then
    adds one. *)
Theorem lfu_frequency_counts_accesses (cap : nat) (ks : list string) :
  ∃ c es,
    run (CacheSimulator_new cap ks "LFU") = Some (LFU c, es) ∧
    ∀ k f it, LFUCache.cache_map c !! k = Some (f, it) →
      ∃ i, loaded_at ks es k i ∧ f = uses_from ks k i.
Proof.
  destruct (LFU_replay_frequency cap ks) as (c & es & Hrun & _ & _ & Hfreq).
  by exists c, es.
Qed.

(** X10.  A cache of capacity one, or of capacity zero, which is raised to
    one, holds exactly the key of the last access, whatever the policy.
    The first access misses and evicts nothing; every later access hits
    when it repeats the key before it, and otherwise misses and evicts
    that key. *)
Theorem one_slot_cache_keeps_last_key (cap : nat) (policy_type : string)
    (ks : list string) :
  (cap ≤ 1)%nat →
  ∃ p es,
    run (CacheSimulator_new cap ks policy_type) = Some (p, es) ∧
    length es = length ks ∧
    resident p = list_to_set (option_list (last ks)) ∧
    ∀ i key e, ks !! i = Some key → es !! i = Some e →
      match i with
      | O => e = Event MISS None
      | S j => (ks !! j = Some key ∧ e = Event HIT None) ∨
               (ks !! j ≠ Some key ∧ e = Event MISS (ks !! j))
      end.
Proof.
  intros Hcap. unfold run. simpl access_sequence.
  set (p0 := cache (CacheSimulator_new cap ks policy_type)).
  assert (policy_inv p0) as Hinv0 by apply new_inv.
  assert (resident p0 = ∅) as Hres0.
  { unfold p0, CacheSimulator_new. simpl.
    repeat case_decide; simpl; by rewrite ?dom_empty_L. }
  assert (capacity (policy_base p0) = 1%nat) as Hcap0.
  { unfold p0. rewrite new_capacity. lia. }
  clearbody p0.
  destruct (replay_invariant one_slot p0 Hinv0) with (ks := ks)
    as (p & es & Hrun & _ & (_ & Hlen & Hres & Hev)).
  - split; [done|]. split; [done|]. split; [by rewrite Hres0|].
    intros i key e. by rewrite lookup_nil.
  - intros ks' p es key p' e _ _ _ Hone _ Hstep.
    exact (one_slot_step _ _ _ _ _ _ Hone Hstep).
  - by exists p, es.
Qed.

Lemma one_slot_cache_keeps_last_key_witness :
  (0 ≤ 1)%nat ∧
  ∃ p es,
    run (CacheSimulator_new 0 ["A"; "A"; "B"] "FIFO") = Some (p, es) ∧
    length es = length ["A"; "A"; "B"] ∧
    resident p = list_to_set (option_list (last ["A"; "A"; "B"])) ∧
    ∀ i key e, ["A"; "A"; "B"] !! i = Some key → es !! i = Some e →
      match i with
      | O => e = Event MISS None
      | S j => (["A"; "A"; "B"] !! j = Some key ∧ e = Event HIT None) ∨
               (["A"; "A"; "B"] !! j ≠ Some key ∧
                e = Event MISS (["A"; "A"; "B"] !! j))
      end.
Proof.
  assert (0 ≤ 1)%nat as Hcap by lia.
  split; [exact Hcap|].
  apply (one_slot_cache_keeps_last_key 0 "FIFO" ["A"; "A"; "B"] Hcap).
Defined.

(** X11.  On a run of at most [INT_MAX] accesses every state the run passes
    through has its counters and, for LFU, its frequencies and
    [min_frequency] within the range of [int]: no [hits++], [misses++]
    or [old_freq + 1] overflows.  The run is the run of its first [n]
    accesses followed by the replay of the others. *)
Theorem int_values_stay_in_range (cap : nat) (policy_type : string)
    (ks : list string) (n : nat) :
  Z.of_nat (length ks) ≤ INT_MAX →
  ∃ p es p' es',
    run (CacheSimulator_new cap (take n ks) policy_type) = Some (p, es) ∧
    int_range p ∧
    replay p (drop n ks) = Some (p', es') ∧
    run (CacheSimulator_new cap ks policy_type) = Some (p', es ++ es') ∧
    int_range p'.
Proof.
  intros Hlen.
  destruct (run_int_range cap policy_type (take n ks)) as (p & es & Hrun & Hrange).
  { rewrite length_take. lia. }
  destruct (run_int_range cap policy_type ks Hlen) as (p' & es0 & Hrun' & Hrange').
  assert (run (CacheSimulator_new cap ks policy_type) =
          replay (cache (CacheSimulator_new cap (take n ks) policy_type))
                 (take n ks ++ drop n ks)) as Hsplit.
  { by rewrite take_drop. }
  rewrite replay_app in Hsplit. unfold run in Hrun. simpl access_sequence in Hrun.
  rewrite Hrun in Hsplit. simpl in Hsplit. rewrite Hrun' in Hsplit.
  destruct (replay p (drop n ks)) as [[p1 es1]|] eqn:Hrest; simpl in Hsplit; [|done].
  injection Hsplit as -> ->.
  by exists p, es, p1, es1.
Qed.

Lemma int_values_stay_in_range_witness :
  Z.of_nat (length main_accesses) ≤ INT_MAX ∧
  ∃ p es p' es',
    run (CacheSimulator_new 4 (take 5 main_accesses) "LFU") = Some (p, es) ∧
    int_range p ∧
    replay p (drop 5 main_accesses) = Some (p', es') ∧
    run (CacheSimulator_new 4 main_accesses "LFU") = Some (p', es ++ es') ∧
    int_range p'.
Proof.
  assert (Z.of_nat (length main_accesses) ≤ INT_MAX) as Hlen
    by (unfold INT_MAX; simpl; lia).
  split; [exact Hlen|].
  apply (int_values_stay_in_range 4 "LFU" main_accesses 5 Hlen).
Defined.

(** X12.  LRU is a stack algorithm.  Of two LRU caches that serve the same
    sequence, the larger one holds every key the smaller one holds, hits
    at every access at which the smaller one hits, and so counts at least
    as many hits. *)
Theorem lru_larger_cache_keeps_hits (cap1 cap2 : nat) (ks : list string) :
  (cap1 ≤ cap2)%nat →
  ∃ c1 es1 c2 es2,
    run (CacheSimulator_new cap1 ks "LRU") = Some (LRU c1, es1) ∧
    run (CacheSimulator_new cap2 ks "LRU") = Some (LRU c2, es2) ∧
    dom (LRUCache.cache_map c1) ⊆ dom (LRUCache.cache_map c2) ∧
    Forall2 (λ e1 e2, ev_outcome e1 = HIT → ev_outcome e2 = HIT) es1 es2 ∧
    hits (LRUCache.base c1) ≤ hits (LRUCache.base c2).
Proof.
  intros Hle.
  destruct (LRU_stack_events cap1 cap2 ks Hle)
    as (c1 & es1 & c2 & es2 & Hr1 & Hr2 & _ & _ & Hall).
  exists c1, es1, c2, es2. split; [done|]. split; [done|].
  split; [exact (LRU_stack _ _ _ _ _ _ _ Hle Hr1 Hr2)|]. split; [done|].
  destruct (run_counters cap1 "LRU" ks) as (p1 & es1' & Hrun1 & Hh1 & _).
  destruct (run_counters cap2 "LRU" ks) as (p2 & es2' & Hrun2 & Hh2 & _).
  change (run (CacheSimulator_new cap1 ks "LRU"))
    with (replay (LRU (LRUCache.new cap1)) ks) in Hrun1.
  change (run (CacheSimulator_new cap2 ks "LRU"))
    with (replay (LRU (LRUCache.new cap2)) ks) in Hrun2.
  rewrite Hr1 in Hrun1. rewrite Hr2 in Hrun2.
  injection Hrun1 as <- <-. injection Hrun2 as <- <-. simpl in Hh1, Hh2.
  rewrite Hh1, Hh2. by apply count_outcome_HIT_mono.
Qed.

Lemma lru_larger_cache_keeps_hits_witness :
  (2 ≤ 3)%nat ∧
  ∃ c1 es1 c2 es2,
    run (CacheSimulator_new 2 main_accesses "LRU") = Some (LRU c1, es1) ∧
    run (CacheSimulator_new 3 main_accesses "LRU") = Some (LRU c2, es2) ∧
    dom (LRUCache.cache_map c1) ⊆ dom (LRUCache.cache_map c2) ∧
    Forall2 (λ e1 e2, ev_outcome e1 = HIT → ev_outcome e2 = HIT) es1 es2 ∧
    hits (LRUCache.base c1) ≤ hits (LRUCache.base c2).
Proof.
  assert (2 ≤ 3)%nat as Hle by lia.
  split; [exact Hle|].
  apply (lru_larger_cache_keeps_hits 2 3 main_accesses Hle).
Defined.

(** X13.  Under every policy an access evicts a key exactly when it misses
    on a full cache.  The evicted key was resident and is not the key of
    the access; the keys resident afterwards are the key of the access
    and the keys resident before, the evicted one apart. *)
Theorem eviction_only_when_full (cap : nat) (policy_type : string)
    (ks : list string) (key : string) :
  ∃ p es p' e,
    run (CacheSimulator_new cap ks policy_type) = Some (p, es) ∧
    access key p = Some (p', e) ∧
    (is_Some (ev_evicted e) ↔
       (key ∉ resident p) ∧ size (resident p) = capacity (policy_base p)) ∧
    (∀ v, ev_evicted e = Some v →
       v ∈ resident p ∧ v ≠ key ∧ (v ∉ resident p') ∧
       resident p' = {[key]} ∪ resident p ∖ {[v]}) ∧
    (ev_evicted e = None → resident p' = {[key]} ∪ resident p).
Proof.
  destruct (run_ok cap ks policy_type) as (p & es & Hrun & Hinv & _).
  destruct (access_ok key p Hinv) as (p' & e & Hacc & _ & _ & Hstep).
  pose proof (policy_size_le p Hinv) as Hsize.
  exists p, es, p', e. split; [done|]. split; [done|].
  destruct e as [o ev]. simpl in *. destruct o.
  - destruct Hstep as (Hin & -> & _ & _ & ->).
    split; [|split; [done|]].
    + split; [by intros [? ?]|]. by intros [? _].
    + intros _. set_solver.
  - destruct Hstep as (Hnin & _ & _ & Hev). destruct ev as [v|].
    + destruct Hev as (Hv & Hfull & ->). split; [|split; [|done]].
      * split; [done|]. by intros _.
      * intros ? [= <-]. split; [done|]. split; [set_solver|].
        split; [set_solver|done].
    + destruct Hev as (Hlt & ->). split; [|split; [done|]].
      * split; [by intros [? ?]|]. intros [_ ?]. lia.
      * intros _. done.
Qed.

(** X14.  On a sequence in which no key repeats the three policies behave
    alike: every access misses, the keys are evicted in the order of
    their arrival, and the cache ends with the last keys of the sequence,
    as many as its capacity. *)
Theorem policies_agree_without_repeats (cap : nat) (policy_type : string)
    (ks : list string) :
  NoDup ks →
  ∃ p es,
    run (CacheSimulator_new cap ks policy_type) = Some (p, es) ∧
    Forall (λ e, ev_outcome e = MISS) es ∧
    evicted_keys es = take (length ks - Nat.max 1 cap) ks ∧
    insertion_order p = drop (length ks - Nat.max 1 cap) ks ∧
    resident p = list_to_set (drop (length ks - Nat.max 1 cap) ks).
Proof.
  intros Hnd.
  destruct (run_working_set cap policy_type ks)
    as (p & es & Hrun & Hinv & Hlen & (_ & Hsize & _) & _).
  destruct (run_ok cap ks policy_type) as (p1 & es1 & Hrun1 & _ & Hcap).
  rewrite Hrun in Hrun1. injection Hrun1 as <- <-. rewrite Hcap in Hsize.
  assert (cold_run ks p es) as Hcold.
  { revert Hrun. unfold run. simpl access_sequence.
    set (p0 := cache (CacheSimulator_new cap ks policy_type)).
    assert (policy_inv p0) as Hinv0 by apply new_inv.
    assert (cold_run [] p0 []) as H0.
    { intros _. unfold p0, CacheSimulator_new. simpl.
      repeat case_decide; simpl; (split; [done|]); split; done. }
    clearbody p0. intros Hrun.
    destruct (replay_invariant cold_run p0 Hinv0 H0) with (ks := ks)
      as (p2 & es2 & Hrun2 & _ & Hc).
    - intros ks' q es' key q' e Hq _ _ Hc Hacc _.
      exact (cold_run_step _ _ _ _ _ _ Hq Hc Hacc).
    - rewrite Hrun in Hrun2. by injection Hrun2 as <- <-. }
  destruct (Hcold Hnd) as (Hc & Hmiss & Hks).
  destruct (cold_resident p Hinv Hc) as [Hndo Hres].
  assert (length (insertion_order p) = Nat.min (Nat.max 1 cap) (length ks)) as Hlo.
  { rewrite <- (size_list_to_set (C := gset string) (insertion_order p)) by done.
    rewrite <- Hres, Hsize. f_equal. by apply size_list_to_set. }
  assert (length (evicted_keys es) = (length ks - Nat.max 1 cap)%nat) as Hle.
  { apply (f_equal length) in Hks. rewrite length_app in Hks. lia. }
  exists p, es. split; [done|]. split; [done|].
  assert (evicted_keys es = take (length ks - Nat.max 1 cap) ks) as Hev.
  { rewrite <- Hle. rewrite Hks at 1. by rewrite take_app_length. }
  assert (insertion_order p = drop (length ks - Nat.max 1 cap) ks) as Hord.
  { rewrite <- Hle. rewrite Hks at 1. by rewrite drop_app_length. }
  split; [done|]. split; [done|]. by rewrite Hres, Hord.
Qed.

Lemma policies_agree_without_repeats_witness :
  NoDup ["A"; "B"; "C"] ∧
  ∃ p es,
    run (CacheSimulator_new 2 ["A"; "B"; "C"] "LFU") = Some (p, es) ∧
    Forall (λ e, ev_outcome e = MISS) es ∧
    evicted_keys es = take (length ["A"; "B"; "C"] - Nat.max 1 2) ["A"; "B"; "C"] ∧
    insertion_order p = drop (length ["A"; "B"; "C"] - Nat.max 1 2) ["A"; "B"; "C"] ∧
    resident p = list_to_set (drop (length ["A"; "B"; "C"] - Nat.max 1 2) ["A"; "B"; "C"]).
Proof.
  assert (NoDup ["A"; "B"; "C"]) as Hnd
    by (apply (bool_decide_unpack _); vm_compute; exact I).
  split; [exact Hnd|].
  apply (policies_agree_without_repeats 2 "LFU" ["A"; "B"; "C"] Hnd).
Defined.
